(** * redsea: block synchronisation and error correction (src/block_sync.cc)

    A shallow embedding of the RDS block synchroniser: the GF(2) syndrome
    computation, the burst-error lookup table, the running error window and
    the [BlockStream] bit-by-bit state machine, followed by the properties
    the specification states about them. *)

From Stdlib Require Import ZArith Lia Bool List.
From stdpp Require Import base option list gmap.

Local Open Scope Z_scope.

(** * The program *)

(** ** Enumerations *)

(** Modelled from the spec: [enum class Offset] is declared in a header
    outside [src/block_sync.cc].  The spec lists its enumerators as
    "A, B, C, Cprime, D, invalid"; their order is the one the five-entry
    table of [BlockNumberForOffset] is indexed by, and the key order of every
    [std::map<Offset, _>] in the file. *)
Inductive Offset : Set := A | B | C | Cprime | D | invalid.

#[global] Instance Offset_eq_dec : EqDecision Offset.
Proof. solve_decision. Defined.

Definition Offset_to_nat (o : Offset) : nat :=
  match o with
  | A => 0 | B => 1 | C => 2 | Cprime => 3 | D => 4 | invalid => 5
  end%nat.

Definition Offset_of_nat (n : nat) : Offset :=
  match n with
  | 0 => A | 1 => B | 2 => C | 3 => Cprime | 4 => D | _ => invalid
  end%nat.

#[global] Instance Offset_countable : Countable Offset :=
  inj_countable' Offset_to_nat Offset_of_nat
    (fun o => match o with
              | A | B | C | Cprime | D | invalid => eq_refl
              end).

(** Modelled from the spec: [eBlockNumber] is declared in a header
    outside [src/block_sync.cc].  The spec gives four ordinal positions,
    [C] and [Cprime] both at the third; the enumerators [BLOCK1] .. [BLOCK4]
    are the ones [BlockNumberForOffset] names. *)
Inductive eBlockNumber : Set := BLOCK1 | BLOCK2 | BLOCK3 | BLOCK4.

#[global] Instance eBlockNumber_eq_dec : EqDecision eBlockNumber.
Proof. solve_decision. Defined.

(** ** Fixed-width helpers *)

Definition kBitmask26 : Z := 0x3FFFFFF.

(** Conversion to [uint16_t] and [uint32_t]. *)
Definition to_u16 (x : Z) : Z := x mod 2 ^ 16.
Definition to_u32 (x : Z) : Z := x mod 2 ^ 32.

(** ** GF(2) matrix engine *)

(** [block_number_for_offset[static_cast<int>(o)]]: the table has five
    entries, so the read is out of bounds for [invalid]; that case is [None]. *)
Definition BlockNumberForOffset (o : Offset) : option eBlockNumber :=
  [BLOCK1; BLOCK2; BLOCK3; BLOCK3; BLOCK4] !! Offset_to_nat o.

(** One iteration of the loop of [MatrixMultiply], for index [k]. *)
Definition MatrixMultiply_step (vec : Z) (matrix : list Z) (result : Z) (k : nat) : Z :=
  if Z.eqb (Z.land (Z.shiftr vec (Z.of_nat k)) 0x01) 0
  then result
  else Z.lxor result (nth (length matrix - 1 - k) matrix 0).

Definition MatrixMultiply (vec : Z) (matrix : list Z) : Z :=
  fold_left (MatrixMultiply_step vec matrix) (seq 0 (length matrix)) 0.

Definition parity_check_matrix : list Z :=
  [ 0x200; 0x100; 0x080; 0x040; 0x020; 0x010; 0x008; 0x004;
    0x002; 0x001; 0x2dc; 0x16e; 0x0b7; 0x287; 0x39f; 0x313;
    0x355; 0x376; 0x1bb; 0x201; 0x3dc;
    0x1ee; 0x0f7; 0x2a7; 0x38f; 0x31b ].

Definition CalculateSyndrome (vec : Z) : Z :=
  MatrixMultiply vec parity_check_matrix.

Definition NextOffsetFor (this_offset : Offset) : Offset :=
  match this_offset with
  | A => B | B => C | C => D | Cprime => D | D => A | invalid => A
  end.

(** ** Error lookup table *)

(** [offset_words], in the iteration order of the [std::map] (key order). *)
Definition offset_words : list (Offset * Z) :=
  [ (A, 0x0FC); (B, 0x198); (C, 0x168); (Cprime, 0x350); (D, 0x1B4) ].

(** [std::map::insert]: the element is inserted only when the container
    holds no element with an equivalent key. *)
Definition map_insert (k : Z * Offset) (v : Z)
    (m : gmap (Z * Offset) Z) : gmap (Z * Offset) Z :=
  match m !! k with
  | Some _ => m
  | None => <[k:=v]> m
  end.

Definition error_vector_of (error_bits : Z) (shift : nat) : Z :=
  Z.land (to_u32 (Z.shiftl error_bits (Z.of_nat shift))) kBitmask26.

(** The body of the innermost loop of [MakeErrorLookupTable]. *)
Definition MakeErrorLookupTable_body (offset : Offset * Z) (error_bits : Z)
    (lookup_table : gmap (Z * Offset) Z) (shift : nat) : gmap (Z * Offset) Z :=
  let error_vector := error_vector_of error_bits shift in
  let syndrome := CalculateSyndrome (Z.lxor error_vector (offset.2)) in
  map_insert (to_u16 syndrome, offset.1) error_vector lookup_table.

Definition MakeErrorLookupTable : gmap (Z * Offset) Z :=
  fold_left (fun lookup_table offset =>
    fold_left (fun lookup_table error_bits =>
      fold_left (MakeErrorLookupTable_body offset error_bits)
                (seq 0 26) lookup_table)
      [0x1; 0x3] lookup_table)
    offset_words ∅.

Definition offset_syndromes : list (Z * Offset) :=
  [ (0x3D8, A); (0x3D4, B); (0x25C, C); (0x3CC, Cprime); (0x258, D) ].

Fixpoint assoc_find {V : Type} (k : Z) (m : list (Z * V)) : option V :=
  match m with
  | [] => None
  | (k', v) :: m' => if Z.eqb k k' then Some v else assoc_find k m'
  end.

Definition OffsetForSyndrome (syndrome : Z) : Offset :=
  match assoc_find syndrome offset_syndromes with
  | Some o => o
  | None => invalid
  end.

Definition kErrorLookup : gmap (Z * Offset) Z := MakeErrorLookupTable.

Definition CorrectBurstErrors (block : Z) (offset : Offset) : Z :=
  let syndrome := to_u16 (CalculateSyndrome block) in
  match kErrorLookup !! (syndrome, offset) with
  | Some err => Z.lxor block err
  | None => block
  end.

(** ** Running error window *)

Module RunningSum.

(** The values are C++ [int]s, 32 bits wide. *)
Definition INT_MIN : Z := - 2 ^ 31.
Definition INT_MAX : Z := 2 ^ 31 - 1.

(** [result += number] on [int]: a sum that leaves the range of [int] is a
    signed overflow, whose behaviour is undefined; that case is [None]. *)
Definition int_add (result number : Z) : option Z :=
  if (INT_MIN <=? result + number) && (result + number <=? INT_MAX)
  then Some (result + number)
  else None.

Record t : Type := { history_ : list Z; pointer_ : nat }.

(** [RunningSum(length)]: [length] value-initialised slots. *)
Definition new (length : nat) : t :=
  {| history_ := replicate length 0; pointer_ := 0 |}.

(** [push]: the write [history_[pointer_]] is out of bounds when the
    cursor is not below the size (in particular for an empty window,
    where the modulo is undefined as well); that case is [None]. *)
Definition push (r : t) (number : Z) : option t :=
  if decide (pointer_ r < length (history_ r))%nat
  then Some {| history_ := <[pointer_ r := number]> (history_ r);
               pointer_ := (pointer_ r + 1) mod length (history_ r) |}
  else None.

(** [sum]: the slots are added in storage order, in [int] arithmetic. *)
Definition sum (r : t) : option Z :=
  fold_left (fun result number => a ← result; int_add a number)
            (history_ r) (Some 0).

Definition clear (r : t) : t :=
  {| history_ := fold_left (fun h i => <[i := 0]> h)
                           (seq 0 (length (history_ r))) (history_ r);
     pointer_ := pointer_ r |}.

End RunningSum.

(** ** External collaborators *)

(** Modelled from the spec: the [Group] and [Options] classes and the
    integer values of the [eBlockNumber] enumerators live outside
    [src/block_sync.cc]; only the interface the synchroniser uses is taken, as
    parameters.  A [Group] "accumulates up to 4 message words, tagged by
    block number (with Cprime as an alternate tag for position 3) and an
    error flag per word; exposes whether it has decoded a Program
    Identification (PI) code yet and what that code is".  [Options] supplies
    an [input_type].  [eBlockNumber_to_Z] is the integer an enumerator
    converts to in the arithmetic of [AcquireSync]. *)
Class Collaborators : Type := {
  eBlockNumber_to_Z : eBlockNumber -> Z;
  Group : Type;
  Group_new : Group;
  Group_set : Group -> eBlockNumber -> Z -> bool -> Group;
  Group_set_c_prime : Group -> Z -> bool -> Group;
  Group_has_pi : Group -> bool;
  Group_pi : Group -> Z;
  Options : Type;
  eInputType : Type;
  input_type : Options -> eInputType
}.

(** ** The stream decoder *)

Section BlockStream.
Context `{X : Collaborators}.

(** Modelled from the spec: the members of [BlockStream] are declared in
    a header outside [src/block_sync.cc]; their names and initial
    values are those of the constructor.  The "bit counters" are kept as
    unbounded integers, the "shift register accumulating incoming bits" is
    32 bits wide (only its bits 1 to 26 are ever read). *)
Record BlockStream : Type := {
  bitcount_ : Z;
  prevbitcount_ : Z;
  left_to_read_ : Z;
  input_register_ : Z;
  prevsync_ : Offset;
  expected_offset_ : Offset;
  received_offset_ : Offset;
  pi_ : Z;
  is_in_sync_ : bool;
  block_error_sum_ : RunningSum.t;
  options_ : Options;
  input_type_ : eInputType;
  is_eof_ : bool;
  bler_average_ : RunningSum.t;
  current_group_ : Group;
  groups_ : list Group
}.

Definition set_bitcount_ (v : _) (s : BlockStream) : BlockStream :=
  {| bitcount_ := v; prevbitcount_ := prevbitcount_ s;
     left_to_read_ := left_to_read_ s; input_register_ := input_register_ s;
     prevsync_ := prevsync_ s; expected_offset_ := expected_offset_ s;
     received_offset_ := received_offset_ s; pi_ := pi_ s;
     is_in_sync_ := is_in_sync_ s; block_error_sum_ := block_error_sum_ s;
     options_ := options_ s; input_type_ := input_type_ s;
     is_eof_ := is_eof_ s; bler_average_ := bler_average_ s;
     current_group_ := current_group_ s; groups_ := groups_ s |}.

Definition set_prevbitcount_ (v : _) (s : BlockStream) : BlockStream :=
  {| bitcount_ := bitcount_ s; prevbitcount_ := v;
     left_to_read_ := left_to_read_ s; input_register_ := input_register_ s;
     prevsync_ := prevsync_ s; expected_offset_ := expected_offset_ s;
     received_offset_ := received_offset_ s; pi_ := pi_ s;
     is_in_sync_ := is_in_sync_ s; block_error_sum_ := block_error_sum_ s;
     options_ := options_ s; input_type_ := input_type_ s;
     is_eof_ := is_eof_ s; bler_average_ := bler_average_ s;
     current_group_ := current_group_ s; groups_ := groups_ s |}.

Definition set_left_to_read_ (v : _) (s : BlockStream) : BlockStream :=
  {| bitcount_ := bitcount_ s; prevbitcount_ := prevbitcount_ s;
     left_to_read_ := v; input_register_ := input_register_ s;
     prevsync_ := prevsync_ s; expected_offset_ := expected_offset_ s;
     received_offset_ := received_offset_ s; pi_ := pi_ s;
     is_in_sync_ := is_in_sync_ s; block_error_sum_ := block_error_sum_ s;
     options_ := options_ s; input_type_ := input_type_ s;
     is_eof_ := is_eof_ s; bler_average_ := bler_average_ s;
     current_group_ := current_group_ s; groups_ := groups_ s |}.

Definition set_input_register_ (v : _) (s : BlockStream) : BlockStream :=
  {| bitcount_ := bitcount_ s; prevbitcount_ := prevbitcount_ s;
     left_to_read_ := left_to_read_ s; input_register_ := v;
     prevsync_ := prevsync_ s; expected_offset_ := expected_offset_ s;
     received_offset_ := received_offset_ s; pi_ := pi_ s;
     is_in_sync_ := is_in_sync_ s; block_error_sum_ := block_error_sum_ s;
     options_ := options_ s; input_type_ := input_type_ s;
     is_eof_ := is_eof_ s; bler_average_ := bler_average_ s;
     current_group_ := current_group_ s; groups_ := groups_ s |}.

Definition set_prevsync_ (v : _) (s : BlockStream) : BlockStream :=
  {| bitcount_ := bitcount_ s; prevbitcount_ := prevbitcount_ s;
     left_to_read_ := left_to_read_ s; input_register_ := input_register_ s;
     prevsync_ := v; expected_offset_ := expected_offset_ s;
     received_offset_ := received_offset_ s; pi_ := pi_ s;
     is_in_sync_ := is_in_sync_ s; block_error_sum_ := block_error_sum_ s;
     options_ := options_ s; input_type_ := input_type_ s;
     is_eof_ := is_eof_ s; bler_average_ := bler_average_ s;
     current_group_ := current_group_ s; groups_ := groups_ s |}.

Definition set_expected_offset_ (v : _) (s : BlockStream) : BlockStream :=
  {| bitcount_ := bitcount_ s; prevbitcount_ := prevbitcount_ s;
     left_to_read_ := left_to_read_ s; input_register_ := input_register_ s;
     prevsync_ := prevsync_ s; expected_offset_ := v;
     received_offset_ := received_offset_ s; pi_ := pi_ s;
     is_in_sync_ := is_in_sync_ s; block_error_sum_ := block_error_sum_ s;
     options_ := options_ s; input_type_ := input_type_ s;
     is_eof_ := is_eof_ s; bler_average_ := bler_average_ s;
     current_group_ := current_group_ s; groups_ := groups_ s |}.

Definition set_received_offset_ (v : _) (s : BlockStream) : BlockStream :=
  {| bitcount_ := bitcount_ s; prevbitcount_ := prevbitcount_ s;
     left_to_read_ := left_to_read_ s; input_register_ := input_register_ s;
     prevsync_ := prevsync_ s; expected_offset_ := expected_offset_ s;
     received_offset_ := v; pi_ := pi_ s; is_in_sync_ := is_in_sync_ s;
     block_error_sum_ := block_error_sum_ s; options_ := options_ s;
     input_type_ := input_type_ s; is_eof_ := is_eof_ s;
     bler_average_ := bler_average_ s; current_group_ := current_group_ s;
     groups_ := groups_ s |}.

Definition set_pi_ (v : _) (s : BlockStream) : BlockStream :=
  {| bitcount_ := bitcount_ s; prevbitcount_ := prevbitcount_ s;
     left_to_read_ := left_to_read_ s; input_register_ := input_register_ s;
     prevsync_ := prevsync_ s; expected_offset_ := expected_offset_ s;
     received_offset_ := received_offset_ s; pi_ := v;
     is_in_sync_ := is_in_sync_ s; block_error_sum_ := block_error_sum_ s;
     options_ := options_ s; input_type_ := input_type_ s;
     is_eof_ := is_eof_ s; bler_average_ := bler_average_ s;
     current_group_ := current_group_ s; groups_ := groups_ s |}.

Definition set_is_in_sync_ (v : _) (s : BlockStream) : BlockStream :=
  {| bitcount_ := bitcount_ s; prevbitcount_ := prevbitcount_ s;
     left_to_read_ := left_to_read_ s; input_register_ := input_register_ s;
     prevsync_ := prevsync_ s; expected_offset_ := expected_offset_ s;
     received_offset_ := received_offset_ s; pi_ := pi_ s; is_in_sync_ := v;
     block_error_sum_ := block_error_sum_ s; options_ := options_ s;
     input_type_ := input_type_ s; is_eof_ := is_eof_ s;
     bler_average_ := bler_average_ s; current_group_ := current_group_ s;
     groups_ := groups_ s |}.

Definition set_block_error_sum_ (v : _) (s : BlockStream) : BlockStream :=
  {| bitcount_ := bitcount_ s; prevbitcount_ := prevbitcount_ s;
     left_to_read_ := left_to_read_ s; input_register_ := input_register_ s;
     prevsync_ := prevsync_ s; expected_offset_ := expected_offset_ s;
     received_offset_ := received_offset_ s; pi_ := pi_ s;
     is_in_sync_ := is_in_sync_ s; block_error_sum_ := v;
     options_ := options_ s; input_type_ := input_type_ s;
     is_eof_ := is_eof_ s; bler_average_ := bler_average_ s;
     current_group_ := current_group_ s; groups_ := groups_ s |}.

Definition set_current_group_ (v : _) (s : BlockStream) : BlockStream :=
  {| bitcount_ := bitcount_ s; prevbitcount_ := prevbitcount_ s;
     left_to_read_ := left_to_read_ s; input_register_ := input_register_ s;
     prevsync_ := prevsync_ s; expected_offset_ := expected_offset_ s;
     received_offset_ := received_offset_ s; pi_ := pi_ s;
     is_in_sync_ := is_in_sync_ s; block_error_sum_ := block_error_sum_ s;
     options_ := options_ s; input_type_ := input_type_ s;
     is_eof_ := is_eof_ s; bler_average_ := bler_average_ s;
     current_group_ := v; groups_ := groups_ s |}.

Definition set_groups_ (v : _) (s : BlockStream) : BlockStream :=
  {| bitcount_ := bitcount_ s; prevbitcount_ := prevbitcount_ s;
     left_to_read_ := left_to_read_ s; input_register_ := input_register_ s;
     prevsync_ := prevsync_ s; expected_offset_ := expected_offset_ s;
     received_offset_ := received_offset_ s; pi_ := pi_ s;
     is_in_sync_ := is_in_sync_ s; block_error_sum_ := block_error_sum_ s;
     options_ := options_ s; input_type_ := input_type_ s;
     is_eof_ := is_eof_ s; bler_average_ := bler_average_ s;
     current_group_ := current_group_ s; groups_ := v |}.

(** [BlockStream::BlockStream] *)
Definition BlockStream_new (options : Options) : BlockStream :=
  {| bitcount_ := 0; prevbitcount_ := 0; left_to_read_ := 1;
     input_register_ := 0; prevsync_ := A; expected_offset_ := A;
     received_offset_ := invalid; pi_ := 0x0000; is_in_sync_ := false;
     block_error_sum_ := RunningSum.new 50;
     options_ := options; input_type_ := input_type options;
     is_eof_ := false; bler_average_ := RunningSum.new 12;
     current_group_ := Group_new; groups_ := [] |}.

(** [BlockStream::Uncorrectable]; the [&&] calls [sum] only when the
    decoder is in sync. *)
Definition Uncorrectable (s : BlockStream) : option BlockStream :=
  if is_in_sync_ s then
    errors ← RunningSum.sum (block_error_sum_ s);
    if 45 <? errors then
      let s := set_is_in_sync_ false s in
      let s := set_block_error_sum_ (RunningSum.clear (block_error_sum_ s)) s in
      Some (set_pi_ 0x0000 s)
    else Some s
  else Some s.

(** The condition of the inner [if] of [AcquireSync], evaluated left to
    right with the short circuit of [&&]; [%] and [/] on [int] truncate
    towards zero. *)
Definition AcquireSync_cond (s : BlockStream) : option bool :=
  let dist := bitcount_ s - prevbitcount_ s in
  if negb (Z.rem dist 26 =? 0) then Some false
  else if negb (dist <=? 156) then Some false
  else
    n_prev ← BlockNumberForOffset (prevsync_ s);
    n_recv ← BlockNumberForOffset (received_offset_ s);
    Some (Z.rem (eBlockNumber_to_Z n_prev + Z.quot dist 26) 4
            =? eBlockNumber_to_Z n_recv).

(** [BlockStream::AcquireSync]: the new state and the returned flag. *)
Definition AcquireSync (s : BlockStream) : option (BlockStream * bool) :=
  if is_in_sync_ s then Some (s, true)
  else if decide (received_offset_ s <> invalid) then
    lock ← AcquireSync_cond s;
    let s :=
      if lock : bool then
        let s := set_is_in_sync_ true s in
        let s := set_expected_offset_ (received_offset_ s) s in
        set_current_group_ Group_new s
      else
        let s := set_prevbitcount_ (bitcount_ s) s in
        set_prevsync_ (received_offset_ s) s in
    Some (s, is_in_sync_ s)
  else Some (s, is_in_sync_ s).

(** The first statements of [PushBit]: shift the bit in and count it. *)
Definition PushBit_shift (s : BlockStream) (bit : bool) : BlockStream :=
  let s := set_input_register_
             (to_u32 (Z.shiftl (input_register_ s) 1 + Z.b2z bit)) s in
  let s := set_left_to_read_ (left_to_read_ s - 1) s in
  set_bitcount_ (bitcount_ s + 1) s.

(** [uint32_t block = (input_register_ >> 1) & kBitmask26] *)
Definition PushBit_block (s : BlockStream) : Z :=
  Z.land (Z.shiftr (input_register_ s) 1) kBitmask26.

(** The block is classified and the result stored in [received_offset_]. *)
Definition PushBit_classify (s : BlockStream) : BlockStream :=
  set_received_offset_
    (OffsetForSyndrome (to_u16 (CalculateSyndrome (PushBit_block s)))) s.

(** The correction attempt, taken when [block_had_errors]: the message and
    the state after it. *)
Definition PushBit_correct (s : BlockStream) (block message : Z)
    : option (Z * BlockStream) :=
  let corrected_block := CorrectBurstErrors block (expected_offset_ s) in
  let '(message, s) :=
    if decide (corrected_block <> block)
    then (to_u16 (Z.shiftr corrected_block 10),
          set_received_offset_ (expected_offset_ s) s)
    else (message, s) in
  s ← (if decide (received_offset_ s <> expected_offset_ s)
       then Uncorrectable s else Some s);
  Some (message, s).

(** The store of the message word into the current group. *)
Definition PushBit_store (s : BlockStream) (message : Z)
    (block_had_errors : bool) : option BlockStream :=
  if decide (received_offset_ s = expected_offset_ s) then
    g ← (if decide (expected_offset_ s = Cprime)
         then Some (Group_set_c_prime (current_group_ s) message
                      block_had_errors)
         else
           n ← BlockNumberForOffset (expected_offset_ s);
           Some (Group_set (current_group_ s) n message block_had_errors));
    let s := set_current_group_ g s in
    Some (if Group_has_pi (current_group_ s)
          then set_pi_ (Group_pi (current_group_ s)) s else s)
  else Some s.

(** The block is decoded against [expected_offset_]: everything between
    the call of [AcquireSync] and the advance of [expected_offset_]. *)
Definition PushBit_decode (s : BlockStream) (block : Z) : option BlockStream :=
  let s :=
    if decide (expected_offset_ s = C /\ received_offset_ s = Cprime)
    then set_expected_offset_ Cprime s else s in
  let block_had_errors :=
    bool_decide (received_offset_ s <> expected_offset_ s) in
  w ← RunningSum.push (block_error_sum_ s) (Z.b2z block_had_errors);
  let s := set_block_error_sum_ w s in
  let message := to_u16 (Z.shiftr block 10) in
  '(message, s) ←
    (if block_had_errors then PushBit_correct s block message
     else Some (message, s));
  PushBit_store s message block_had_errors.

(** The end of the synchronised branch: the offset advances, a complete
    group is queued, and the next unit is a whole block. *)
Definition PushBit_advance (s : BlockStream) : BlockStream :=
  let s := set_expected_offset_ (NextOffsetFor (expected_offset_ s)) s in
  let s :=
    if decide (expected_offset_ s = A) then
      let s := set_groups_ (groups_ s ++ [current_group_ s]) s in
      set_current_group_ Group_new s
    else s in
  set_left_to_read_ 26 s.

(** [BlockStream::PushBit] *)
Definition PushBit (s : BlockStream) (bit : bool) : option BlockStream :=
  let s := PushBit_shift s bit in
  if 0 <? left_to_read_ s then Some s
  else
    let block := PushBit_block s in
    let s := PushBit_classify s in
    '(s, synced) ← AcquireSync s;
    if synced : bool then
      s ← PushBit_decode s block;
      Some (PushBit_advance s)
    else Some (set_left_to_read_ 1 s).

(** [BlockStream::PopGroups]: the returned vector and the new state. *)
Definition PopGroups (s : BlockStream) : list Group * BlockStream :=
  let result := groups_ s in
  (result, set_groups_ [] s).

(** A sequence of calls of [PushBit], first bit first. *)
Fixpoint PushBits (s : BlockStream) (bits : list bool) : option BlockStream :=
  match bits with
  | [] => Some s
  | bit :: bits' => s' ← PushBit s bit; PushBits s' bits'
  end.

End BlockStream.

(** * The vocabulary of the statements *)

(** ** Blocks and bit streams *)

(** The low [n] bits of a value, most significant first. *)
Fixpoint bits_msb (n : nat) (v : Z) : list bool :=
  match n with
  | O => []
  | S n' => Z.testbit v (Z.of_nat n') :: bits_msb n' v
  end.

(** The 26 bits of a block, most significant first. *)
Definition block_bits (block : Z) : list bool := bits_msb 26 block.

(** The accumulator after one more bit. *)
Definition shift_register (r : Z) (bit : bool) : Z :=
  to_u32 (Z.shiftl r 1 + Z.b2z bit).

(** The candidate blocks a scanning decoder examines while bits are pushed,
    one per bit: the low 26 bits of the accumulator before each bit. *)
Fixpoint scan_windows (r : Z) (bits : list bool) : list Z :=
  match bits with
  | [] => []
  | bit :: bits' =>
      Z.land r kBitmask26 :: scan_windows (shift_register r bit) bits'
  end.

(** The zero-error syndrome of each offset, as listed in [offset_syndromes]. *)
Definition syndrome_of (o : Offset) : Z :=
  match o with
  | A => 0x3D8 | B => 0x3D4 | C => 0x25C | Cprime => 0x3CC | D => 0x258
  | invalid => 0
  end.

(** The inverse of the parity matrix restricted to the ten check positions:
    it maps the syndrome of a bare message word back to the check bits that
    complete the word to a code word. *)
Definition check_bits_matrix : list Z :=
  [119; 743; 943; 779; 857; 880; 440; 220; 110; 55].

(** The check bits of a message word. *)
Definition check_bits (m : Z) : Z :=
  MatrixMultiply (CalculateSyndrome (Z.shiftl m 10)) check_bits_matrix.

(** An error-free block: the message word, its check bits, and the offset
    word added. *)
Definition encode_block (m : Z) (offset_word : Z) : Z :=
  Z.lxor (Z.lxor (Z.shiftl m 10) (check_bits m)) offset_word.

(** ** Error vectors and table keys *)

(** An error vector with one bit set within the 26 bits of a block. *)
Definition single_bit_error (e : Z) : Prop :=
  exists i : nat, (i < 26)%nat /\ e = Z.shiftl 1 (Z.of_nat i).

(** An error vector with two adjacent bits set within the 26 bits. *)
Definition adjacent_pair_error (e : Z) : Prop :=
  exists i : nat, (i < 25)%nat /\ e = Z.shiftl 3 (Z.of_nat i).

(** An error burst that spans at most [len] bits within the 26 bits of a
    block: a pattern of [len] bits, not all zero, shifted to its place. *)
Definition burst_error (len : Z) (e : Z) : Prop :=
  exists (p : Z) (i : nat),
    0 < p < 2 ^ len /\ e = Z.shiftl p (Z.of_nat i) /\ e < 2 ^ 26.

(** An error vector with two bits set anywhere within the 26 bits. *)
Definition double_error (e : Z) : Prop :=
  exists i j : nat,
    (i < j < 26)%nat /\
    e = Z.lor (Z.shiftl 1 (Z.of_nat i)) (Z.shiftl 1 (Z.of_nat j)).

Definition burst_errors : list Z :=
  map (fun i => Z.shiftl 1 (Z.of_nat i)) (seq 0 26) ++
  map (fun i => Z.shiftl 3 (Z.of_nat i)) (seq 0 25).

(** The (error class, shift) combinations in the order in which the two
    inner loops of [MakeErrorLookupTable] construct them. *)
Definition combinations : list (Z * nat) :=
  flat_map (fun error_bits => map (fun shift => (error_bits, shift)) (seq 0 26))
           [0x1; 0x3].

(** The key under which a combination is inserted for an offset. *)
Definition MakeErrorLookupTable_key (offset : Offset * Z) (c : Z * nat)
    : Z * Offset :=
  (to_u16 (CalculateSyndrome (Z.lxor (error_vector_of c.1 c.2) offset.2)),
   offset.1).

(** The insertion the loop body performs for a combination. *)
Definition MakeErrorLookupTable_insert (offset : Offset * Z)
    (lookup_table : gmap (Z * Offset) Z) (c : Z * nat) : gmap (Z * Offset) Z :=
  map_insert (MakeErrorLookupTable_key offset c) (error_vector_of c.1 c.2)
             lookup_table.


(** ** Windows *)

(** The sum of a list of integers. *)
Definition Zsum (l : list Z) : Z := foldr Z.add 0 l.

(** The cursor is inside the buffer. *)
Definition RunningSum_wf (r : RunningSum.t) : Prop :=
  (RunningSum.pointer_ r < length (RunningSum.history_ r))%nat.

(** Every slot holds a flag, 0 or 1. *)
Definition RunningSum_flags (r : RunningSum.t) : Prop :=
  Forall (fun x => x = 0 \/ x = 1) (RunningSum.history_ r).

(** The slots in the order in which they will be overwritten: the oldest
    value first, the value pushed last at the end. *)
Definition RunningSum_window (r : RunningSum.t) : list Z :=
  drop (RunningSum.pointer_ r) (RunningSum.history_ r) ++
  take (RunningSum.pointer_ r) (RunningSum.history_ r).

(** A sequence of calls of [push], first value first. *)
Fixpoint RunningSum_push_all (r : RunningSum.t) (vs : list Z)
    : option RunningSum.t :=
  match vs with
  | [] => Some r
  | v :: vs' => r' ← RunningSum.push r v; RunningSum_push_all r' vs'
  end.

(** ** Decoder states *)

Section BlockStreamStates.
Context `{X : Collaborators}.

(** States the decoder can be in: those a freshly constructed decoder
    reaches through calls of its two public methods. *)
Inductive reachable : BlockStream -> Prop :=
| reachable_new (options : Options) : reachable (BlockStream_new options)
| reachable_PushBit (s s' : BlockStream) (bit : bool) :
    reachable s -> PushBit s bit = Some s' -> reachable s'
| reachable_PopGroups (s : BlockStream) :
    reachable s -> reachable (PopGroups s).2.

(** What every reachable state satisfies. *)
Record BlockStream_inv (s : BlockStream) : Prop := {
  inv_expected : expected_offset_ s <> invalid;
  inv_prevsync : prevsync_ s <> invalid;
  inv_window : RunningSum_wf (block_error_sum_ s);
  inv_bitcount : prevbitcount_ s <= bitcount_ s;
  inv_length : length (RunningSum.history_ (block_error_sum_ s)) = 50%nat;
  inv_flags : RunningSum_flags (block_error_sum_ s)
}.

(** The members no step of the decoding of a block touches, together with
    the shape of the error window. *)
Record decode_frame (s s' : BlockStream) : Prop := {
  frame_bitcount : bitcount_ s' = bitcount_ s;
  frame_prevbitcount : prevbitcount_ s' = prevbitcount_ s;
  frame_left_to_read : left_to_read_ s' = left_to_read_ s;
  frame_input_register : input_register_ s' = input_register_ s;
  frame_prevsync : prevsync_ s' = prevsync_ s;
  frame_expected : expected_offset_ s' = expected_offset_ s;
  frame_groups : groups_ s' = groups_ s;
  frame_options : options_ s' = options_ s;
  frame_input_type : input_type_ s' = input_type_ s;
  frame_is_eof : is_eof_ s' = is_eof_ s;
  frame_bler : bler_average_ s' = bler_average_ s;
  frame_wf : RunningSum_wf (block_error_sum_ s) ->
             RunningSum_wf (block_error_sum_ s');
  frame_length : length (RunningSum.history_ (block_error_sum_ s')) =
                 length (RunningSum.history_ (block_error_sum_ s));
  frame_flags : RunningSum_flags (block_error_sum_ s) ->
                RunningSum_flags (block_error_sum_ s')
}.

(** The offset a block is decoded against: [expected_offset_], or [Cprime]
    when [C] was expected and [Cprime] received. *)
Definition decode_offset (s : BlockStream) : Offset :=
  if decide (expected_offset_ s = C /\ received_offset_ s = Cprime)
  then Cprime else expected_offset_ s.

(** The state in which the block is decoded, after the adoption of
    [Cprime]. *)
Definition decode_start (s : BlockStream) : BlockStream :=
  if decide (expected_offset_ s = C /\ received_offset_ s = Cprime)
  then set_expected_offset_ Cprime s else s.

(** A block that does not classify as the offset it is decoded against and
    that the error table leaves unchanged. *)
Definition uncorrectable (s : BlockStream) (block : Z) : Prop :=
  received_offset_ s <> decode_offset s /\
  CorrectBurstErrors block (decode_offset s) = block.

(** The group after the store of a word for an offset: the slot of
    [Cprime], or the slot of the offset's block number. *)
Definition Group_store (g : Group) (o : Offset) (message : Z)
    (had_errors : bool) : option Group :=
  if decide (o = Cprime)
  then Some (Group_set_c_prime g message had_errors)
  else n ← BlockNumberForOffset o; Some (Group_set g n message had_errors).

End BlockStreamStates.

(** * A concrete collaborator and concrete runs *)

(** Modelled from the spec: a [Group] as the spec describes it, "up to 4
    message words, tagged by block number (with Cprime as an alternate tag
    for position 3) and an error flag per word"; the PI code is the "16-bit
    value carried in block A of every group". *)
Record SpecGroup : Type := {
  block1 : option (Z * bool);
  block2 : option (Z * bool);
  block3 : option (Z * bool);
  block4 : option (Z * bool);
  has_c_prime : bool
}.

Definition SpecGroup_new : SpecGroup :=
  {| block1 := None; block2 := None; block3 := None; block4 := None;
     has_c_prime := false |}.

Definition SpecGroup_set (g : SpecGroup) (n : eBlockNumber) (data : Z)
    (had_errors : bool) : SpecGroup :=
  match n with
  | BLOCK1 => {| block1 := Some (data, had_errors); block2 := block2 g;
                 block3 := block3 g; block4 := block4 g;
                 has_c_prime := has_c_prime g |}
  | BLOCK2 => {| block1 := block1 g; block2 := Some (data, had_errors);
                 block3 := block3 g; block4 := block4 g;
                 has_c_prime := has_c_prime g |}
  | BLOCK3 => {| block1 := block1 g; block2 := block2 g;
                 block3 := Some (data, had_errors); block4 := block4 g;
                 has_c_prime := has_c_prime g |}
  | BLOCK4 => {| block1 := block1 g; block2 := block2 g;
                 block3 := block3 g; block4 := Some (data, had_errors);
                 has_c_prime := has_c_prime g |}
  end.

Definition SpecGroup_set_c_prime (g : SpecGroup) (data : Z)
    (had_errors : bool) : SpecGroup :=
  {| block1 := block1 g; block2 := block2 g;
     block3 := Some (data, had_errors); block4 := block4 g;
     has_c_prime := true |}.

Definition SpecGroup_has_pi (g : SpecGroup) : bool :=
  match block1 g with Some _ => true | None => false end.

Definition SpecGroup_pi (g : SpecGroup) : Z :=
  match block1 g with Some (data, _) => data | None => 0 end.

(** Modelled from the spec: the integer values of the block numbers, taken
    as C++ numbers the enumerators of an enumeration without initialisers,
    from 0 on, so that "modulo 4" ranges over the four positions. *)
Definition SpecBlockNumber (n : eBlockNumber) : Z :=
  match n with BLOCK1 => 0 | BLOCK2 => 1 | BLOCK3 => 2 | BLOCK4 => 3 end.

#[global] Instance SpecCollaborators : Collaborators := {|
  eBlockNumber_to_Z := SpecBlockNumber;
  Group := SpecGroup;
  Group_new := SpecGroup_new;
  Group_set := SpecGroup_set;
  Group_set_c_prime := SpecGroup_set_c_prime;
  Group_has_pi := SpecGroup_has_pi;
  Group_pi := SpecGroup_pi;
  Options := unit;
  eInputType := unit;
  input_type := fun _ => tt
|}.

(** The groups a run makes [PopGroups] return. *)
Definition decode_run (s : @BlockStream SpecCollaborators) (bits : list bool)
    : option (list SpecGroup) :=
  s' ← PushBits s bits; Some (PopGroups s').1.

(** One error-free group (all message words 0) and the first bit of the
    next, pushed into a new decoder, and the queue drained: the decoder has
    locked on the second block and is at the boundary before block A. *)
Definition locked_state : @BlockStream SpecCollaborators :=
  default (BlockStream_new tt)
    (s ← PushBits (BlockStream_new tt)
           (block_bits 0x0FC ++ block_bits 0x198 ++ block_bits 0x168 ++
            block_bits 0x1B4 ++ [false]);
     Some (PopGroups s).2).

(** A new decoder that has seen the 26 bits of block A of message 0. *)
Definition scanning_state : @BlockStream SpecCollaborators :=
  default (BlockStream_new tt)
    (PushBits (BlockStream_new tt) (block_bits 0x0FC)).

(** [k] blocks of zeros: none classifies, none can be corrected. *)
Definition garbage (k : nat) : list bool := concat (replicate k (block_bits 0)).

(** A decoder that locked on blocks A and B and was then fed 46 blocks of
    garbage: it has decoded 45 of them and lacks one bit to complete the
    46th. *)
Definition failing_state : @BlockStream SpecCollaborators :=
  default (BlockStream_new tt)
    (PushBits (BlockStream_new tt)
       (block_bits 0x0FC ++ block_bits 0x198 ++ garbage 46)).

(** The decoder once the 46th block of garbage is complete. *)
Definition lost_state : @BlockStream SpecCollaborators :=
  default (BlockStream_new tt) (PushBit failing_state false).


(** Four offset words per group, from block C on. *)
Definition offset_cycle (k : nat) : list Z :=
  take k (concat (replicate k [0x168; 0x1B4; 0x0FC; 0x198])).

(** Blocks A and B of message 0, then 50 blocks of message 0 that each have
    their lowest bit flipped, then one more bit. *)
Definition noisy_stream : list bool :=
  block_bits 0x0FC ++ block_bits 0x198 ++
  concat (map (fun w => block_bits (Z.lxor w 1)) (offset_cycle 50)) ++ [false].

(** A decoder one bit before the end of its first complete cycle, and the
    same decoder once that bit has come. *)
Definition boundary_state : @BlockStream SpecCollaborators :=
  default (BlockStream_new tt)
    (PushBits (BlockStream_new tt)
       (block_bits 0x0FC ++ block_bits 0x198 ++ block_bits 0x168 ++
        block_bits 0x1B4)).

Definition queued_state : @BlockStream SpecCollaborators :=
  default (BlockStream_new tt) (PushBit boundary_state false).

(** The scanning decoder one bit after block A: block A is its anchor. *)
Definition anchored_state : @BlockStream SpecCollaborators :=
  default (BlockStream_new tt) (PushBit scanning_state false).

(** A decoder that has seen blocks A and B of message 0 and lacks one bit
    to lock, and the same decoder once that bit has come. *)
Definition prelock_state : @BlockStream SpecCollaborators :=
  default (BlockStream_new tt)
    (PushBits (BlockStream_new tt) (block_bits 0x0FC ++ block_bits 0x198)).

Definition lock_state : @BlockStream SpecCollaborators :=
  default (BlockStream_new tt) (PushBit prelock_state false).

(** A decoder that locked on blocks A and B of message 0 and lacks one bit
    to complete block C, which came with its lowest bit flipped. *)
Definition flipped_state : @BlockStream SpecCollaborators :=
  default (BlockStream_new tt)
    (PushBits (BlockStream_new tt)
       (block_bits 0x0FC ++ block_bits 0x198 ++ block_bits (Z.lxor 0x168 1))).

(** The bits of one error-free group of message words 0, from its second
    bit on, and the first bit of the next group. *)
Definition next_group : list bool :=
  tail (block_bits 0x0FC ++ block_bits 0x198 ++ block_bits 0x168 ++
        block_bits 0x1B4) ++ [false].

(** * Properties *)

(** ** The syndrome is linear over GF(2) *)

Lemma lxor_swap_cancel (r1 r2 v : Z) :
  Z.lxor r1 r2 = Z.lxor (Z.lxor r1 v) (Z.lxor r2 v).
Proof.
  apply Z.bits_inj'; intros n _. rewrite !Z.lxor_spec.
  by destruct (Z.testbit r1 n), (Z.testbit r2 n), (Z.testbit v n).
Qed.

Lemma lxor_cancel_r (b e : Z) : Z.lxor (Z.lxor b e) e = b.
Proof. by rewrite Z.lxor_assoc, Z.lxor_nilpotent, Z.lxor_0_r. Qed.

Lemma MatrixMultiply_step_testbit (vec : Z) (matrix : list Z) (result : Z) (k : nat) :
  MatrixMultiply_step vec matrix result k =
  if Z.testbit vec (Z.of_nat k)
  then Z.lxor result (nth (length matrix - 1 - k) matrix 0)
  else result.
Proof.
  unfold MatrixMultiply_step.
  change 0x01 with (Z.ones 1). rewrite Z.land_ones by lia.
  change (2 ^ 1) with 2. rewrite <- Z.bit0_mod.
  rewrite Z.shiftr_spec by lia. rewrite Z.add_0_l.
  by destruct (Z.testbit vec (Z.of_nat k)).
Qed.

Lemma MatrixMultiply_fold_lxor (x y : Z) (matrix : list Z) (ks : list nat) :
  forall r1 r2 : Z,
    fold_left (MatrixMultiply_step (Z.lxor x y) matrix) ks (Z.lxor r1 r2) =
    Z.lxor (fold_left (MatrixMultiply_step x matrix) ks r1)
           (fold_left (MatrixMultiply_step y matrix) ks r2).
Proof.
  induction ks as [|k ks IH]; intros r1 r2; [done|].
  cbn [fold_left]. rewrite !MatrixMultiply_step_testbit, Z.lxor_spec.
  set (v := nth (length matrix - 1 - k) matrix 0).
  destruct (Z.testbit x (Z.of_nat k)), (Z.testbit y (Z.of_nat k)); cbn [xorb].
  - rewrite (lxor_swap_cancel r1 r2 v). apply IH.
  - rewrite <- IH. f_equal.
    by rewrite !Z.lxor_assoc, (Z.lxor_comm r2 v).
  - rewrite <- IH. f_equal. by rewrite Z.lxor_assoc.
  - apply IH.
Qed.

Lemma MatrixMultiply_lxor (x y : Z) (matrix : list Z) :
  MatrixMultiply (Z.lxor x y) matrix =
  Z.lxor (MatrixMultiply x matrix) (MatrixMultiply y matrix).
Proof.
  unfold MatrixMultiply. rewrite <- MatrixMultiply_fold_lxor.
  by rewrite Z.lxor_0_l.
Qed.

Lemma CalculateSyndrome_lxor (x y : Z) :
  CalculateSyndrome (Z.lxor x y) =
  Z.lxor (CalculateSyndrome x) (CalculateSyndrome y).
Proof. apply MatrixMultiply_lxor. Qed.

(** ** The syndrome has 10 bits *)

Lemma lxor_below_pow2 (n a b : Z) :
  0 <= n -> 0 <= a < 2 ^ n -> 0 <= b < 2 ^ n -> 0 <= Z.lxor a b < 2 ^ n.
Proof.
  intros Hn Ha Hb.
  assert (Hdistr : Z.land (Z.lxor a b) (Z.ones n) =
                   Z.lxor (Z.land a (Z.ones n)) (Z.land b (Z.ones n))).
  { apply Z.bits_inj'; intros i _.
    rewrite !Z.land_spec, !Z.lxor_spec, !Z.land_spec.
    by destruct (Z.testbit a i), (Z.testbit b i), (Z.testbit (Z.ones n) i). }
  rewrite !Z.land_ones, (Z.mod_small a), (Z.mod_small b) in Hdistr by done.
  rewrite <- Hdistr. apply Z.mod_pos_bound. lia.
Qed.

Lemma parity_check_matrix_rows (k : nat) :
  0 <= nth k parity_check_matrix 0 < 2 ^ 10.
Proof.
  unfold parity_check_matrix.
  do 26 (destruct k as [|k]; [cbn; lia|]). destruct k; cbn; lia.
Qed.

Lemma MatrixMultiply_range (vec : Z) (matrix : list Z) :
  (forall k : nat, 0 <= nth k matrix 0 < 2 ^ 10) ->
  0 <= MatrixMultiply vec matrix < 2 ^ 10.
Proof.
  intros Hrows. unfold MatrixMultiply.
  generalize (seq 0 (length matrix)); intros ks.
  cut (forall r, 0 <= r < 2 ^ 10 ->
         0 <= fold_left (MatrixMultiply_step vec matrix) ks r < 2 ^ 10).
  { intros Hcut. apply Hcut. lia. }
  induction ks as [|k ks IH]; intros r Hr; [exact Hr|].
  cbn [fold_left]. apply IH. rewrite MatrixMultiply_step_testbit.
  destruct (Z.testbit vec (Z.of_nat k)); [|exact Hr].
  apply lxor_below_pow2; [lia|exact Hr|apply Hrows].
Qed.

Lemma CalculateSyndrome_range (vec : Z) : 0 <= CalculateSyndrome vec < 2 ^ 10.
Proof. apply MatrixMultiply_range, parity_check_matrix_rows. Qed.

Lemma to_u16_CalculateSyndrome (vec : Z) :
  to_u16 (CalculateSyndrome vec) = CalculateSyndrome vec.
Proof.
  unfold to_u16. apply Z.mod_small.
  pose proof (CalculateSyndrome_range vec). lia.
Qed.

(** ** The matrix product, row by row *)

Lemma MatrixMultiply_fold_skip (vec : Z) (matrix : list Z) (ks : list nat) :
  (forall k : nat, In k ks -> Z.testbit vec (Z.of_nat k) = false) ->
  forall r : Z, fold_left (MatrixMultiply_step vec matrix) ks r = r.
Proof.
  induction ks as [|k ks IH]; intros Hks r; [reflexivity|].
  cbn [fold_left]. rewrite MatrixMultiply_step_testbit.
  rewrite (Hks k) by (left; reflexivity).
  apply IH. intros k' Hk'. apply Hks. right. exact Hk'.
Qed.

Lemma MatrixMultiply_fold_ext (x y : Z) (matrix : list Z) (ks : list nat) :
  (forall k : nat, In k ks -> Z.testbit x (Z.of_nat k) = Z.testbit y (Z.of_nat k)) ->
  forall r : Z,
    fold_left (MatrixMultiply_step x matrix) ks r =
    fold_left (MatrixMultiply_step y matrix) ks r.
Proof.
  induction ks as [|k ks IH]; intros Hks r; [reflexivity|].
  cbn [fold_left]. rewrite !MatrixMultiply_step_testbit.
  rewrite (Hks k) by (left; reflexivity).
  apply IH. intros k' Hk'. apply Hks. right. exact Hk'.
Qed.

Lemma testbit_unit (k j : nat) :
  Z.testbit (Z.shiftl 1 (Z.of_nat k)) (Z.of_nat j) = bool_decide (j = k).
Proof.
  rewrite Z.shiftl_1_l. case_bool_decide as H.
  - subst. apply Z.pow2_bits_true. lia.
  - apply Z.pow2_bits_false. lia.
Qed.

(** X1. [MatrixMultiply] is the product of a bit vector with a matrix over
    GF(2), for every matrix of at most 32 rows (the width of the vector):
    the zero vector gives 0, the XOR of two vectors gives the XOR of their
    products, and the vector with only bit [k] set gives the row at index
    [size - 1 - k], so that the lowest bit of the vector selects the last
    row. *)
Theorem MatrixMultiply_linear (matrix : list Z) (x y : Z) (k : nat) :
  (length matrix <= 32)%nat ->
  MatrixMultiply 0 matrix = 0 /\
  MatrixMultiply (Z.lxor x y) matrix =
    Z.lxor (MatrixMultiply x matrix) (MatrixMultiply y matrix) /\
  ((k < length matrix)%nat ->
   MatrixMultiply (Z.shiftl 1 (Z.of_nat k)) matrix =
     nth (length matrix - 1 - k) matrix 0).
Proof.
  intros _. split; [|split].
  - unfold MatrixMultiply. apply MatrixMultiply_fold_skip.
    intros j _. apply Z.bits_0.
  - apply MatrixMultiply_lxor.
  - intros Hk. unfold MatrixMultiply.
    replace (length matrix) with (k + (1 + (length matrix - 1 - k)))%nat at 1
      by lia.
    rewrite !seq_app, !fold_left_app. cbn [seq fold_left].
    rewrite (MatrixMultiply_fold_skip _ _ (seq 0 k)).
    2:{ intros j Hj%in_seq. rewrite testbit_unit.
        apply bool_decide_eq_false_2. lia. }
    rewrite MatrixMultiply_fold_skip.
    2:{ intros j Hj%in_seq. rewrite testbit_unit.
        apply bool_decide_eq_false_2. lia. }
    rewrite MatrixMultiply_step_testbit, Nat.add_0_l, testbit_unit.
    rewrite bool_decide_eq_true_2 by reflexivity.
    apply Z.lxor_0_l.
Qed.

(** The parity matrix: bit 0 of a block selects its last row, 0x31b. *)
Lemma MatrixMultiply_linear_witness :
  (length parity_check_matrix <= 32)%nat /\
  (0 < length parity_check_matrix)%nat /\
  MatrixMultiply (Z.lxor 0x48D096 0x168) parity_check_matrix =
    Z.lxor (MatrixMultiply 0x48D096 parity_check_matrix)
           (MatrixMultiply 0x168 parity_check_matrix) /\
  MatrixMultiply (Z.shiftl 1 (Z.of_nat 0)) parity_check_matrix = 0x31b.
Proof.
  assert (Hlen : (length parity_check_matrix <= 32)%nat) by (cbn; lia).
  assert (Hk : (0 < length parity_check_matrix)%nat) by (cbn; lia).
  destruct (MatrixMultiply_linear parity_check_matrix 0x48D096 0x168 0 Hlen)
    as (_ & Hxor & Hrow).
  split; [exact Hlen|]. split; [exact Hk|]. split; [exact Hxor|].
  exact (Hrow Hk).
Defined.

(** X2. The syndrome has 10 bits, so that its conversion to [uint16_t] in
    [CorrectBurstErrors] and [OffsetForSyndrome] loses nothing, and it
    depends on the low 26 bits of its argument only. *)
Theorem CalculateSyndrome_bits (vec : Z) :
  0 <= CalculateSyndrome vec < 2 ^ 10 /\
  to_u16 (CalculateSyndrome vec) = CalculateSyndrome vec /\
  CalculateSyndrome (Z.land vec kBitmask26) = CalculateSyndrome vec.
Proof.
  split; [apply CalculateSyndrome_range|].
  split; [apply to_u16_CalculateSyndrome|].
  unfold CalculateSyndrome, MatrixMultiply.
  apply MatrixMultiply_fold_ext. intros k Hk%in_seq.
  change (length parity_check_matrix) with 26%nat in Hk.
  change kBitmask26 with (Z.ones 26).
  rewrite Z.land_spec, Z.ones_spec_low by lia.
  apply andb_true_r.
Qed.

(** ** Classification of error-free blocks *)

Lemma OffsetForSyndrome_valid (syndrome : Z) (o : Offset) :
  o <> invalid -> OffsetForSyndrome syndrome = o -> syndrome = syndrome_of o.
Proof.
  unfold OffsetForSyndrome, offset_syndromes, assoc_find.
  intros Ho.
  repeat match goal with
         | |- context [Z.eqb syndrome ?k] =>
             destruct (Z.eqb_spec syndrome k) as [->|_]; [by intros <-|]
         end.
  congruence.
Qed.

Lemma OffsetForSyndrome_syndrome_of (o : Offset) :
  OffsetForSyndrome (syndrome_of o) = o.
Proof. by destruct o. Qed.

Lemma offset_words_syndrome (o : Offset) (w : Z) :
  In (o, w) offset_words -> CalculateSyndrome w = syndrome_of o.
Proof.
  unfold offset_words. cbn [In].
  intros H. repeat (destruct H as [[= <- <-]|H]; [by vm_compute|]). done.
Qed.

(** C7. A block built without bit errors for an offset, that is a code word
    (a word of syndrome 0) to which the offset word of that offset is added,
    is classified by [OffsetForSyndrome (CalculateSyndrome block)] as that
    offset, for each of the five offsets; a syndrome is classified as a valid
    offset exactly when it is that offset's constant among 0x3D8 (A), 0x3D4
    (B), 0x25C (C), 0x3CC (Cprime) and 0x258 (D), and as [invalid] when it
    is none of the five. *)
Theorem OffsetForSyndrome_zero_errors :
  (forall (o : Offset) (w cw : Z),
      In (o, w) offset_words ->
      CalculateSyndrome cw = 0 ->
      OffsetForSyndrome (to_u16 (CalculateSyndrome (Z.lxor cw w))) = o) /\
  (forall (syndrome : Z) (o : Offset),
      o <> invalid ->
      OffsetForSyndrome syndrome = o <->
      In (syndrome, o)
         [(0x3D8, A); (0x3D4, B); (0x25C, C); (0x3CC, Cprime); (0x258, D)]) /\
  (forall syndrome : Z,
      ~ In syndrome [0x3D8; 0x3D4; 0x25C; 0x3CC; 0x258] ->
      OffsetForSyndrome syndrome = invalid).
Proof.
  split; [|split].
  - intros o w cw Hw Hcw.
    rewrite to_u16_CalculateSyndrome, CalculateSyndrome_lxor, Hcw.
    rewrite Z.lxor_0_l, (offset_words_syndrome o w Hw).
    apply OffsetForSyndrome_syndrome_of.
  - intros syndrome o Ho. split.
    + intros H. rewrite (OffsetForSyndrome_valid syndrome o Ho H).
      destruct o; cbn; tauto.
    + cbn [In]. intros H.
      repeat (destruct H as [[= <- <-]|H]; [reflexivity|]). done.
  - intros syndrome Hnot.
    unfold OffsetForSyndrome, offset_syndromes, assoc_find.
    repeat match goal with
           | |- context [Z.eqb syndrome ?k] =>
               destruct (Z.eqb_spec syndrome k) as [->|_];
               [exfalso; apply Hnot; cbn; tauto|]
           end.
    done.
Qed.

(** The code word of message 0x1234 (check bits 0x096) at offset C. *)
Lemma OffsetForSyndrome_zero_errors_witness :
  In (C, 0x168) offset_words /\
  CalculateSyndrome 0x48D096 = 0 /\
  OffsetForSyndrome (to_u16 (CalculateSyndrome (Z.lxor 0x48D096 0x168))) = C.
Proof.
  assert (Hw : In (C, 0x168) offset_words) by (cbn; tauto).
  assert (Hcw : CalculateSyndrome 0x48D096 = 0) by (vm_compute; reflexivity).
  split; [exact Hw|]. split; [exact Hcw|].
  exact (proj1 OffsetForSyndrome_zero_errors C 0x168 0x48D096 Hw Hcw).
Defined.

Lemma check_bits_matrix_inverse :
  forallb (fun t =>
             CalculateSyndrome (MatrixMultiply t check_bits_matrix) =? t)
          (map Z.of_nat (seq 0 1024)) = true.
Proof. vm_compute. reflexivity. Qed.

(** Every message word has check bits that complete it to a code word, so
    error-free blocks exist for every message and every offset. *)
Lemma code_word_exists (m : Z) :
  CalculateSyndrome (Z.lxor (Z.shiftl m 10) (check_bits m)) = 0.
Proof.
  unfold check_bits.
  pose proof (CalculateSyndrome_range (Z.shiftl m 10)) as Hr.
  rewrite CalculateSyndrome_lxor.
  generalize dependent (CalculateSyndrome (Z.shiftl m 10)); intros t Hr.
  pose proof check_bits_matrix_inverse as Hall.
  rewrite forallb_forall in Hall.
  assert (Ht : In t (map Z.of_nat (seq 0 1024))).
  { apply in_map_iff. exists (Z.to_nat t). split; [lia|].
    apply in_seq. lia. }
  specialize (Hall t Ht). apply Z.eqb_eq in Hall.
  rewrite Hall. apply Z.lxor_nilpotent.
Qed.

Lemma check_bits_range (m : Z) : 0 <= check_bits m < 2 ^ 10.
Proof.
  apply MatrixMultiply_range. intros k. unfold check_bits_matrix.
  do 10 (destruct k as [|k]; [cbn; lia|]). destruct k; cbn; lia.
Qed.

Lemma offset_words_range (o : Offset) (w : Z) :
  In (o, w) offset_words -> 0 <= w < 2 ^ 10.
Proof.
  unfold offset_words. cbn [In].
  intros H. repeat (destruct H as [[= <- <-]|H]; [lia|]). done.
Qed.

(** For every message word and every offset there is an error-free block:
    it has 26 bits, is classified as its offset and carries the message in
    its upper 16 bits. *)
Lemma encode_block_good (m : Z) (o : Offset) (w : Z) :
  0 <= m < 2 ^ 16 ->
  In (o, w) offset_words ->
  0 <= encode_block m w < 2 ^ 26 /\
  OffsetForSyndrome (to_u16 (CalculateSyndrome (encode_block m w))) = o /\
  Z.shiftr (encode_block m w) 10 = m.
Proof.
  intros Hm Hw. unfold encode_block.
  pose proof (check_bits_range m) as Hc.
  pose proof (offset_words_range o w Hw) as Hwr.
  assert (Hs : 0 <= Z.shiftl m 10 < 2 ^ 26).
  { rewrite Z.shiftl_mul_pow2 by lia. lia. }
  split; [|split].
  - apply lxor_below_pow2; [lia| |lia].
    apply lxor_below_pow2; lia.
  - rewrite to_u16_CalculateSyndrome, CalculateSyndrome_lxor.
    rewrite code_word_exists, Z.lxor_0_l, (offset_words_syndrome o w Hw).
    apply OffsetForSyndrome_syndrome_of.
  - rewrite !Z.shiftr_lxor, Z.shiftr_shiftl_l by lia.
    rewrite Z.sub_diag, Z.shiftl_0_r.
    rewrite (Z.shiftr_div_pow2 (check_bits m)), (Z.shiftr_div_pow2 w) by lia.
    rewrite !Z.div_small by lia.
    by rewrite !Z.lxor_0_r.
Qed.

(** ** Burst-error correction *)

Lemma burst_errors_spec (e : Z) :
  single_bit_error e \/ adjacent_pair_error e -> In e burst_errors.
Proof.
  unfold burst_errors. rewrite in_app_iff, !in_map_iff.
  intros [(i & Hi & ->)|(i & Hi & ->)]; [left|right];
    (exists i; split; [done|apply in_seq; lia]).
Qed.

(** Every burst error added to an error-free block of a valid offset leads
    to the table entry that holds that very error vector. *)
Lemma kErrorLookup_burst_errors :
  forallb (fun o =>
    forallb (fun e =>
      bool_decide
        (kErrorLookup !!
           (to_u16 (Z.lxor (syndrome_of o) (CalculateSyndrome e)), o)
         = Some e))
      burst_errors)
    [A; B; C; Cprime; D] = true.
Proof. vm_compute. reflexivity. Qed.

(** C3. For each of the five valid offsets, every block [b] that is good at
    that offset (its own syndrome is classified as the offset) and every
    error vector [e] made of one set bit, or of two adjacent set bits, within
    the 26 bits: [CorrectBurstErrors (b XOR e) offset] returns [b]. *)
Theorem CorrectBurstErrors_round_trip (o : Offset) (b e : Z) :
  o <> invalid ->
  OffsetForSyndrome (to_u16 (CalculateSyndrome b)) = o ->
  single_bit_error e \/ adjacent_pair_error e ->
  CorrectBurstErrors (Z.lxor b e) o = b.
Proof.
  intros Ho Hb He.
  apply burst_errors_spec in He.
  rewrite to_u16_CalculateSyndrome in Hb.
  apply (OffsetForSyndrome_valid _ _ Ho) in Hb.
  pose proof kErrorLookup_burst_errors as Htab.
  rewrite forallb_forall in Htab.
  assert (Hin : In o [A; B; C; Cprime; D]) by (destruct o; cbn; tauto).
  specialize (Htab o Hin). rewrite forallb_forall in Htab.
  specialize (Htab e He). apply bool_decide_eq_true in Htab.
  unfold CorrectBurstErrors.
  rewrite CalculateSyndrome_lxor, Hb, Htab.
  apply lxor_cancel_r.
Qed.

(** Block C of message 0x1234 with its two lowest message bits hit. *)
Lemma CorrectBurstErrors_round_trip_witness :
  C <> invalid /\
  OffsetForSyndrome (to_u16 (CalculateSyndrome 0x48D1FE)) = C /\
  (single_bit_error 0xC00 \/ adjacent_pair_error 0xC00) /\
  CorrectBurstErrors (Z.lxor 0x48D1FE 0xC00) C = 0x48D1FE.
Proof.
  assert (Ho : C <> invalid) by discriminate.
  assert (Hb : OffsetForSyndrome (to_u16 (CalculateSyndrome 0x48D1FE)) = C)
    by (vm_compute; reflexivity).
  assert (He : single_bit_error 0xC00 \/ adjacent_pair_error 0xC00).
  { right. exists 10%nat. split; [lia|reflexivity]. }
  repeat (split; [assumption|]).
  exact (CorrectBurstErrors_round_trip C 0x48D1FE 0xC00 Ho Hb He).
Defined.

(** ** Error detection *)

Lemma lxor_fixed (a e : Z) : Z.lxor a e = a -> e = 0.
Proof.
  intros H. apply (f_equal (Z.lxor a)) in H.
  by rewrite <- Z.lxor_assoc, Z.lxor_nilpotent, Z.lxor_0_l in H.
Qed.

(** No error pattern that spans at most 10 bits has the syndrome 0. *)
Lemma burst_syndromes :
  forallb (fun p =>
    forallb (fun i =>
      let e := Z.shiftl (Z.of_nat p) (Z.of_nat i) in
      (2 ^ 26 <=? e) || negb (CalculateSyndrome e =? 0))
      (seq 0 26))
    (seq 1 1023) = true.
Proof. vm_compute. reflexivity. Qed.

(** No pair of flipped bits has the syndrome 0. *)
Lemma double_syndromes :
  forallb (fun i =>
    forallb (fun j =>
      negb (i <? j)%nat ||
      negb (CalculateSyndrome
              (Z.lor (Z.shiftl 1 (Z.of_nat i)) (Z.shiftl 1 (Z.of_nat j))) =? 0))
      (seq 0 26))
    (seq 0 26) = true.
Proof. vm_compute. reflexivity. Qed.

Lemma burst_error_syndrome (e : Z) :
  burst_error 10 e \/ double_error e -> CalculateSyndrome e <> 0.
Proof.
  intros [(p & i & Hp & -> & He)|(i & j & Hij & ->)].
  - pose proof burst_syndromes as Hall. rewrite forallb_forall in Hall.
    assert (Hi : (i < 26)%nat).
    { rewrite Z.shiftl_mul_pow2 in He by lia.
      destruct (decide (i < 26)%nat) as [|Hge]; [assumption|exfalso].
      assert (2 ^ 26 <= 2 ^ Z.of_nat i) by (apply Z.pow_le_mono_r; lia).
      nia. }
    specialize (Hall (Z.to_nat p)). rewrite forallb_forall in Hall.
    specialize (Hall ltac:(apply in_seq; change (2 ^ 10) with 1024 in Hp; lia)
                     i ltac:(apply in_seq; lia)).
    cbv zeta in Hall. rewrite Z2Nat.id in Hall by lia.
    apply orb_true_iff in Hall as [Hall|Hall].
    + apply Z.leb_le in Hall. lia.
    + apply negb_true_iff, Z.eqb_neq in Hall. exact Hall.
  - pose proof double_syndromes as Hall. rewrite forallb_forall in Hall.
    specialize (Hall i ltac:(apply in_seq; lia)).
    rewrite forallb_forall in Hall.
    specialize (Hall j ltac:(apply in_seq; lia)).
    apply orb_true_iff in Hall as [Hall|Hall].
    + apply negb_true_iff, Nat.ltb_ge in Hall. lia.
    + apply negb_true_iff, Z.eqb_neq in Hall. exact Hall.
Qed.

(** X3. Error detection.  A block that is good at a valid offset and is hit
    by an error burst spanning at most 10 bits, or by two bit errors
    anywhere in its 26 bits, is never classified as that offset: in sync,
    such a block always counts as a block with errors. *)
Theorem burst_errors_detected (b e : Z) (o : Offset) :
  o <> invalid ->
  OffsetForSyndrome (to_u16 (CalculateSyndrome b)) = o ->
  burst_error 10 e \/ double_error e ->
  OffsetForSyndrome (to_u16 (CalculateSyndrome (Z.lxor b e))) <> o.
Proof.
  intros Ho Hb He Hbe.
  rewrite to_u16_CalculateSyndrome in Hb, Hbe.
  apply (OffsetForSyndrome_valid _ _ Ho) in Hb, Hbe.
  rewrite CalculateSyndrome_lxor, Hb in Hbe.
  apply lxor_fixed in Hbe.
  exact (burst_error_syndrome e He Hbe).
Qed.

(** Block C of message 0x1234 with ten adjacent bits flipped, from bit 5
    on. *)
Lemma burst_errors_detected_witness :
  C <> invalid /\
  OffsetForSyndrome (to_u16 (CalculateSyndrome 0x48D1FE)) = C /\
  (burst_error 10 0x7FE0 \/ double_error 0x7FE0) /\
  OffsetForSyndrome (to_u16 (CalculateSyndrome (Z.lxor 0x48D1FE 0x7FE0))) <> C.
Proof.
  assert (Ho : C <> invalid) by discriminate.
  assert (Hb : OffsetForSyndrome (to_u16 (CalculateSyndrome 0x48D1FE)) = C)
    by (vm_compute; reflexivity).
  assert (He : burst_error 10 0x7FE0 \/ double_error 0x7FE0).
  { left. exists 0x3FF, 5%nat. split; [lia|]. split; [reflexivity|lia]. }
  repeat (split; [assumption|]).
  exact (burst_errors_detected 0x48D1FE 0x7FE0 C Ho Hb He).
Defined.

(** ** What the error table holds *)

Lemma burst_errors_inv (e : Z) :
  In e burst_errors -> single_bit_error e \/ adjacent_pair_error e.
Proof.
  unfold burst_errors. rewrite in_app_iff, !in_map_iff.
  intros [(i & <- & Hi%in_seq)|(i & <- & Hi%in_seq)]; [left|right];
    (exists i; split; [lia|reflexivity]).
Qed.

(** Every entry of the table: its value is a one- or two-bit burst whose
    syndrome, added to that of the key's offset, is the key's syndrome. *)
Lemma kErrorLookup_entries :
  forallb (fun kv : Z * Offset * Z =>
    existsb (Z.eqb kv.2) burst_errors &&
    (kv.1.1 =? Z.lxor (syndrome_of kv.1.2) (CalculateSyndrome kv.2)) &&
    negb (bool_decide (kv.1.2 = invalid)) &&
    negb (CalculateSyndrome kv.2 =? 0))
    (map_to_list kErrorLookup) = true.
Proof. vm_compute. reflexivity. Qed.

Lemma kErrorLookup_Some (syndrome : Z) (o : Offset) (e : Z) :
  kErrorLookup !! (syndrome, o) = Some e ->
  (single_bit_error e \/ adjacent_pair_error e) /\
  syndrome = Z.lxor (syndrome_of o) (CalculateSyndrome e) /\
  o <> invalid /\
  CalculateSyndrome e <> 0.
Proof.
  intros H%elem_of_map_to_list%list_elem_of_In.
  pose proof kErrorLookup_entries as Hall. rewrite forallb_forall in Hall.
  specialize (Hall _ H). cbn [fst snd] in Hall.
  apply andb_true_iff in Hall as [Hall H4].
  apply andb_true_iff in Hall as [Hall H3].
  apply andb_true_iff in Hall as [H1 H2].
  split; [|split; [|split]].
  - apply burst_errors_inv. apply existsb_exists in H1 as (e' & Hin & Heq).
    apply Z.eqb_eq in Heq. by subst.
  - by apply Z.eqb_eq.
  - apply negb_true_iff in H3. by apply bool_decide_eq_false_1 in H3.
  - apply negb_true_iff in H4. by apply Z.eqb_neq.
Qed.

(** The ways [CorrectBurstErrors] ends. *)
Lemma CorrectBurstErrors_cases (b : Z) (o : Offset) :
  CorrectBurstErrors b o = b \/
  exists e : Z,
    (single_bit_error e \/ adjacent_pair_error e) /\
    o <> invalid /\
    CalculateSyndrome e <> 0 /\
    CalculateSyndrome b = Z.lxor (syndrome_of o) (CalculateSyndrome e) /\
    CorrectBurstErrors b o = Z.lxor b e.
Proof.
  unfold CorrectBurstErrors. rewrite to_u16_CalculateSyndrome.
  destruct (kErrorLookup !! (CalculateSyndrome b, o)) as [e|] eqn:He;
    [right|left; reflexivity].
  apply kErrorLookup_Some in He as (H1 & H2 & H3 & H4).
  exists e. repeat (split; [assumption|]). reflexivity.
Qed.

Lemma CorrectBurstErrors_matching (b : Z) (o : Offset) :
  OffsetForSyndrome (to_u16 (CalculateSyndrome b)) = o ->
  CorrectBurstErrors b o = b.
Proof.
  intros Hb.
  destruct (CorrectBurstErrors_cases b o)
    as [H|(e & _ & Ho & He & Hs & _)]; [exact H|exfalso].
  rewrite to_u16_CalculateSyndrome in Hb.
  apply (OffsetForSyndrome_valid _ _ Ho) in Hb.
  rewrite Hb in Hs. symmetry in Hs. by apply lxor_fixed in Hs.
Qed.

(** X4. Whenever [CorrectBurstErrors] changes a block, whatever the block:
    the offset is a valid one, the block did not classify as that offset,
    the block returned does, and the two blocks differ by one flipped bit or
    by two adjacent flipped bits.  This is what lets [PushBit] take a
    changed block for a block of the expected offset. *)
Theorem CorrectBurstErrors_sound (b : Z) (o : Offset) :
  CorrectBurstErrors b o <> b ->
  o <> invalid /\
  OffsetForSyndrome (to_u16 (CalculateSyndrome b)) <> o /\
  OffsetForSyndrome (to_u16 (CalculateSyndrome (CorrectBurstErrors b o))) = o /\
  exists e : Z,
    (single_bit_error e \/ adjacent_pair_error e) /\
    CorrectBurstErrors b o = Z.lxor b e.
Proof.
  intros Hne.
  destruct (CorrectBurstErrors_cases b o)
    as [H|(e & He & Ho & _ & Hs & Heq)]; [by destruct Hne|].
  split; [exact Ho|]. split; [|split].
  - intros Hm. apply Hne. by apply CorrectBurstErrors_matching.
  - rewrite Heq, to_u16_CalculateSyndrome, CalculateSyndrome_lxor, Hs.
    rewrite lxor_cancel_r. apply OffsetForSyndrome_syndrome_of.
  - exists e. by split.
Qed.

(** Block C of message 0x1234 with its two lowest message bits hit: the
    block is changed, into a block that classifies as C. *)
Lemma CorrectBurstErrors_sound_witness :
  CorrectBurstErrors 0x48DDFE C <> 0x48DDFE /\
  OffsetForSyndrome (to_u16 (CalculateSyndrome 0x48DDFE)) <> C /\
  OffsetForSyndrome
    (to_u16 (CalculateSyndrome (CorrectBurstErrors 0x48DDFE C))) = C.
Proof.
  assert (Hne : CorrectBurstErrors 0x48DDFE C <> 0x48DDFE)
    by (vm_compute; discriminate).
  destruct (CorrectBurstErrors_sound 0x48DDFE C Hne) as (_ & H1 & H2 & _).
  split; [exact Hne|]. split; [exact H1|exact H2].
Defined.

(** X5. [CorrectBurstErrors] leaves alone every block for the offset
    [invalid], which has no entry in the table, and every block that
    classifies as the offset it is asked for; applied twice with the same
    offset it gives what it gives when applied once. *)
Theorem CorrectBurstErrors_idempotent (b : Z) (o : Offset) :
  CorrectBurstErrors b invalid = b /\
  (OffsetForSyndrome (to_u16 (CalculateSyndrome b)) = o ->
   CorrectBurstErrors b o = b) /\
  CorrectBurstErrors (CorrectBurstErrors b o) o = CorrectBurstErrors b o.
Proof.
  split; [|split].
  - destruct (CorrectBurstErrors_cases b invalid)
      as [H|(e & _ & Ho & _)]; [exact H|by destruct Ho].
  - apply CorrectBurstErrors_matching.
  - destruct (CorrectBurstErrors_cases b o)
      as [H|(e & _ & Ho & _ & Hs & Heq)]; [by rewrite !H|].
    apply CorrectBurstErrors_matching.
    rewrite Heq, to_u16_CalculateSyndrome, CalculateSyndrome_lxor, Hs.
    rewrite lxor_cancel_r. apply OffsetForSyndrome_syndrome_of.
Qed.

(** The error-free block C of message 0x1234 is left alone. *)
Lemma CorrectBurstErrors_idempotent_witness :
  OffsetForSyndrome (to_u16 (CalculateSyndrome 0x48D1FE)) = C /\
  CorrectBurstErrors 0x48D1FE C = 0x48D1FE.
Proof.
  assert (Hb : OffsetForSyndrome (to_u16 (CalculateSyndrome 0x48D1FE)) = C)
    by (vm_compute; reflexivity).
  split; [exact Hb|].
  exact (proj1 (proj2 (CorrectBurstErrors_idempotent 0x48D1FE C)) Hb).
Defined.

(** No one- or two-bit burst has the syndrome 0, nor the syndrome that
    separates offset C from offset C'. *)
Lemma burst_errors_syndromes :
  forallb (fun e =>
             negb (CalculateSyndrome e =? 0) &&
             negb (CalculateSyndrome e =? Z.lxor (syndrome_of C)
                                                  (syndrome_of Cprime)))
          burst_errors = true.
Proof. vm_compute. reflexivity. Qed.

(** A good block hit by a one- or two-bit burst: it no longer classifies
    as its offset, it is not taken for a block C' where C is expected, and
    the table gives the good block back. *)
Lemma burst_error_classes (o : Offset) (b e : Z) :
  o <> invalid ->
  OffsetForSyndrome (to_u16 (CalculateSyndrome b)) = o ->
  single_bit_error e \/ adjacent_pair_error e ->
  let r := OffsetForSyndrome (to_u16 (CalculateSyndrome (Z.lxor b e))) in
  r <> o /\ ~ (o = C /\ r = Cprime) /\
  CorrectBurstErrors (Z.lxor b e) o = b /\ Z.lxor b e <> b.
Proof.
  intros Ho Hb He r.
  pose proof (burst_errors_spec e He) as Hin.
  rewrite to_u16_CalculateSyndrome in Hb.
  apply (OffsetForSyndrome_valid _ _ Ho) in Hb.
  pose proof burst_errors_syndromes as Hall.
  rewrite forallb_forall in Hall. specialize (Hall e Hin).
  apply andb_true_iff in Hall as [H0 H1].
  apply negb_true_iff, Z.eqb_neq in H0, H1.
  assert (Hr : forall o' : Offset, o' <> invalid -> r = o' ->
                 CalculateSyndrome e = Z.lxor (syndrome_of o) (syndrome_of o')).
  { intros o' Ho' Hr. subst r. rewrite to_u16_CalculateSyndrome in Hr.
    apply (OffsetForSyndrome_valid _ _ Ho') in Hr.
    rewrite CalculateSyndrome_lxor, Hb in Hr. rewrite <- Hr.
    by rewrite <- Z.lxor_assoc, Z.lxor_nilpotent, Z.lxor_0_l. }
  split; [|split; [|split]].
  - intros Heq. apply H0. rewrite (Hr o Ho Heq). apply Z.lxor_nilpotent.
  - intros [-> Heq]. apply H1. by apply Hr.
  - pose proof kErrorLookup_burst_errors as Htab.
    rewrite forallb_forall in Htab.
    assert (Hino : In o [A; B; C; Cprime; D]) by (destruct o; cbn; tauto).
    specialize (Htab o Hino). rewrite forallb_forall in Htab.
    specialize (Htab e Hin). apply bool_decide_eq_true in Htab.
    unfold CorrectBurstErrors.
    rewrite CalculateSyndrome_lxor, Hb, Htab. apply lxor_cancel_r.
  - intros Heq. apply H0. apply lxor_fixed in Heq.
    subst e. reflexivity.
Qed.

(** ** The collision policy of the error table *)

Lemma fold_left_map_list {T U V : Type} (f : T -> U -> T) (g : V -> U)
    (l : list V) :
  forall a : T, fold_left f (map g l) a = fold_left (fun a x => f a (g x)) l a.
Proof. induction l as [|x l IH]; intros a; [done|]. cbn. apply IH. Qed.

Lemma fold_left_pointwise {T U : Type} (f g : T -> U -> T) (l : list U) :
  (forall a x, f a x = g a x) ->
  forall a : T, fold_left f l a = fold_left g l a.
Proof.
  intros Hfg. induction l as [|x l IH]; intros a; [done|].
  cbn. rewrite Hfg. apply IH.
Qed.

Lemma combinations_classes :
  combinations =
  map (fun shift => (0x1, shift)) (seq 0 26) ++
  map (fun shift => (0x3, shift)) (seq 0 26).
Proof. reflexivity. Qed.

Lemma fold_left_two {T U : Type} (f : T -> U -> T) (x y : U) (a : T) :
  fold_left f [x; y] a = f (f a x) y.
Proof. reflexivity. Qed.

(** The three loops are one pass over offsets and combinations. *)
Lemma MakeErrorLookupTable_combinations :
  MakeErrorLookupTable =
  fold_left (fun lookup_table offset =>
               fold_left (MakeErrorLookupTable_insert offset) combinations
                         lookup_table)
            offset_words ∅.
Proof.
  unfold MakeErrorLookupTable. apply fold_left_pointwise.
  intros lookup_table offset.
  rewrite combinations_classes, fold_left_app, !fold_left_map_list.
  rewrite fold_left_two. cbv beta.
  transitivity
    (fold_left (fun a x => MakeErrorLookupTable_insert offset a (3, x))
       (seq 0 26)
       (fold_left (MakeErrorLookupTable_body offset 1) (seq 0 26)
          lookup_table)).
  - apply fold_left_pointwise. intros; reflexivity.
  - f_equal; apply fold_left_pointwise; intros; reflexivity.
Qed.





(** ** The running error window *)

Lemma Zsum_app (l1 l2 : list Z) : Zsum (l1 ++ l2) = Zsum l1 + Zsum l2.
Proof.
  unfold Zsum. induction l1 as [|x l1 IH]; cbn [app foldr]; [done|].
  rewrite IH. lia.
Qed.

Lemma int_add_Some (a b x : Z) :
  RunningSum.int_add a b = Some x ->
  x = a + b /\ RunningSum.INT_MIN <= x <= RunningSum.INT_MAX.
Proof.
  unfold RunningSum.int_add.
  destruct (Z.leb_spec RunningSum.INT_MIN (a + b));
    destruct (Z.leb_spec (a + b) RunningSum.INT_MAX); cbn [andb];
    intros [= <-]. lia.
Qed.

Lemma int_add_fits (a b : Z) :
  RunningSum.INT_MIN <= a + b <= RunningSum.INT_MAX ->
  RunningSum.int_add a b = Some (a + b).
Proof.
  intros [H1 H2]. unfold RunningSum.int_add.
  apply Z.leb_le in H1, H2. by rewrite H1, H2.
Qed.

(** The loop of [sum], from an accumulator on: once an addition has
    overflowed there is no result; a result is the mathematical sum. *)
Lemma sum_fold_None (l : list Z) :
  fold_left (fun result number => a ← result; RunningSum.int_add a number)
            l None = None.
Proof. induction l as [|x l IH]; [done|]. cbn. exact IH. Qed.

Lemma sum_fold_Some (l : list Z) :
  forall a x : Z,
    fold_left (fun result number => a ← result; RunningSum.int_add a number)
              l (Some a) = Some x ->
    x = a + Zsum l.
Proof.
  unfold Zsum. induction l as [|y l IH]; intros a x; cbn [fold_left foldr].
  - intros [= <-]. lia.
  - cbn [mbind option_bind].
    destruct (RunningSum.int_add a y) as [b|] eqn:Hb.
    + apply int_add_Some in Hb as [-> _]. intros H%IH. lia.
    + by rewrite sum_fold_None.
Qed.

Lemma sum_fold_fits (l : list Z) :
  forall a : Z,
    Z.abs a + Zsum (map Z.abs l) <= RunningSum.INT_MAX ->
    fold_left (fun result number => a ← result; RunningSum.int_add a number)
              l (Some a) = Some (a + Zsum l).
Proof.
  unfold Zsum.
  induction l as [|y l IH]; intros a Ha; cbn [fold_left foldr map] in *.
  - f_equal. lia.
  - cbn [mbind option_bind].
    assert (Hpos : 0 <= foldr Z.add 0 (map Z.abs l)).
    { clear. induction l as [|z l IH]; cbn [foldr map]; lia. }
    rewrite int_add_fits by (unfold RunningSum.INT_MIN, RunningSum.INT_MAX in *; lia).
    rewrite IH by lia. f_equal. lia.
Qed.

(** The window holds the slots of the buffer, in another order. *)
Lemma Zsum_rotate (p : nat) (l : list Z) : Zsum (drop p l ++ take p l) = Zsum l.
Proof.
  rewrite Zsum_app. rewrite <- (take_drop p l) at 3. rewrite Zsum_app. lia.
Qed.

Lemma RunningSum_window_Zsum (r : RunningSum.t) :
  Zsum (RunningSum_window r) = Zsum (RunningSum.history_ r).
Proof. apply Zsum_rotate. Qed.

Lemma RunningSum_window_Zsum_abs (r : RunningSum.t) :
  Zsum (map Z.abs (RunningSum_window r)) =
  Zsum (map Z.abs (RunningSum.history_ r)).
Proof.
  unfold RunningSum_window.
  rewrite map_app, <- skipn_map, <- firstn_map. apply Zsum_rotate.
Qed.

(** Whenever [sum] has a result, it is the sum of the window. *)
Lemma RunningSum_sum_Some (r : RunningSum.t) (x : Z) :
  RunningSum.sum r = Some x -> x = Zsum (RunningSum_window r).
Proof.
  unfold RunningSum.sum. intros H%sum_fold_Some.
  rewrite RunningSum_window_Zsum. lia.
Qed.

(** [sum] has a result when the absolute values of the slots add up to at
    most [INT_MAX], whatever the order of the slots. *)
Lemma RunningSum_sum_fits (r : RunningSum.t) :
  Zsum (map Z.abs (RunningSum_window r)) <= RunningSum.INT_MAX ->
  RunningSum.sum r = Some (Zsum (RunningSum_window r)).
Proof.
  rewrite RunningSum_window_Zsum_abs, RunningSum_window_Zsum.
  intros H. unfold RunningSum.sum. by rewrite sum_fold_fits by (cbn; lia).
Qed.

Lemma RunningSum_window_length (r : RunningSum.t) :
  RunningSum_wf r ->
  length (RunningSum_window r) = length (RunningSum.history_ r).
Proof.
  unfold RunningSum_wf, RunningSum_window. intros Hwf.
  rewrite length_app, length_drop, length_take. lia.
Qed.

(** [push] succeeds on a well-formed window, keeps it well formed and of
    the same size, drops the oldest value and appends the new one. *)
Lemma RunningSum_push_window (r : RunningSum.t) (v : Z) :
  RunningSum_wf r ->
  exists r' : RunningSum.t,
    RunningSum.push r v = Some r' /\
    RunningSum_wf r' /\
    length (RunningSum.history_ r') = length (RunningSum.history_ r) /\
    RunningSum_window r' = drop 1 (RunningSum_window r) ++ [v].
Proof.
  unfold RunningSum_wf, RunningSum_window, RunningSum.push.
  destruct r as [h p]; cbn [RunningSum.history_ RunningSum.pointer_].
  intros Hwf. rewrite decide_True by done.
  eexists. split; [reflexivity|].
  cbn [RunningSum.history_ RunningSum.pointer_].
  rewrite length_insert.
  split; [apply Nat.mod_upper_bound; lia|]. split; [done|].
  assert (Hold : drop 1 (drop p h ++ take p h) = drop (S p) h ++ take p h).
  { rewrite drop_app_le by (rewrite length_drop; lia).
    by rewrite drop_drop, Nat.add_1_r. }
  rewrite Hold, insert_take_drop by done.
  assert (Hp : length (take p h) = p) by (rewrite length_take; lia).
  destruct (decide (p + 1 < length h)%nat) as [Hlt|Hge].
  - rewrite Nat.mod_small, Nat.add_1_r by done.
    rewrite (cons_middle v), app_assoc.
    rewrite drop_app_length', take_app_length'
      by (rewrite length_app, Hp; cbn; lia).
    by rewrite app_assoc.
  - assert (Hlen : length h = (p + 1)%nat) by lia.
    rewrite Hlen, Nat.Div0.mod_same. cbn [drop take].
    rewrite (drop_ge h (S p)) by lia.
    by rewrite app_nil_r.
Qed.

Lemma RunningSum_push_all_window (vs : list Z) :
  forall r : RunningSum.t,
    RunningSum_wf r ->
    exists r' : RunningSum.t,
      RunningSum_push_all r vs = Some r' /\
      RunningSum_wf r' /\
      length (RunningSum.history_ r') = length (RunningSum.history_ r) /\
      RunningSum_window r' = drop (length vs) (RunningSum_window r ++ vs).
Proof.
  induction vs as [|v vs IH]; intros r Hwf.
  - exists r. by rewrite app_nil_r.
  - destruct (RunningSum_push_window r v Hwf) as (r1 & Hpush & Hwf1 & Hlen1 & Hwin1).
    destruct (IH r1 Hwf1) as (r' & Hall & Hwf' & Hlen' & Hwin').
    exists r'. cbn [RunningSum_push_all]. rewrite Hpush. cbn.
    split; [done|]. split; [done|]. split; [congruence|].
    rewrite Hwin', Hwin1. cbn [length].
    pose proof (RunningSum_window_length r Hwf) as Hlen.
    unfold RunningSum_wf in Hwf.
    rewrite <- app_assoc. cbn [app].
    rewrite <- (drop_drop _ (length vs) 1).
    f_equal. rewrite drop_app_le by lia. done.
Qed.

(** A window of positive capacity starts well formed. *)
Lemma RunningSum_new_wf (length : nat) :
  (0 < length)%nat -> RunningSum_wf (RunningSum.new length).
Proof. intros H. unfold RunningSum_wf. cbn. by rewrite length_replicate. Qed.

(** [clear] leaves nothing but zeros. *)
Lemma clear_fold_lookup (k : nat) :
  forall (a : nat) (h : list Z) (i : nat),
    fold_left (fun h i => <[i := 0]> h) (seq a k) h !! i =
    if decide (a <= i < a + k)%nat then (fun _ => 0) <$> h !! i else h !! i.
Proof.
  induction k as [|k IH]; intros a h i; cbn [seq fold_left].
  - rewrite decide_False by lia. done.
  - rewrite IH, list_lookup_insert.
    repeat case_decide; try lia; try done.
    + destruct (h !! i) eqn:Hi; [done|].
      apply lookup_ge_None in Hi. lia.
    + destruct (h !! i) eqn:Hi; [|done].
      apply lookup_lt_Some in Hi. lia.
Qed.

Lemma clear_fold_length (k : nat) :
  forall (a : nat) (h : list Z),
    length (fold_left (fun h i => <[i := 0]> h) (seq a k) h) = length h.
Proof.
  induction k as [|k IH]; intros a h; cbn [seq fold_left]; [done|].
  by rewrite IH, length_insert.
Qed.

Lemma Zsum_zeros (l : list Z) : Forall (fun x => x = 0) l -> Zsum l = 0.
Proof.
  unfold Zsum. induction 1 as [|x l -> _ IH]; cbn [foldr]; [done|].
  rewrite IH. done.
Qed.

Lemma RunningSum_clear_zeros (r : RunningSum.t) :
  Forall (fun x => x = 0) (RunningSum.history_ (RunningSum.clear r)).
Proof.
  apply Forall_lookup. intros i x. cbn [RunningSum.clear RunningSum.history_].
  rewrite clear_fold_lookup. intros H.
  case_decide as Hi.
  - destruct (RunningSum.history_ r !! i); cbn in H; congruence.
  - apply lookup_lt_Some in H. lia.
Qed.

(** The sum of a buffer of flags: it has a result, between 0 and the
    size of the buffer. *)
Lemma Zsum_flags (l : list Z) :
  Forall (fun x => x = 0 \/ x = 1) l ->
  Zsum (map Z.abs l) = Zsum l /\ 0 <= Zsum l <= Z.of_nat (length l).
Proof.
  unfold Zsum. induction 1 as [|x l Hx _ IH]; cbn [foldr map length]; lia.
Qed.

Lemma RunningSum_sum_flags (r : RunningSum.t) :
  RunningSum_flags r ->
  Z.of_nat (length (RunningSum.history_ r)) <= RunningSum.INT_MAX ->
  RunningSum.sum r = Some (Zsum (RunningSum_window r)).
Proof.
  intros Hflags Hlen. apply RunningSum_sum_fits.
  rewrite RunningSum_window_Zsum_abs.
  destruct (Zsum_flags _ Hflags) as [-> ?]. lia.
Qed.

Lemma RunningSum_sum_clear (r : RunningSum.t) :
  RunningSum.sum (RunningSum.clear r) = Some 0.
Proof.
  pose proof (RunningSum_clear_zeros r) as Hz.
  assert (Habs : Zsum (map Z.abs (RunningSum.history_ (RunningSum.clear r))) = 0).
  { apply Zsum_zeros. apply Forall_forall. intros x Hx.
    apply list_elem_of_In, in_map_iff in Hx as (y & <- & Hy%list_elem_of_In).
    rewrite Forall_forall in Hz. by rewrite (Hz y Hy). }
  rewrite RunningSum_sum_fits.
  - by rewrite RunningSum_window_Zsum, Zsum_zeros.
  - rewrite RunningSum_window_Zsum_abs, Habs. done.
Qed.

(** C8. A window of capacity N whose cursor is inside the buffer: [push]
    writes the slot under the cursor, which holds the oldest value, and
    advances the cursor modulo N.  After more than N values have been
    pushed, [sum] adds exactly the N values pushed last: whenever it has a
    result (no addition overflows [int]) the result is the sum of these N
    values, and it has this result as soon as their absolute values add up
    to at most [INT_MAX].  After [clear], [sum] is 0 whatever came before. *)
Theorem RunningSum_recent_values (r : RunningSum.t) (vs : list Z) (v : Z) :
  let N := length (RunningSum.history_ r) in
  (RunningSum_wf r ->
   exists r' : RunningSum.t,
     RunningSum.push r v = Some r' /\
     RunningSum.history_ r' =
       <[RunningSum.pointer_ r := v]> (RunningSum.history_ r) /\
     RunningSum.pointer_ r' = ((RunningSum.pointer_ r + 1) mod N)%nat /\
     RunningSum_window r' = drop 1 (RunningSum_window r) ++ [v]) /\
  (RunningSum_wf r ->
   (N < length vs)%nat ->
   exists r' : RunningSum.t,
     RunningSum_push_all r vs = Some r' /\
     RunningSum_window r' = drop (length vs - N) vs /\
     (forall x : Z,
         RunningSum.sum r' = Some x -> x = Zsum (drop (length vs - N) vs)) /\
     (Zsum (map Z.abs (drop (length vs - N) vs)) <= RunningSum.INT_MAX ->
      RunningSum.sum r' = Some (Zsum (drop (length vs - N) vs)))) /\
  RunningSum.sum (RunningSum.clear r) = Some 0.
Proof.
  intros N. split; [|split].
  - intros Hwf.
    destruct (RunningSum_push_window r v Hwf) as (r' & Hpush & _ & _ & Hwin).
    exists r'. split; [done|].
    unfold RunningSum.push in Hpush. rewrite decide_True in Hpush by done.
    injection Hpush as <-. by split.
  - intros Hwf Hlen.
    destruct (RunningSum_push_all_window vs r Hwf) as (r' & Hall & _ & _ & Hwin).
    exists r'. split; [done|].
    pose proof (RunningSum_window_length r Hwf) as HN. fold N in HN.
    rewrite drop_app_ge, HN in Hwin by lia.
    split; [exact Hwin|]. split.
    + intros x Hx%RunningSum_sum_Some. by rewrite <- Hwin.
    + intros Hfit. rewrite <- Hwin in *. by apply RunningSum_sum_fits.
  - apply RunningSum_sum_clear.
Qed.

(** A new window of three slots that has seen five values keeps the last
    three. *)
Lemma RunningSum_recent_values_witness :
  let r := RunningSum.new 3 in
  RunningSum_wf r /\
  (3 < length [1; 2; 3; 4; 5])%nat /\
  exists r' : RunningSum.t,
    RunningSum_push_all r [1; 2; 3; 4; 5] = Some r' /\
    RunningSum_window r' = [3; 4; 5] /\
    RunningSum.sum r' = Some (3 + 4 + 5).
Proof.
  intros r.
  assert (Hwf : RunningSum_wf r) by (unfold RunningSum_wf; cbn; lia).
  assert (Hlen : (3 < length [1; 2; 3; 4; 5])%nat) by (cbn; lia).
  split; [exact Hwf|]. split; [exact Hlen|].
  destruct (proj1 (proj2 (RunningSum_recent_values r [1; 2; 3; 4; 5] 0))
              Hwf Hlen) as (r' & Hall & Hwin & _ & Hsum).
  exists r'. split; [exact Hall|]. split; [exact Hwin|].
  apply Hsum. vm_compute. discriminate.
Defined.

(** ** The window from its construction and after [clear] *)

Lemma Zsum_abs_zeros (l : list Z) :
  Forall (fun x => x = 0) l -> Zsum (map Z.abs l) = 0.
Proof.
  unfold Zsum. induction 1 as [|x l -> _ IH]; cbn [foldr map]; [done|].
  rewrite IH. done.
Qed.

(** Values pushed into a window that holds only zeros: the window is what
    is left of the zeros, followed by the values pushed last. *)
Lemma RunningSum_push_all_zeros (r : RunningSum.t) (vs : list Z) :
  RunningSum_wf r ->
  Forall (fun x => x = 0) (RunningSum.history_ r) ->
  Zsum (map Z.abs (drop (length vs - length (RunningSum.history_ r)) vs))
    <= RunningSum.INT_MAX ->
  exists r' : RunningSum.t,
    RunningSum_push_all r vs = Some r' /\
    RunningSum.sum r' =
      Some (Zsum (drop (length vs - length (RunningSum.history_ r)) vs)).
Proof.
  intros Hwf Hz Hfit.
  destruct (RunningSum_push_all_window vs r Hwf) as (r' & Hall & _ & _ & Hwin).
  exists r'. split; [exact Hall|].
  pose proof (RunningSum_window_length r Hwf) as HN.
  assert (Hzw : Forall (fun x => x = 0) (RunningSum_window r)).
  { unfold RunningSum_window. apply Forall_app.
    split; [by apply Forall_drop|by apply Forall_take]. }
  rewrite skipn_app, HN in Hwin.
  assert (Hzd : Forall (fun x => x = 0)
                  (drop (length vs) (RunningSum_window r)))
    by (by apply Forall_drop).
  rewrite RunningSum_sum_fits; rewrite Hwin.
  - by rewrite Zsum_app, (Zsum_zeros _ Hzd).
  - rewrite map_app, Zsum_app, (Zsum_abs_zeros _ Hzd). lia.
Qed.

(** X6. A window constructed with a positive length takes any number of
    values.  A window constructed with length 0 takes none: [push] then
    writes outside the empty buffer and divides by its size, 0, which has
    no defined result. *)
Theorem RunningSum_push_defined (length : nat) (vs : list Z) :
  is_Some (RunningSum_push_all (RunningSum.new length) vs) <->
  (0 < length)%nat \/ vs = [].
Proof.
  split.
  - intros [r' H]. destruct vs as [|v vs]; [by right|left].
    destruct length as [|n]; [|lia]. by cbn in H.
  - intros [Hpos| ->]; [|by eexists].
    destruct (RunningSum_push_all_window vs _ (RunningSum_new_wf length Hpos))
      as (r' & Hall & _).
    by exists r'.
Qed.

(** X7. The window starts empty and is empty again after [clear]: when
    [k] values have been pushed since the construction with length [N], or
    since a call of [clear] on a window of [N] slots, [sum] is the sum of
    the last [min k N] of them; what the slots held before [clear] no
    longer counts, and neither does the position of the cursor, which
    [clear] leaves where it is.  As in C8, the values are taken small enough
    for the addition in [int]. *)
Theorem RunningSum_sum_since_clear (r : RunningSum.t) (N : nat) (vs : list Z) :
  (RunningSum_wf r ->
   Zsum (map Z.abs (drop (length vs - length (RunningSum.history_ r)) vs))
     <= RunningSum.INT_MAX ->
   exists r' : RunningSum.t,
     RunningSum_push_all (RunningSum.clear r) vs = Some r' /\
     RunningSum.sum r' =
       Some (Zsum (drop (length vs - length (RunningSum.history_ r)) vs))) /\
  ((0 < N)%nat ->
   Zsum (map Z.abs (drop (length vs - N) vs)) <= RunningSum.INT_MAX ->
   exists r' : RunningSum.t,
     RunningSum_push_all (RunningSum.new N) vs = Some r' /\
     RunningSum.sum r' = Some (Zsum (drop (length vs - N) vs))).
Proof.
  split.
  - intros Hwf Hfit.
    assert (Hlen : length (RunningSum.history_ (RunningSum.clear r)) =
                   length (RunningSum.history_ r))
      by apply clear_fold_length.
    rewrite <- Hlen in *. apply RunningSum_push_all_zeros.
    + unfold RunningSum_wf in *. by rewrite Hlen.
    + apply RunningSum_clear_zeros.
    + exact Hfit.
  - intros HN Hfit.
    assert (Hlen : length (RunningSum.history_ (RunningSum.new N)) = N)
      by (cbn; apply length_replicate).
    destruct (RunningSum_push_all_zeros (RunningSum.new N) vs)
      as (r' & Hall & Hsum).
    + by apply RunningSum_new_wf.
    + cbn. apply Forall_forall. by intros x [-> _]%elem_of_replicate.
    + by rewrite Hlen.
    + exists r'. split; [exact Hall|]. by rewrite Hlen in Hsum.
Qed.

(** A window of three slots that held 7, 8 and 9 with the cursor on its
    second slot is cleared and takes two values: the sum is 30.  A new
    window of three slots takes four values: the sum is that of the last
    three. *)
Lemma RunningSum_sum_since_clear_witness :
  (exists r' : RunningSum.t,
      RunningSum_push_all
        (RunningSum.clear
           {| RunningSum.history_ := [7; 8; 9]; RunningSum.pointer_ := 1 |})
        [10; 20] = Some r' /\
      RunningSum.sum r' = Some 30) /\
  (exists r' : RunningSum.t,
      RunningSum_push_all (RunningSum.new 3) [1; 10; 20; 30] = Some r' /\
      RunningSum.sum r' = Some 60).
Proof.
  destruct (RunningSum_sum_since_clear
              {| RunningSum.history_ := [7; 8; 9]; RunningSum.pointer_ := 1 |}
              3 [10; 20]) as [H1 _].
  destruct (RunningSum_sum_since_clear
              {| RunningSum.history_ := [7; 8; 9]; RunningSum.pointer_ := 1 |}
              3 [1; 10; 20; 30]) as [_ H2].
  split.
  - apply H1.
    + unfold RunningSum_wf. cbn. lia.
    + vm_compute. intros H. discriminate H.
  - apply H2.
    + lia.
    + vm_compute. intros H. discriminate H.
Defined.

(** ** The stream decoder *)

Section BlockStreamFacts.
Context `{X : Collaborators}.

#[local] Opaque CorrectBurstErrors CalculateSyndrome OffsetForSyndrome.

Lemma BlockNumberForOffset_valid (o : Offset) :
  o <> invalid -> exists n : eBlockNumber, BlockNumberForOffset o = Some n.
Proof. destruct o; intros Ho; try done; by eexists. Qed.

Lemma BlockNumberForOffset_Some (o : Offset) (n : eBlockNumber) :
  BlockNumberForOffset o = Some n -> o <> invalid.
Proof. by destruct o. Qed.

Lemma NextOffsetFor_valid (o : Offset) : NextOffsetFor o <> invalid.
Proof. by destruct o. Qed.

(** Projections of updated records. *)
Ltac fields :=
  cbn [bitcount_ prevbitcount_ left_to_read_ input_register_ prevsync_
       expected_offset_ received_offset_ pi_ is_in_sync_ block_error_sum_
       options_ input_type_ is_eof_ bler_average_ current_group_ groups_
       set_bitcount_ set_prevbitcount_ set_left_to_read_ set_input_register_
       set_prevsync_ set_expected_offset_ set_received_offset_ set_pi_
       set_is_in_sync_ set_block_error_sum_ set_current_group_ set_groups_
       fst snd] in *.

Lemma decode_frame_refl (s : BlockStream) : decode_frame s s.
Proof. by split. Qed.

Lemma decode_frame_trans (s1 s2 s3 : BlockStream) :
  decode_frame s1 s2 -> decode_frame s2 s3 -> decode_frame s1 s3.
Proof. intros [] []. split; try congruence; auto. Qed.

Lemma decode_frame_inv (s s' : BlockStream) :
  decode_frame s s' -> BlockStream_inv s -> BlockStream_inv s'.
Proof.
  intros [] []. split; try congruence; auto.
Qed.

Lemma Uncorrectable_frame (s s' : BlockStream) :
  Uncorrectable s = Some s' -> decode_frame s s'.
Proof.
  unfold Uncorrectable.
  destruct (is_in_sync_ s); [|intros [= <-]; apply decode_frame_refl].
  destruct (RunningSum.sum (block_error_sum_ s)) as [errors|];
    cbn [mbind option_bind]; [|done].
  destruct (45 <? errors); intros [= <-]; [|apply decode_frame_refl].
  split; fields; try done.
  - unfold RunningSum_wf. cbn. by rewrite clear_fold_length.
  - cbn. apply clear_fold_length.
  - intros _. unfold RunningSum_flags.
    eapply Forall_impl; [apply RunningSum_clear_zeros|]. cbn. tauto.
Qed.

(** [Uncorrectable] has a result when the window holds flags: their sum
    cannot overflow. *)
Lemma Uncorrectable_total (s : BlockStream) :
  RunningSum_flags (block_error_sum_ s) ->
  length (RunningSum.history_ (block_error_sum_ s)) = 50%nat ->
  is_Some (Uncorrectable s).
Proof.
  intros Hflags Hlen. unfold Uncorrectable.
  destruct (is_in_sync_ s); [|done].
  rewrite RunningSum_sum_flags
    by (try done; rewrite Hlen; unfold RunningSum.INT_MAX; lia).
  cbn [mbind option_bind]. by case_match.
Qed.

Lemma PushBit_correct_frame (s s' : BlockStream) (block message message' : Z) :
  PushBit_correct s block message = Some (message', s') -> decode_frame s s'.
Proof.
  unfold PushBit_correct.
  destruct (decide (CorrectBurstErrors block (expected_offset_ s) <> block)).
  - generalize (to_u16 (Z.shiftr (CorrectBurstErrors block (expected_offset_ s))
                          10)).
    intros m. case_decide as Hne; fields; [by destruct Hne|].
    cbn [mbind option_bind]. intros [= _ <-]. by split.
  - case_decide; fields.
    + destruct (Uncorrectable _) as [s1|] eqn:Hunc; cbn [mbind option_bind];
        [|done].
      intros [= _ <-]. exact (Uncorrectable_frame _ _ Hunc).
    + cbn [mbind option_bind]. intros [= _ <-]. apply decode_frame_refl.
Qed.

Lemma PushBit_correct_total (s : BlockStream) (block message : Z) :
  RunningSum_flags (block_error_sum_ s) ->
  length (RunningSum.history_ (block_error_sum_ s)) = 50%nat ->
  is_Some (PushBit_correct s block message).
Proof.
  intros Hflags Hlen. unfold PushBit_correct.
  destruct (decide (CorrectBurstErrors block (expected_offset_ s) <> block)).
  - generalize (to_u16 (Z.shiftr (CorrectBurstErrors block (expected_offset_ s))
                          10)).
    intros m. case_decide as Hne; fields; [by destruct Hne|].
    cbn [mbind option_bind]. by eexists.
  - case_decide; fields; [|cbn [mbind option_bind]; by eexists].
    destruct (Uncorrectable_total s Hflags Hlen) as [s1 ->].
    cbn [mbind option_bind]. by eexists.
Qed.

Lemma RunningSum_push_history (r w : RunningSum.t) (v : Z) :
  RunningSum.push r v = Some w ->
  RunningSum.history_ w = <[RunningSum.pointer_ r := v]> (RunningSum.history_ r).
Proof. unfold RunningSum.push. case_decide; [|done]. by intros [= <-]. Qed.

Lemma RunningSum_push_flags (r w : RunningSum.t) (b : bool) :
  RunningSum.push r (Z.b2z b) = Some w ->
  RunningSum_flags r -> RunningSum_flags w.
Proof.
  intros Hpush Hflags. unfold RunningSum_flags.
  rewrite (RunningSum_push_history _ _ _ Hpush).
  apply Forall_insert; [exact Hflags|]. destruct b; cbn; tauto.
Qed.

Lemma PushBit_store_frame (s s' : BlockStream) (message : Z)
    (had_errors : bool) :
  PushBit_store s message had_errors = Some s' ->
  decode_frame s s' /\
  received_offset_ s' = received_offset_ s /\
  is_in_sync_ s' = is_in_sync_ s /\
  block_error_sum_ s' = block_error_sum_ s.
Proof.
  unfold PushBit_store.
  case_decide; [|intros [= <-]; split; [apply decode_frame_refl|done]].
  case_decide.
  - cbn. intros [= <-]. case_match; fields; by repeat split.
  - destruct (BlockNumberForOffset _) as [n|]; [|done]. cbn.
    intros [= <-]. case_match; fields; by repeat split.
Qed.

Lemma PushBit_store_total (s : BlockStream) (message : Z)
    (had_errors : bool) :
  expected_offset_ s <> invalid ->
  is_Some (PushBit_store s message had_errors).
Proof.
  intros Hexp. unfold PushBit_store.
  case_decide; [|done]. case_decide; [done|].
  by destruct (BlockNumberForOffset_valid _ Hexp) as [n ->].
Qed.

Lemma RunningSum_push_Some (r r' : RunningSum.t) (v : Z) :
  RunningSum.push r v = Some r' ->
  RunningSum_wf r /\ RunningSum_wf r' /\
  length (RunningSum.history_ r') = length (RunningSum.history_ r) /\
  RunningSum_window r' = drop 1 (RunningSum_window r) ++ [v].
Proof.
  intros Hpush.
  assert (Hwf : RunningSum_wf r).
  { unfold RunningSum.push in Hpush. by case_decide. }
  destruct (RunningSum_push_window r v Hwf) as (r'' & Heq & H).
  rewrite Hpush in Heq. injection Heq as <-. by split.
Qed.

Lemma decode_offset_valid (s : BlockStream) :
  expected_offset_ s <> invalid -> decode_offset s <> invalid.
Proof. unfold decode_offset. by case_decide. Qed.

Lemma decode_start_frame (s : BlockStream) :
  decode_frame (set_expected_offset_ (decode_offset s) s) (decode_start s).
Proof.
  unfold decode_start, decode_offset. case_decide; by split.
Qed.

(** Decoding a block leaves the queue and the counters as they were. *)
Lemma PushBit_decode_frame (s s' : BlockStream) (block : Z) :
  PushBit_decode s block = Some s' ->
  decode_frame (set_expected_offset_ (decode_offset s) s) s'.
Proof.
  unfold PushBit_decode. fold (decode_start s).
  pose proof (decode_start_frame s) as H1.
  set (s1 := decode_start s) in *.
  set (had_errors := bool_decide (received_offset_ s1 <> expected_offset_ s1)).
  destruct (RunningSum.push (block_error_sum_ s1) (Z.b2z had_errors))
    as [w|] eqn:Hpush; [|done].
  pose proof (RunningSum_push_flags _ _ _ Hpush) as Hfl.
  apply RunningSum_push_Some in Hpush as (_ & Hw & Hlen & _).
  cbn [mbind option_bind].
  set (s2 := set_block_error_sum_ w s1).
  assert (H2 : decode_frame s1 s2) by (subst s2; by split).
  set (message := to_u16 (Z.shiftr block 10)).
  destruct (if had_errors then PushBit_correct s2 block message
            else Some (message, s2)) as [[message' s3]|] eqn:Hr;
    cbn [mbind option_bind]; [|done].
  assert (H3 : decode_frame s2 s3).
  { destruct had_errors; [by eapply PushBit_correct_frame|].
    injection Hr as _ <-. apply decode_frame_refl. }
  intros H4%PushBit_store_frame. destruct H4 as [H4 _].
  eauto using decode_frame_trans.
Qed.

(** Decoding a block never fails on a well-formed state. *)
Lemma PushBit_decode_total (s : BlockStream) (block : Z) :
  BlockStream_inv s -> is_Some (PushBit_decode s block).
Proof.
  intros Hinv. unfold PushBit_decode. fold (decode_start s).
  pose proof (decode_start_frame s) as H1.
  assert (Hinv1 : BlockStream_inv (decode_start s)).
  { eapply decode_frame_inv; [exact H1|].
    destruct Hinv. split; fields; try done. by apply decode_offset_valid. }
  set (s1 := decode_start s) in *.
  set (had_errors := bool_decide (received_offset_ s1 <> expected_offset_ s1)).
  destruct (RunningSum_push_window (block_error_sum_ s1) (Z.b2z had_errors)
              (inv_window _ Hinv1)) as (w & Hpush & Hw & Hlen & _).
  pose proof (RunningSum_push_flags _ _ _ Hpush) as Hfl.
  rewrite Hpush. cbn [mbind option_bind].
  set (s2 := set_block_error_sum_ w s1).
  assert (H2 : decode_frame s1 s2) by (subst s2; by split).
  assert (Hinv2 : BlockStream_inv s2) by eauto using decode_frame_inv.
  set (message := to_u16 (Z.shiftr block 10)).
  assert (Hr : is_Some (if had_errors then PushBit_correct s2 block message
                        else Some (message, s2))).
  { destruct had_errors; [|done].
    apply PushBit_correct_total; apply Hinv2. }
  destruct Hr as [[message' s3] Hr]. rewrite Hr. cbn [mbind option_bind].
  assert (H3 : decode_frame s2 s3).
  { destruct had_errors; [by eapply PushBit_correct_frame|].
    injection Hr as _ <-. apply decode_frame_refl. }
  apply PushBit_store_total.
  assert (Hinv3 : BlockStream_inv s3) by eauto using decode_frame_inv.
  apply Hinv3.
Qed.

Lemma PushBit_decode_inv (s s' : BlockStream) (block : Z) :
  BlockStream_inv s -> PushBit_decode s block = Some s' ->
  BlockStream_inv s' /\ expected_offset_ s' = decode_offset s.
Proof.
  intros Hinv H%PushBit_decode_frame. split.
  - eapply decode_frame_inv; [exact H|].
    destruct Hinv. split; fields; try done. by apply decode_offset_valid.
  - by destruct H.
Qed.

(** What [AcquireSync] leaves alone. *)
Lemma AcquireSync_frame (s s' : BlockStream) (synced : bool) :
  AcquireSync s = Some (s', synced) ->
  synced = is_in_sync_ s' /\
  (is_in_sync_ s = true -> s' = s) /\
  bitcount_ s' = bitcount_ s /\
  left_to_read_ s' = left_to_read_ s /\
  input_register_ s' = input_register_ s /\
  received_offset_ s' = received_offset_ s /\
  pi_ s' = pi_ s /\
  block_error_sum_ s' = block_error_sum_ s /\
  groups_ s' = groups_ s /\
  options_ s' = options_ s /\
  input_type_ s' = input_type_ s /\
  is_eof_ s' = is_eof_ s /\
  bler_average_ s' = bler_average_ s.
Proof.
  unfold AcquireSync.
  destruct (is_in_sync_ s) eqn:Hsync; [intros [= <- <-]; by rewrite Hsync|].
  case_decide as Hrecv; [|intros [= <- <-]; by rewrite Hsync].
  destruct (AcquireSync_cond s) as [[]|]; cbn [mbind option_bind];
    [| |done]; intros [= <- <-]; fields; by repeat split.
Qed.

Lemma AcquireSync_cond_total (s : BlockStream) :
  prevsync_ s <> invalid -> received_offset_ s <> invalid ->
  is_Some (AcquireSync_cond s).
Proof.
  intros Hprev Hrecv. unfold AcquireSync_cond.
  destruct (negb _); [done|]. destruct (negb _); [done|].
  destruct (BlockNumberForOffset_valid _ Hprev) as [? ->].
  by destruct (BlockNumberForOffset_valid _ Hrecv) as [? ->].
Qed.

(** [AcquireSync] never fails when the anchor offset is valid, and keeps
    the state well formed. *)
Lemma AcquireSync_inv (s : BlockStream) :
  BlockStream_inv s ->
  exists (s' : BlockStream) (synced : bool),
    AcquireSync s = Some (s', synced) /\ BlockStream_inv s'.
Proof.
  intros Hinv. unfold AcquireSync.
  destruct (is_in_sync_ s) eqn:Hsync; [by exists s, true|].
  case_decide as Hrecv; [|by exists s, false].
  destruct (AcquireSync_cond_total s (inv_prevsync _ Hinv) Hrecv)
    as [lock ->].
  cbn [mbind option_bind]. do 2 eexists. split; [reflexivity|].
  destruct Hinv. destruct lock; split; fields; try done; lia.
Qed.

Lemma PushBit_classify_inv (s : BlockStream) (bit : bool) :
  BlockStream_inv s ->
  BlockStream_inv (PushBit_classify (PushBit_shift s bit)) /\
  prevbitcount_ (PushBit_classify (PushBit_shift s bit)) <
    bitcount_ (PushBit_classify (PushBit_shift s bit)).
Proof.
  intros []. unfold PushBit_classify, PushBit_shift.
  split; [split|]; fields; try done; lia.
Qed.

Lemma PushBit_advance_inv (s : BlockStream) :
  BlockStream_inv s -> BlockStream_inv (PushBit_advance s).
Proof.
  intros []. unfold PushBit_advance.
  split; case_decide; fields; try done; apply NextOffsetFor_valid.
Qed.

(** [PushBit] never fails on a well-formed state and keeps it well formed. *)
Lemma PushBit_inv (s : BlockStream) (bit : bool) :
  BlockStream_inv s ->
  exists s' : BlockStream, PushBit s bit = Some s' /\ BlockStream_inv s'.
Proof.
  intros Hinv. unfold PushBit.
  destruct (PushBit_classify_inv s bit Hinv) as [Hinv0 _].
  case_match.
  - eexists. split; [reflexivity|].
    destruct Hinv. split; unfold PushBit_shift; fields; try done. lia.
  - destruct (AcquireSync_inv _ Hinv0) as (s1 & synced & -> & Hinv1).
    cbn [mbind option_bind]. destruct synced.
    + destruct (PushBit_decode_total s1 (PushBit_block (PushBit_shift s bit))
                  Hinv1) as [s2 Hdec].
      rewrite Hdec. cbn [mbind option_bind]. eexists. split; [reflexivity|].
      apply PushBit_advance_inv. by eapply PushBit_decode_inv.
    + eexists. split; [reflexivity|]. destruct Hinv1. by split.
Qed.

Lemma reachable_inv (s : BlockStream) : reachable s -> BlockStream_inv s.
Proof.
  induction 1 as [options|s s' bit _ IH Hpush|s _ IH].
  - split; cbn; try done.
    + unfold RunningSum_wf. cbn. lia.
    + apply Forall_forall. intros x Hx%list_elem_of_In.
      change (In x (repeat 0 50)) in Hx. apply repeat_spec in Hx. tauto.
  - destruct (PushBit_inv s bit IH) as (s'' & Heq & Hinv). congruence.
  - destruct IH. by split.
Qed.

Lemma reachable_PushBits (bits : list bool) :
  forall s s' : BlockStream,
    reachable s -> PushBits s bits = Some s' -> reachable s'.
Proof.
  induction bits as [|bit bits IH]; intros s s' Hs; cbn [PushBits].
  - by intros [= <-].
  - destruct (PushBit s bit) as [s1|] eqn:H1; [|done]. cbn.
    apply IH. by eapply reachable_PushBit.
Qed.

(** No run of a decoder ever fails: every table read is in range. *)
Lemma PushBits_total (bits : list bool) :
  forall s : BlockStream,
    reachable s -> exists s' : BlockStream, PushBits s bits = Some s'.
Proof.
  induction bits as [|bit bits IH]; intros s Hs; cbn [PushBits]; [by eexists|].
  destruct (PushBit_inv s bit (reachable_inv s Hs)) as (s1 & H1 & _).
  rewrite H1. cbn [mbind option_bind]. apply IH.
  by eapply reachable_PushBit.
Qed.

Lemma mbind_Some {T U : Type} (f : T -> option U) (a : T) :
  Some a ≫= f = f a.
Proof. reflexivity. Qed.

Lemma PushBits_app (bits1 bits2 : list bool) :
  forall s : BlockStream,
    PushBits s (bits1 ++ bits2) = s' ← PushBits s bits1; PushBits s' bits2.
Proof.
  induction bits1 as [|bit bits1 IH]; intros s; cbn [PushBits app]; [done|].
  destruct (PushBit s bit) as [s1|]; cbn [mbind option_bind]; [apply IH|done].
Qed.

(** ** The queue of completed groups *)

(** A call of [PushBit] leaves the queue alone or appends one group. *)
Lemma PushBit_groups (s s' : BlockStream) (bit : bool) :
  PushBit s bit = Some s' ->
  groups_ s' = groups_ s \/ exists g : Group, groups_ s' = groups_ s ++ [g].
Proof.
  unfold PushBit. case_match; [intros [= <-]; by left|].
  destruct (AcquireSync _) as [[s1 synced]|] eqn:Hacq; [|done].
  apply AcquireSync_frame in Hacq as (_ & _ & _ & _ & _ & _ & _ & _ & Hg1 & _).
  change (groups_ s1 = groups_ s) in Hg1. cbn [mbind option_bind].
  destruct synced; [|intros [= <-]; by left].
  destruct (PushBit_decode _ _) as [s2|] eqn:Hdec; [|done].
  apply PushBit_decode_frame in Hdec as [].
  cbn [mbind option_bind]. intros [= <-].
  assert (Hg2 : groups_ s2 = groups_ s) by (fields; congruence).
  unfold PushBit_advance. case_decide; fields; rewrite Hg2; [right|by left].
  by eexists.
Qed.

(** C9. [PopGroups] returns the queue of completed groups as it stands,
    that is in the order of arrival, since [PushBit] only ever appends a
    completed group behind the ones already queued; it leaves the queue
    empty and every other member of the decoder as it was. *)
Theorem PopGroups_drains (s : BlockStream) :
  (PopGroups s).1 = groups_ s /\
  groups_ (PopGroups s).2 = [] /\
  (let s' := (PopGroups s).2 in
   bitcount_ s' = bitcount_ s /\
   prevbitcount_ s' = prevbitcount_ s /\
   left_to_read_ s' = left_to_read_ s /\
   input_register_ s' = input_register_ s /\
   prevsync_ s' = prevsync_ s /\
   expected_offset_ s' = expected_offset_ s /\
   received_offset_ s' = received_offset_ s /\
   pi_ s' = pi_ s /\
   is_in_sync_ s' = is_in_sync_ s /\
   block_error_sum_ s' = block_error_sum_ s /\
   options_ s' = options_ s /\
   input_type_ s' = input_type_ s /\
   is_eof_ s' = is_eof_ s /\
   bler_average_ s' = bler_average_ s /\
   current_group_ s' = current_group_ s) /\
  (forall (bit : bool) (s1 : BlockStream),
      PushBit s bit = Some s1 ->
      (PopGroups s1).1 = groups_ s \/
      exists g : Group, (PopGroups s1).1 = groups_ s ++ [g]).
Proof.
  split; [done|]. split; [done|]. split; [by repeat split|].
  intros bit s1. apply PushBit_groups.
Qed.

(** ** The expected offset is always valid *)

(** C10. In every state the decoder reaches, [expected_offset_] is a valid
    offset; no call of [PushBit] fails, so that every block number looked
    up for a group slot exists; and inside a call the offset is valid after
    [AcquireSync] and when it is handed to [NextOffsetFor], whose entry for
    [invalid] is therefore never used. *)
Theorem expected_offset_valid (s : BlockStream) (bit : bool) :
  reachable s ->
  expected_offset_ s <> invalid /\
  (exists s' : BlockStream,
      PushBit s bit = Some s' /\ expected_offset_ s' <> invalid) /\
  (forall s1 : BlockStream,
      AcquireSync (PushBit_classify (PushBit_shift s bit)) = Some (s1, true) ->
      expected_offset_ s1 <> invalid /\
      exists s2 : BlockStream,
        PushBit_decode s1 (PushBit_block (PushBit_shift s bit)) = Some s2 /\
        expected_offset_ s2 <> invalid /\
        (exists n : eBlockNumber,
            BlockNumberForOffset (expected_offset_ s2) = Some n) /\
        In (NextOffsetFor (expected_offset_ s2)) [A; B; C; D]).
Proof.
  intros Hinv%reachable_inv.
  split; [apply Hinv|]. split.
  - destruct (PushBit_inv s bit Hinv) as (s' & Hs' & Hinv').
    exists s'. split; [done|apply Hinv'].
  - intros s1 Hacq.
    destruct (PushBit_classify_inv s bit Hinv) as [Hinv0 _].
    destruct (AcquireSync_inv _ Hinv0) as (s1' & synced & Heq & Hinv1).
    rewrite Hacq in Heq. injection Heq as <- <-.
    split; [apply Hinv1|].
    destruct (PushBit_decode_total s1 (PushBit_block (PushBit_shift s bit))
                Hinv1) as [s2 Hdec].
    exists s2. split; [done|].
    destruct (PushBit_decode_inv _ _ _ Hinv1 Hdec) as [Hinv2 _].
    pose proof (inv_expected _ Hinv2) as Hexp.
    split; [done|]. split; [by apply BlockNumberForOffset_valid|].
    destruct (expected_offset_ s2); cbn; tauto.
Qed.

(** ** Sync acquisition *)

(** Where [PushBit] calls [AcquireSync], the anchor lies strictly in the
    past and its offset is valid. *)
Lemma AcquireSync_call_site (s : BlockStream) (bit : bool) :
  reachable s ->
  let s0 := PushBit_classify (PushBit_shift s bit) in
  prevbitcount_ s0 < bitcount_ s0 /\ prevsync_ s0 <> invalid.
Proof.
  intros Hinv%reachable_inv s0.
  destruct (PushBit_classify_inv s bit Hinv) as [[] Hlt]. by split.
Qed.


(** ** Bit ingestion *)

(** The candidate block is made of the 26 bits that were in the low end of
    the accumulator before the current bit was shifted in. *)
Lemma PushBit_block_shift (s : BlockStream) (bit : bool) :
  PushBit_block (PushBit_shift s bit) = Z.land (input_register_ s) kBitmask26.
Proof.
  unfold PushBit_block, PushBit_shift, to_u32. fields.
  change kBitmask26 with (Z.ones 26). rewrite !Z.land_ones by lia.
  rewrite Z.shiftr_div_pow2, Z.shiftl_mul_pow2 by lia.
  change (2 ^ 1) with 2.
  generalize (input_register_ s). intros r.
  assert (Hb : 0 <= Z.b2z bit <= 1) by (destruct bit; cbn; lia).
  generalize dependent (Z.b2z bit). intros b Hb.
  change (2 ^ 32) with 4294967296. change (2 ^ 26) with 67108864.
  Z.div_mod_to_equations. lia.
Qed.

Lemma decode_start_fields (s : BlockStream) :
  expected_offset_ (decode_start s) = decode_offset s /\
  received_offset_ (decode_start s) = received_offset_ s /\
  is_in_sync_ (decode_start s) = is_in_sync_ s /\
  block_error_sum_ (decode_start s) = block_error_sum_ s /\
  pi_ (decode_start s) = pi_ s /\
  current_group_ (decode_start s) = current_group_ s.
Proof. unfold decode_start, decode_offset. by case_decide. Qed.

(** What the decoding of a block does to the sync flag, the error window
    and the cached PI. *)
Lemma PushBit_decode_sync (s s2 : BlockStream) (block : Z) :
  PushBit_decode s block = Some s2 ->
  exists w : RunningSum.t,
    RunningSum.push (block_error_sum_ s)
      (Z.b2z (bool_decide (received_offset_ s <> decode_offset s))) = Some w /\
    if bool_decide (uncorrectable s block) && is_in_sync_ s &&
       (45 <? Zsum (RunningSum_window w))
    then is_in_sync_ s2 = false /\ pi_ s2 = 0 /\
         block_error_sum_ s2 = RunningSum.clear w
    else is_in_sync_ s2 = is_in_sync_ s /\ block_error_sum_ s2 = w.
Proof.
  unfold PushBit_decode, uncorrectable. fold (decode_start s).
  destruct (decode_start_fields s) as (Hexp & Hrecv & Hsync & Hsum & _).
  set (s1 := decode_start s) in *. rewrite Hrecv, Hexp, Hsum.
  set (o := decode_offset s) in *.
  destruct (RunningSum.push _ _) as [w|]; [|done]. cbn [mbind option_bind].
  intros Hstore. exists w. split; [done|].
  set (s1w := set_block_error_sum_ w s1) in *.
  assert (H1w : expected_offset_ s1w = o /\
                received_offset_ s1w = received_offset_ s /\
                is_in_sync_ s1w = is_in_sync_ s /\
                block_error_sum_ s1w = w) by (subst s1w; by fields).
  destruct H1w as (Hexp' & Hrecv' & Hsync' & Hsum').
  case_bool_decide as Herr; cbn [Z.b2z] in Hstore.
  - (* the block had errors *)
    unfold PushBit_correct in Hstore. rewrite Hexp' in Hstore.
    destruct (decide (CorrectBurstErrors block o <> block)) as [Hcorr|Hsame].
    + (* corrected *)
      revert Hstore.
      generalize (to_u16 (Z.shiftr (CorrectBurstErrors block o) 10)).
      intros m Hstore. fields. rewrite Hexp' in Hstore.
      rewrite decide_False in Hstore by (intros H; by apply H).
      cbn [mbind option_bind] in Hstore.
      apply PushBit_store_frame in Hstore as (_ & _ & Hs & Hw).
      fields. rewrite bool_decide_eq_false_2 by (intros [_ H]; exact (Hcorr H)).
      cbn [andb]. split; congruence.
    + (* left unchanged by the table *)
      apply dec_stable in Hsame.
      rewrite Hrecv', Hexp', decide_True in Hstore by exact Herr.
      assert (Hnostore : forall t : BlockStream,
                 received_offset_ t <> expected_offset_ t ->
                 PushBit_store t (to_u16 (Z.shiftr block 10)) true = Some t).
      { intros t Ht. unfold PushBit_store.
        rewrite decide_False by exact Ht. reflexivity. }
      rewrite bool_decide_eq_true_2 by (split; assumption). cbn [andb].
      unfold Uncorrectable in Hstore. rewrite Hsync', Hsum' in Hstore.
      destruct (is_in_sync_ s); cbn [andb].
      * destruct (RunningSum.sum w) as [errors|] eqn:Herrors;
          cbn [mbind option_bind] in Hstore; [|done].
        apply RunningSum_sum_Some in Herrors as ->.
        destruct (45 <? Zsum (RunningSum_window w));
          cbn [mbind option_bind] in Hstore.
        -- rewrite Hnostore in Hstore by (fields; congruence).
           injection Hstore as <-. fields. repeat split; reflexivity.
        -- rewrite Hnostore in Hstore by congruence.
           injection Hstore as <-. split; congruence.
      * cbn [mbind option_bind] in Hstore.
        rewrite Hnostore in Hstore by congruence.
        injection Hstore as <-. split; congruence.
  - (* no error *)
    cbn [mbind option_bind] in Hstore.
    apply PushBit_store_frame in Hstore as (_ & _ & Hs & Hw).
    rewrite bool_decide_eq_false_2 by (intros [H _]; exact (H Herr)).
    cbn [andb]. split; congruence.
Qed.

(** After a lock the block at hand is decoded without error. *)
Lemma AcquireSync_lock_fields (s s1 : BlockStream) :
  is_in_sync_ s = false -> AcquireSync s = Some (s1, true) ->
  expected_offset_ s1 = received_offset_ s1 /\ is_in_sync_ s1 = true.
Proof.
  intros Hsync Hacq.
  destruct (AcquireSync_frame _ _ _ Hacq) as (Hs1 & _). split; [|done].
  revert Hacq. unfold AcquireSync. rewrite Hsync. case_decide.
  - destruct (AcquireSync_cond s) as [[]|]; cbn [mbind option_bind].
    + intros [= <-]. by fields.
    + intros [= <- Hs]; fields; congruence.
    + done.
  - intros [= <- Hs]; congruence.
Qed.

Lemma PushBit_advance_fields (s : BlockStream) :
  left_to_read_ (PushBit_advance s) = 26 /\
  is_in_sync_ (PushBit_advance s) = is_in_sync_ s /\
  pi_ (PushBit_advance s) = pi_ s /\
  block_error_sum_ (PushBit_advance s) = block_error_sum_ s /\
  expected_offset_ (PushBit_advance s) = NextOffsetFor (expected_offset_ s) /\
  input_register_ (PushBit_advance s) = input_register_ s.
Proof. unfold PushBit_advance. by case_decide. Qed.

Lemma decode_offset_locked (s : BlockStream) :
  expected_offset_ s = received_offset_ s ->
  decode_offset s = received_offset_ s.
Proof.
  unfold decode_offset. intros Heq. case_decide as H; [|done].
  destruct H as [H1 H2]. congruence.
Qed.

(** [AcquireSync] when it does not lock: only the anchor may move. *)
Lemma AcquireSync_false (s s' : BlockStream) :
  AcquireSync s = Some (s', false) ->
  is_in_sync_ s = false /\ is_in_sync_ s' = false /\
  expected_offset_ s' = expected_offset_ s /\
  current_group_ s' = current_group_ s /\
  ((prevsync_ s' = prevsync_ s /\ prevbitcount_ s' = prevbitcount_ s) \/
   (received_offset_ s <> invalid /\
    prevsync_ s' = received_offset_ s /\ prevbitcount_ s' = bitcount_ s)).
Proof.
  unfold AcquireSync.
  destruct (is_in_sync_ s) eqn:Hsync; [intros [= _ H]; discriminate H|].
  case_decide as Hrecv.
  - destruct (AcquireSync_cond s) as [[]|]; cbn [mbind option_bind];
      [intros [= _ H]; fields; discriminate H| |done].
    first [intros [= <- _]|intros [= <-]]. fields.
    repeat split; try done. right. by repeat split.
  - first [intros [= <- _]|intros [= <-]]. repeat split; try done. by left.
Qed.

(** [AcquireSync] when it locks. *)
Lemma AcquireSync_lock (s s' : BlockStream) :
  is_in_sync_ s = false ->
  AcquireSync s = Some (s', true) ->
  received_offset_ s <> invalid /\
  s' = set_current_group_ Group_new
         (set_expected_offset_ (received_offset_ s) (set_is_in_sync_ true s)).
Proof.
  intros Hsync. unfold AcquireSync. rewrite Hsync.
  case_decide as Hrecv.
  - destruct (AcquireSync_cond s) as [[]|]; cbn [mbind option_bind].
    + intros [= <-]. split; [exact Hrecv|reflexivity].
    + intros [= _ H]. fields. congruence.
    + done.
  - by intros [=].
Qed.

(** The three ways a call of [PushBit] ends: inside a unit; at the end of a
    unit, out of sync; at the end of a unit, with the block decoded. *)
Lemma PushBit_step (s s' : BlockStream) (bit : bool) :
  PushBit s bit = Some s' ->
  let s0 := PushBit_classify (PushBit_shift s bit) in
  (1 < left_to_read_ s /\ s' = PushBit_shift s bit) \/
  (left_to_read_ s <= 1 /\
   exists s1 : BlockStream,
     AcquireSync s0 = Some (s1, false) /\ s' = set_left_to_read_ 1 s1) \/
  (left_to_read_ s <= 1 /\
   exists s1 s3 : BlockStream,
     AcquireSync s0 = Some (s1, true) /\
     PushBit_decode s1 (Z.land (input_register_ s) kBitmask26) = Some s3 /\
     s' = PushBit_advance s3).
Proof.
  intros Hpush s0. revert Hpush. unfold PushBit. fold s0.
  rewrite PushBit_block_shift.
  case_match eqn:Hl.
  - intros [= <-]. left. split; [|done].
    apply Z.ltb_lt in Hl. unfold PushBit_shift in Hl. fields. lia.
  - apply Z.ltb_ge in Hl. unfold PushBit_shift in Hl. fields.
    destruct (AcquireSync s0) as [[s1 []]|]; cbn [mbind option_bind];
      [| |done].
    + destruct (PushBit_decode _ _) as [s3|] eqn:Hdec;
        cbn [mbind option_bind]; [|done].
      intros [= <-]. right. right. split; [lia|]. by exists s1, s3.
    + intros [= <-]. right. left. split; [lia|]. by exists s1.
Qed.

(** The state handed to [AcquireSync], member by member. *)
Lemma PushBit_classify_fields (s : BlockStream) (bit : bool) :
  let s0 := PushBit_classify (PushBit_shift s bit) in
  received_offset_ s0 =
    OffsetForSyndrome
      (to_u16 (CalculateSyndrome (Z.land (input_register_ s) kBitmask26))) /\
  is_in_sync_ s0 = is_in_sync_ s /\
  expected_offset_ s0 = expected_offset_ s /\
  current_group_ s0 = current_group_ s /\
  groups_ s0 = groups_ s /\
  pi_ s0 = pi_ s /\
  block_error_sum_ s0 = block_error_sum_ s /\
  prevsync_ s0 = prevsync_ s /\
  prevbitcount_ s0 = prevbitcount_ s /\
  bitcount_ s0 = bitcount_ s + 1 /\
  input_register_ s0 = shift_register (input_register_ s) bit.
Proof.
  intros s0. subst s0. unfold PushBit_classify.
  rewrite PushBit_block_shift. unfold PushBit_shift. by fields.
Qed.

(** The store of a word when the block matches the offset it is decoded
    against. *)
Lemma PushBit_store_match (s s' : BlockStream) (message : Z)
    (had_errors : bool) :
  received_offset_ s = expected_offset_ s ->
  PushBit_store s message had_errors = Some s' ->
  exists g : Group,
    Group_store (current_group_ s) (expected_offset_ s) message had_errors
      = Some g /\
    current_group_ s' = g /\
    pi_ s' = (if Group_has_pi g then Group_pi g else pi_ s).
Proof.
  intros Heq. unfold PushBit_store, Group_store.
  rewrite decide_True by exact Heq.
  case_decide.
  - cbn [mbind option_bind]. intros [= <-]. eexists. split; [reflexivity|].
    fields. case_match; by fields.
  - destruct (BlockNumberForOffset _) as [n|]; [|done].
    cbn [mbind option_bind]. intros [= <-]. eexists. split; [reflexivity|].
    fields. case_match; by fields.
Qed.

(** What the decoding of a block does to the current group, to the cached
    PI and to [received_offset_]: an uncorrectable block leaves the group
    alone; any other block is stored, after correction if it had errors. *)
Lemma PushBit_decode_group (s s2 : BlockStream) (block : Z) :
  PushBit_decode s block = Some s2 ->
  let o := decode_offset s in
  let had_errors := bool_decide (received_offset_ s <> o) in
  if bool_decide (uncorrectable s block)
  then current_group_ s2 = current_group_ s /\
       (is_in_sync_ s2 = is_in_sync_ s -> pi_ s2 = pi_ s) /\
       received_offset_ s2 = received_offset_ s
  else exists g : Group,
         Group_store (current_group_ s) o
           (to_u16 (Z.shiftr (if had_errors then CorrectBurstErrors block o
                              else block) 10)) had_errors = Some g /\
         current_group_ s2 = g /\
         pi_ s2 = (if Group_has_pi g then Group_pi g else pi_ s) /\
         received_offset_ s2 = o.
Proof.
  unfold PushBit_decode, uncorrectable. fold (decode_start s).
  destruct (decode_start_fields s) as (Hexp & Hrecv & Hsync & Hsum & Hpi & Hcur).
  set (s1 := decode_start s) in *. rewrite Hrecv, Hexp.
  set (o := decode_offset s) in *.
  destruct (RunningSum.push _ _) as [w|]; [|done]. cbn [mbind option_bind].
  intros Hstore.
  set (s1w := set_block_error_sum_ w s1) in *.
  assert (H1w : expected_offset_ s1w = o /\
                received_offset_ s1w = received_offset_ s /\
                is_in_sync_ s1w = is_in_sync_ s /\
                pi_ s1w = pi_ s /\
                current_group_ s1w = current_group_ s) by (subst s1w; by fields).
  destruct H1w as (Hexp' & Hrecv' & Hsync' & Hpi' & Hcur').
  cbv zeta.
  case_bool_decide as Herr; cbn [Z.b2z] in Hstore.
  - unfold PushBit_correct in Hstore. rewrite Hexp' in Hstore.
    destruct (decide (CorrectBurstErrors block o <> block)) as [Hcorr|Hsame].
    + revert Hstore.
      generalize (to_u16 (Z.shiftr (CorrectBurstErrors block o) 10)).
      intros m Hstore. fields. rewrite Hexp' in Hstore.
      rewrite decide_False in Hstore by (intros H; by apply H).
      cbn [mbind option_bind] in Hstore.
      pose proof Hstore as Hst.
      apply PushBit_store_match in Hstore as (g & Hg & Hc & Hp);
        [|fields; by rewrite Hexp'].
      fields. rewrite Hexp', Hcur' in Hg. rewrite Hpi' in Hp.
      rewrite bool_decide_eq_false_2 by (intros [_ H]; exact (Hcorr H)).
      exists g. split; [exact Hg|]. split; [exact Hc|]. split; [exact Hp|].
      apply PushBit_store_frame in Hst as (_ & -> & _). by fields.
    + apply dec_stable in Hsame.
      rewrite Hrecv', Hexp', decide_True in Hstore by exact Herr.
      assert (Hnostore : forall t : BlockStream,
                 received_offset_ t <> expected_offset_ t ->
                 PushBit_store t (to_u16 (Z.shiftr block 10)) true = Some t).
      { intros t Ht. unfold PushBit_store.
        rewrite decide_False by exact Ht. reflexivity. }
      rewrite bool_decide_eq_true_2 by (split; assumption).
      unfold Uncorrectable in Hstore. rewrite Hsync' in Hstore.
      destruct (is_in_sync_ s) eqn:Hs.
      * destruct (RunningSum.sum _) as [errors|];
          cbn [mbind option_bind] in Hstore; [|done].
        destruct (45 <? errors); cbn [mbind option_bind] in Hstore.
        -- rewrite Hnostore in Hstore by (fields; congruence).
           injection Hstore as <-. fields.
           split; [congruence|]. split; [discriminate|congruence].
        -- rewrite Hnostore in Hstore by congruence.
           injection Hstore as <-. split; [congruence|]. split; congruence.
      * cbn [mbind option_bind] in Hstore.
        rewrite Hnostore in Hstore by congruence.
        injection Hstore as <-. split; [congruence|]. split; congruence.
  - rewrite bool_decide_eq_false_2 by (intros [H _]; exact (H Herr)).
    cbn [mbind option_bind] in Hstore.
    pose proof Hstore as Hst.
    apply PushBit_store_match in Hstore as (g & Hg & Hc & Hp);
      [|by rewrite Hexp', Hrecv'].
    rewrite Hexp', Hcur' in Hg. rewrite Hpi' in Hp.
    exists g. split; [exact Hg|]. split; [exact Hc|]. split; [exact Hp|].
    apply PushBit_store_frame in Hst as (_ & -> & _). congruence.
Qed.

(** After the decoding of a block [received_offset_] holds the
    classification of the block, or, if the block was corrected, the offset
    it was corrected against. *)
Lemma PushBit_decode_received (s s2 : BlockStream) (block : Z) :
  PushBit_decode s block = Some s2 ->
  received_offset_ s2 = received_offset_ s \/
  (received_offset_ s2 = decode_offset s /\
   CorrectBurstErrors block (decode_offset s) <> block).
Proof.
  intros Hdec. pose proof (PushBit_decode_group _ _ _ Hdec) as H.
  cbv zeta in H. case_bool_decide as Hunc.
  - left. apply H.
  - destruct H as (g & _ & _ & _ & Hrecv).
    destruct (decide (received_offset_ s = decode_offset s)) as [Heq|Hne];
      [left; congruence|right].
    split; [exact Hrecv|]. intros Hsame. apply Hunc. by split.
Qed.

(** C2, as the code has it.  Every call of [PushBit] shifts the bit into the
    accumulator and counts it.  While more than one bit of the unit is
    missing the call only decrements the counter besides.  The call that
    takes the counter to zero classifies the candidate block made of bits 1
    to 26 of the accumulator, that is the low 26 bits the accumulator had
    before the current bit came in (the 26 bits pushed before the most
    recent one): this block is what goes to [AcquireSync], as its
    classification, and to the decoding, and after the call
    [received_offset_] holds its classification, or the offset it was
    corrected against.  The unit that follows is 26 bits when the decoder
    is in sync after the block, and 1 bit when it was out of sync before the
    block and still is. *)
Theorem PushBit_ingestion (s : BlockStream) (bit : bool) :
  let register := to_u32 (Z.shiftl (input_register_ s) 1 + Z.b2z bit) in
  let shifted :=
    set_bitcount_ (bitcount_ s + 1)
      (set_left_to_read_ (left_to_read_ s - 1)
         (set_input_register_ register s)) in
  let block := Z.land (input_register_ s) kBitmask26 in
  let offset := OffsetForSyndrome (to_u16 (CalculateSyndrome block)) in
  (forall s' : BlockStream,
      PushBit s bit = Some s' ->
      input_register_ s' = register /\ bitcount_ s' = bitcount_ s + 1) /\
  (1 < left_to_read_ s -> PushBit s bit = Some shifted) /\
  (left_to_read_ s <= 1 ->
   block = Z.land (Z.shiftr register 1) kBitmask26 /\
   PushBit s bit =
     ('(s1, synced) ← AcquireSync (set_received_offset_ offset shifted);
      if synced : bool
      then s2 ← PushBit_decode s1 block; Some (PushBit_advance s2)
      else Some (set_left_to_read_ 1 s1)) /\
   (forall s' : BlockStream,
       PushBit s bit = Some s' ->
       (received_offset_ s' = offset \/
        CorrectBurstErrors block (received_offset_ s') <> block) /\
       (is_in_sync_ s' = true -> left_to_read_ s' = 26) /\
       (is_in_sync_ s = false -> is_in_sync_ s' = false ->
        left_to_read_ s' = 1 /\ received_offset_ s' = offset))).
Proof.
  intros register shifted block offset.
  assert (Hshift : PushBit_shift s bit = shifted) by reflexivity.
  assert (Hblock : PushBit_block shifted = block)
    by (rewrite <- Hshift; apply PushBit_block_shift).
  assert (Hclass : PushBit_classify (PushBit_shift s bit) =
                   set_received_offset_ offset shifted).
  { unfold PushBit_classify. by rewrite Hshift, Hblock. }
  assert (Hfields : forall s' : BlockStream,
             PushBit s bit = Some s' ->
             (input_register_ s' = register /\ bitcount_ s' = bitcount_ s + 1) /\
             (left_to_read_ s <= 1 ->
              (received_offset_ s' = offset \/
               CorrectBurstErrors block (received_offset_ s') <> block) /\
              (is_in_sync_ s' = true -> left_to_read_ s' = 26) /\
              (is_in_sync_ s = false -> is_in_sync_ s' = false ->
               left_to_read_ s' = 1 /\ received_offset_ s' = offset))).
  { intros s' Hpush.
    destruct (PushBit_classify_fields s bit)
      as (Hr0 & Hs0 & _ & _ & _ & _ & _ & _ & _ & Hb0 & Hi0).
    fold block in Hr0. fold offset in Hr0.
    change (shift_register (input_register_ s) bit) with register in Hi0.
    destruct (PushBit_step _ _ _ Hpush)
      as [[Hl ->]|[(Hl & s1 & Hacq & ->)|(Hl & s1 & s3 & Hacq & Hdec & ->)]].
    - rewrite Hshift. subst shifted. fields. split; [by split|]. lia.
    - pose proof (AcquireSync_frame _ _ _ Hacq)
        as (_ & _ & Hbc & _ & Hreg & Hrecv & _).
      apply AcquireSync_false in Hacq as (_ & Hu & _).
      fields. rewrite Hreg, Hbc, Hrecv, Hi0, Hb0, Hr0.
      split; [by split|]. intros _. split; [by left|].
      split; [congruence|]. by intros _ _.
    - pose proof (AcquireSync_frame _ _ _ Hacq)
        as (Hsy & Hsame & Hbc & _ & Hreg & Hrecv & _).
      fold block in Hdec.
      pose proof (PushBit_decode_frame _ _ _ Hdec) as Hfr.
      destruct Hfr as [Hbc3 _ _ Hreg3 _ Hexp3 _ _ _ _ _ _ _ _]. fields.
      destruct (PushBit_advance_fields s3) as (Hl3 & Hs3 & _ & _ & _ & Hi3).
      assert (Hb3 : bitcount_ (PushBit_advance s3) = bitcount_ s3)
        by (unfold PushBit_advance; by case_decide).
      assert (Hr3 : received_offset_ (PushBit_advance s3) = received_offset_ s3)
        by (unfold PushBit_advance; by case_decide).
      rewrite Hi3, Hb3, Hr3, Hreg3, Hbc3, Hreg, Hbc, Hi0, Hb0.
      split; [by split|]. intros _. split; [|split].
      + destruct (PushBit_decode_received _ _ _ Hdec) as [->|[-> Hcorr]].
        * left. congruence.
        * right. exact Hcorr.
      + by intros _.
      + intros Hu Hu'. exfalso. rewrite <- Hs0 in Hu.
        destruct (AcquireSync_lock_fields _ _ Hu Hacq) as [Hexp Hsync1].
        destruct (PushBit_decode_sync _ _ _ Hdec) as (w & _ & Hif).
        rewrite bool_decide_eq_false_2 in Hif.
        * cbn [andb] in Hif. destruct Hif as [Hif _]. congruence.
        * intros [Hne _]. apply Hne. symmetry.
          by apply decode_offset_locked. }
  split; [intros s' Hpush; apply (Hfields s' Hpush)|]. split.
  { intros Hl. unfold PushBit. rewrite Hshift.
    assert (H : (0 <? left_to_read_ shifted) = true)
      by (apply Z.ltb_lt; subst shifted; fields; lia).
    by rewrite H. }
  intros Hl. split; [|split].
  - rewrite <- Hblock. unfold PushBit_block. subst shifted. by fields.
  - unfold PushBit. rewrite Hclass, Hshift, Hblock.
    assert (H : (0 <? left_to_read_ shifted) = false)
      by (apply Z.ltb_ge; subst shifted; fields; lia).
    by rewrite H.
  - intros s' Hpush. apply (Hfields s' Hpush). exact Hl.
Qed.


(** ** Loss of synchronisation *)

(** C6, as the code has it.  A decoder in sync goes out of sync in a call of
    [PushBit] exactly when the call completes a block, the block does not
    match the offset it is decoded against even after the correction
    attempt, and the error window, the flag of this block included, sums to
    more than 45.  The transition clears the window and resets the cached PI
    to 0; [PopGroups] never changes the sync flag.  So 46 or more flagged
    blocks among the last 50 make the decoder drop sync at a block that is
    itself uncorrectable. *)
Theorem sync_lost_exactly (s s' : BlockStream) (bit : bool) :
  is_in_sync_ s = true ->
  PushBit s bit = Some s' ->
  let s1 := PushBit_classify (PushBit_shift s bit) in
  let block := PushBit_block (PushBit_shift s bit) in
  let errors :=
    Zsum (drop 1 (RunningSum_window (block_error_sum_ s)) ++ [1]) in
  (is_in_sync_ s' = false <->
   left_to_read_ s <= 1 /\ uncorrectable s1 block /\ 45 < errors) /\
  (is_in_sync_ s' = false ->
   pi_ s' = 0 /\
   Forall (fun x => x = 0) (RunningSum.history_ (block_error_sum_ s'))) /\
  is_in_sync_ (PopGroups s).2 = true.
Proof.
  intros Hsync Hpush s1 block errors.
  split; [|split]; [| |exact Hsync]; revert Hpush; unfold PushBit;
    fold block; fold s1.
  - (* when *)
    case_match eqn:Hl.
    { intros [= <-]. unfold PushBit_shift. fields. rewrite Hsync.
      apply Z.ltb_lt in Hl. unfold PushBit_shift in Hl. fields.
      split; [done|]. intros (? & _). lia. }
    apply Z.ltb_ge in Hl. unfold PushBit_shift in Hl. fields.
    assert (Hacq : AcquireSync s1 = Some (s1, true)).
    { unfold AcquireSync. assert (H1 : is_in_sync_ s1 = true) by exact Hsync.
      by rewrite H1. }
    rewrite Hacq. cbn [mbind option_bind].
    destruct (PushBit_decode s1 block) as [s3|] eqn:Hdec; [|done].
    cbn [mbind option_bind]. intros [= <-].
    destruct (PushBit_advance_fields s3) as (_ & -> & _).
    destruct (PushBit_decode_sync _ _ _ Hdec) as (w & Hw & Hif).
    assert (Hs1 : is_in_sync_ s1 = true) by exact Hsync.
    assert (Hw1 : block_error_sum_ s1 = block_error_sum_ s) by reflexivity.
    rewrite Hs1, Hw1 in *. clear Hs1 Hw1.
    case_bool_decide as Hunc; cbn [andb] in Hif.
    + destruct Hunc as [Hne Hcbe].
      rewrite bool_decide_eq_true_2 in Hw by exact Hne. cbn [Z.b2z] in Hw.
      apply RunningSum_push_Some in Hw as (_ & _ & _ & Hwin).
      assert (Hsum : Zsum (RunningSum_window w) = errors)
        by (rewrite Hwin; reflexivity).
      rewrite Hsum in Hif.
      destruct (Z.ltb_spec 45 errors) as [Hgt|Hle].
      * destruct Hif as (-> & _). split; [|reflexivity].
        intros _. split; [lia|]. split; [split; assumption|exact Hgt].
      * destruct Hif as (-> & _). split; [discriminate|].
        intros (_ & _ & ?). lia.
    + destruct Hif as (-> & _). split; [discriminate|].
      intros (_ & Hu & _). exfalso. exact (Hunc Hu).
  - (* what it resets *)
    case_match eqn:Hl.
    { intros [= <-]. unfold PushBit_shift. fields. congruence. }
    assert (Hacq : AcquireSync s1 = Some (s1, true)).
    { unfold AcquireSync. assert (H1 : is_in_sync_ s1 = true) by exact Hsync.
      by rewrite H1. }
    rewrite Hacq. cbn [mbind option_bind].
    destruct (PushBit_decode s1 block) as [s3|] eqn:Hdec; [|done].
    cbn [mbind option_bind]. intros [= <-].
    destruct (PushBit_advance_fields s3) as (_ & -> & -> & -> & _).
    destruct (PushBit_decode_sync _ _ _ Hdec) as (w & _ & Hif).
    assert (Hs1 : is_in_sync_ s1 = true) by exact Hsync.
    rewrite Hs1 in Hif.
    destruct (_ && _ && _).
    + destruct Hif as (_ & -> & ->). intros _. split; [reflexivity|].
      apply RunningSum_clear_zeros.
    + destruct Hif as (-> & _). discriminate.
Qed.

(** ** Decoding a group *)

Lemma fold_shift_register (n : nat) (v : Z) :
  forall r : Z,
    fold_left shift_register (bits_msb n v) r mod 2 ^ 32 =
    (r * 2 ^ Z.of_nat n + v mod 2 ^ Z.of_nat n) mod 2 ^ 32.
Proof.
  induction n as [|n IH]; intros r; cbn [bits_msb fold_left].
  - change (2 ^ Z.of_nat 0) with 1. rewrite Z.mod_1_r. f_equal. lia.
  - rewrite IH. unfold shift_register, to_u32.
    rewrite Z.shiftl_mul_pow2 by lia. change (2 ^ 1) with 2.
    rewrite <- Z.add_mod_idemp_l, Z.mul_mod_idemp_l, Z.add_mod_idemp_l by lia.
    f_equal.
    rewrite Nat2Z.inj_succ, Z.pow_succ_r by lia.
    rewrite (Z.mul_comm 2 (2 ^ Z.of_nat n)), Z.rem_mul_r by lia.
    rewrite (Z.testbit_spec' v (Z.of_nat n)) by lia. lia.
Qed.

(** Bits that do not complete a unit only move the accumulator and the
    two counters. *)
Lemma PushBits_within_unit (bits : list bool) :
  forall s : BlockStream,
    Z.of_nat (length bits) < left_to_read_ s ->
    PushBits s bits = Some (fold_left PushBit_shift bits s).
Proof.
  induction bits as [|bit bits IH]; intros s Hlen; cbn [PushBits fold_left];
    [done|].
  cbn [length] in Hlen. unfold PushBit.
  assert (H : (0 <? left_to_read_ (PushBit_shift s bit)) = true).
  { apply Z.ltb_lt. unfold PushBit_shift. fields. lia. }
  rewrite H. cbn [mbind option_bind]. apply IH.
  unfold PushBit_shift. fields. lia.
Qed.

(** The bits of a unit, the last one apart, only prepare the state for the
    call that completes the unit. *)
Lemma PushBits_unit (bits : list bool) (s : BlockStream) (x : bool) :
  Z.of_nat (length bits) < left_to_read_ s ->
  PushBits s (bits ++ [x]) = PushBit (fold_left PushBit_shift bits s) x.
Proof.
  intros Hlen. rewrite PushBits_app, PushBits_within_unit by done.
  cbn [mbind option_bind PushBits].
  by destruct (PushBit _ x).
Qed.

Lemma BlockStream_eq (s s' : BlockStream) :
  bitcount_ s = bitcount_ s' ->
  prevbitcount_ s = prevbitcount_ s' ->
  left_to_read_ s = left_to_read_ s' ->
  input_register_ s = input_register_ s' ->
  prevsync_ s = prevsync_ s' ->
  expected_offset_ s = expected_offset_ s' ->
  received_offset_ s = received_offset_ s' ->
  pi_ s = pi_ s' ->
  is_in_sync_ s = is_in_sync_ s' ->
  block_error_sum_ s = block_error_sum_ s' ->
  options_ s = options_ s' ->
  input_type_ s = input_type_ s' ->
  is_eof_ s = is_eof_ s' ->
  bler_average_ s = bler_average_ s' ->
  current_group_ s = current_group_ s' ->
  groups_ s = groups_ s' ->
  s = s'.
Proof. destruct s, s'. cbn. intros. by subst. Qed.

Lemma fold_PushBit_shift (bits : list bool) :
  forall s : BlockStream,
    fold_left PushBit_shift bits s =
    set_bitcount_ (bitcount_ s + Z.of_nat (length bits))
      (set_left_to_read_ (left_to_read_ s - Z.of_nat (length bits))
         (set_input_register_
            (fold_left shift_register bits (input_register_ s)) s)).
Proof.
  induction bits as [|bit bits IH]; intros s; cbn [fold_left length].
  - apply BlockStream_eq; fields; try done; lia.
  - rewrite IH.
    apply BlockStream_eq; unfold PushBit_shift; fields; try done; lia.
Qed.

Lemma bits_msb_length (n : nat) (v : Z) : length (bits_msb n v) = n.
Proof. induction n as [|n IH]; cbn; [done|]. by rewrite IH. Qed.

(** With the top bit of a block already in the accumulator, its other 25
    bits followed by any further bit put the block in bits 1 to 26. *)
Lemma PushBit_block_aligned (r b : Z) (x : bool) :
  0 <= b < 2 ^ 26 ->
  Z.testbit r 0 = Z.testbit b 25 ->
  Z.land (fold_left shift_register (bits_msb 25 b) r) kBitmask26 = b.
Proof.
  intros Hb Hbit.
  change kBitmask26 with (Z.ones 26). rewrite Z.land_ones by lia.
  pose proof (fold_shift_register 25 b r) as H.
  apply (f_equal Z.b2z) in Hbit.
  rewrite Z.bit0_mod, (Z.testbit_spec' b 25) in Hbit by lia.
  set (R := fold_left shift_register (bits_msb 25 b) r) in *. clearbody R.
  change (Z.of_nat 25) with 25 in H.
  change (2 ^ 25) with 33554432 in *. change (2 ^ 26) with 67108864 in *.
  change (2 ^ 32) with 4294967296 in *.
  Z.div_mod_to_equations. lia.
Qed.

(** Decoding a block that classifies as the expected offset: the word is
    stored without error flag and nothing else of interest changes. *)
Lemma PushBit_decode_good (s : BlockStream) (block : Z) (n : eBlockNumber) :
  received_offset_ s = expected_offset_ s ->
  BlockNumberForOffset (expected_offset_ s) = Some n ->
  expected_offset_ s <> Cprime ->
  RunningSum_wf (block_error_sum_ s) ->
  exists s' : BlockStream,
    PushBit_decode s block = Some s' /\
    decode_frame s s' /\
    is_in_sync_ s' = is_in_sync_ s /\
    current_group_ s' =
      Group_set (current_group_ s) n (to_u16 (Z.shiftr block 10)) false.
Proof.
  intros Hrecv Hbn Hnc Hwf. unfold PushBit_decode.
  rewrite decide_False by (intros [H1 H2]; congruence).
  rewrite bool_decide_eq_false_2 by (intros H; by apply H).
  cbn [Z.b2z].
  destruct (RunningSum_push_window _ 0 Hwf) as (w & Hpush & Hw & Hlen & _).
  pose proof (RunningSum_push_flags _ _ false Hpush) as Hfl.
  rewrite Hpush. cbn [mbind option_bind]. unfold PushBit_store. fields.
  rewrite decide_True by done. rewrite decide_False by done.
  rewrite Hbn. cbn [mbind option_bind].
  eexists. split; [reflexivity|].
  case_match; fields; by repeat split.
Qed.

(** The bit that completes a good block, in sync. *)
Lemma PushBit_good_block (s : BlockStream) (x : bool) (o : Offset)
    (n : eBlockNumber) :
  is_in_sync_ s = true ->
  left_to_read_ s = 1 ->
  RunningSum_wf (block_error_sum_ s) ->
  expected_offset_ s = o ->
  BlockNumberForOffset o = Some n ->
  o <> Cprime ->
  OffsetForSyndrome
    (to_u16 (CalculateSyndrome (Z.land (input_register_ s) kBitmask26))) = o ->
  exists s' : BlockStream,
    PushBit s x = Some s' /\
    is_in_sync_ s' = true /\
    left_to_read_ s' = 26 /\
    RunningSum_wf (block_error_sum_ s') /\
    expected_offset_ s' = NextOffsetFor o /\
    input_register_ s' = shift_register (input_register_ s) x /\
    let g := Group_set (current_group_ s) n
               (to_u16 (Z.shiftr (Z.land (input_register_ s) kBitmask26) 10))
               false in
    if decide (NextOffsetFor o = A)
    then groups_ s' = groups_ s ++ [g] /\ current_group_ s' = Group_new
    else groups_ s' = groups_ s /\ current_group_ s' = g.
Proof.
  intros Hsync Hl Hwf Hexp Hbn Hnc Hclass. unfold PushBit.
  assert (H0 : (0 <? left_to_read_ (PushBit_shift s x)) = false).
  { apply Z.ltb_ge. unfold PushBit_shift. fields. lia. }
  rewrite H0. unfold PushBit_classify. rewrite PushBit_block_shift, Hclass.
  set (block := Z.land (input_register_ s) kBitmask26).
  set (s2 := set_received_offset_ o (PushBit_shift s x)).
  assert (Hs2 : is_in_sync_ s2 = true /\ expected_offset_ s2 = o /\
                received_offset_ s2 = o /\
                block_error_sum_ s2 = block_error_sum_ s /\
                current_group_ s2 = current_group_ s /\
                groups_ s2 = groups_ s /\
                input_register_ s2 = shift_register (input_register_ s) x)
    by (subst s2; unfold PushBit_shift; by fields).
  destruct Hs2 as (Hsync2 & Hexp2 & Hrecv2 & Hsum2 & Hcur2 & Hgr2 & Hreg2).
  unfold AcquireSync. rewrite Hsync2. cbn [mbind option_bind].
  destruct (PushBit_decode_good s2 block n) as (s3 & -> & Hfr & Hsync3 & Hcur3);
    [congruence..|].
  cbn [mbind option_bind]. eexists. split; [reflexivity|].
  destruct Hfr as [_ _ _ Hreg3 _ Hexp3 Hgr3 _ _ _ _ Hwf3 _ _].
  destruct (PushBit_advance_fields s3) as (-> & -> & _ & -> & -> & ->).
  rewrite Hexp3, Hexp2, Hreg3, Hreg2, Hsync3, Hsync2.
  do 2 (split; [done|]). split; [apply Hwf3; congruence|].
  do 2 (split; [done|]).
  unfold PushBit_advance. fields. rewrite Hexp3, Hexp2.
  case_decide; fields; rewrite Hgr3, Hgr2, Hcur3, Hcur2; done.
Qed.

Lemma shift_register_bit0 (r : Z) (x : bool) :
  Z.testbit (shift_register r x) 0 = x.
Proof.
  apply Z.b2z_inj. rewrite Z.bit0_mod. unfold shift_register, to_u32.
  rewrite Z.shiftl_mul_pow2 by lia. change (2 ^ 1) with 2.
  change (2 ^ 32) with 4294967296.
  assert (Hb : 0 <= Z.b2z x <= 1) by (destruct x; cbn; lia).
  Z.div_mod_to_equations. lia.
Qed.

Lemma message_fits (b : Z) :
  0 <= b < 2 ^ 26 -> to_u16 (Z.shiftr b 10) = Z.shiftr b 10.
Proof.
  intros Hb. unfold to_u16. rewrite Z.shiftr_div_pow2 by lia.
  apply Z.mod_small.
  change (2 ^ 26) with 67108864 in Hb. change (2 ^ 10) with 1024.
  change (2 ^ 16) with 65536. Z.div_mod_to_equations. lia.
Qed.

Lemma bits_msb_S (n : nat) (v : Z) :
  bits_msb (S n) v = Z.testbit v (Z.of_nat n) :: bits_msb n v.
Proof. reflexivity. Qed.

(** A good block whose top bit is already in the accumulator: its other 25
    bits and one further bit decode it. *)
Lemma PushBits_good_block (s : BlockStream) (b : Z) (x : bool) (o : Offset)
    (n : eBlockNumber) :
  is_in_sync_ s = true ->
  left_to_read_ s = 26 ->
  RunningSum_wf (block_error_sum_ s) ->
  expected_offset_ s = o ->
  BlockNumberForOffset o = Some n ->
  o <> Cprime ->
  0 <= b < 2 ^ 26 ->
  OffsetForSyndrome (to_u16 (CalculateSyndrome b)) = o ->
  Z.testbit (input_register_ s) 0 = Z.testbit b 25 ->
  exists s' : BlockStream,
    PushBits s (bits_msb 25 b ++ [x]) = Some s' /\
    is_in_sync_ s' = true /\
    left_to_read_ s' = 26 /\
    RunningSum_wf (block_error_sum_ s') /\
    expected_offset_ s' = NextOffsetFor o /\
    Z.testbit (input_register_ s') 0 = x /\
    let g := Group_set (current_group_ s) n (Z.shiftr b 10) false in
    if decide (NextOffsetFor o = A)
    then groups_ s' = groups_ s ++ [g] /\ current_group_ s' = Group_new
    else groups_ s' = groups_ s /\ current_group_ s' = g.
Proof.
  intros Hsync Hl Hwf Hexp Hbn Hnc Hb Hclass Hbit.
  rewrite PushBits_unit by (rewrite bits_msb_length, Hl; lia).
  rewrite fold_PushBit_shift, bits_msb_length.
  pose proof (PushBit_block_aligned (input_register_ s) b x Hb Hbit) as HR.
  revert HR.
  generalize (fold_left shift_register (bits_msb 25 b) (input_register_ s)).
  intros R HR.
  assert (Hs25 :
    let s25 := set_bitcount_ (bitcount_ s + Z.of_nat 25)
                 (set_left_to_read_ (left_to_read_ s - Z.of_nat 25)
                    (set_input_register_ R s)) in
    is_in_sync_ s25 = true /\ left_to_read_ s25 = 1 /\
    block_error_sum_ s25 = block_error_sum_ s /\
    expected_offset_ s25 = o /\ input_register_ s25 = R /\
    current_group_ s25 = current_group_ s /\
    groups_ s25 = groups_ s).
  { fields. repeat split; try done. lia. }
  revert Hs25.
  generalize (set_bitcount_ (bitcount_ s + Z.of_nat 25)
                (set_left_to_read_ (left_to_read_ s - Z.of_nat 25)
                   (set_input_register_ R s))).
  intros s25 (Hsync' & Hl' & Hsum' & Hexp' & Hreg' & Hcur' & Hgr').
  assert (Hwf' : RunningSum_wf (block_error_sum_ s25)) by by rewrite Hsum'.
  assert (Hclass' : OffsetForSyndrome
            (to_u16 (CalculateSyndrome
                       (Z.land (input_register_ s25) kBitmask26))) = o)
    by (rewrite Hreg', HR; exact Hclass).
  destruct (PushBit_good_block s25 x o n Hsync' Hl' Hwf' Hexp' Hbn Hnc Hclass')
    as (s' & Hpush & H1 & H2 & H3 & H4 & H5 & H6).
  exists s'. split; [exact Hpush|].
  rewrite Hreg', HR, message_fits, Hcur', Hgr' in H6 by exact Hb.
  rewrite H5, shift_register_bit0. by repeat split.
Qed.

(** Four good blocks, decoded from a block boundary at which offset A is
    expected, the queue is empty and the current group is fresh. *)
Lemma PushBits_good_group (s : BlockStream) (bA bB bC bD : Z) (x : bool) :
  is_in_sync_ s = true ->
  expected_offset_ s = A ->
  left_to_read_ s = 26 ->
  RunningSum_wf (block_error_sum_ s) ->
  groups_ s = [] ->
  current_group_ s = Group_new ->
  Z.testbit (input_register_ s) 0 = Z.testbit bA 25 ->
  (0 <= bA < 2 ^ 26 /\
   OffsetForSyndrome (to_u16 (CalculateSyndrome bA)) = A) ->
  (0 <= bB < 2 ^ 26 /\
   OffsetForSyndrome (to_u16 (CalculateSyndrome bB)) = B) ->
  (0 <= bC < 2 ^ 26 /\
   OffsetForSyndrome (to_u16 (CalculateSyndrome bC)) = C) ->
  (0 <= bD < 2 ^ 26 /\
   OffsetForSyndrome (to_u16 (CalculateSyndrome bD)) = D) ->
  exists s' : BlockStream,
    PushBits s
      (tail (block_bits bA ++ block_bits bB ++ block_bits bC ++ block_bits bD)
       ++ [x]) = Some s' /\
    (PopGroups s').1 =
      [Group_set
         (Group_set
            (Group_set
               (Group_set Group_new BLOCK1 (Z.shiftr bA 10) false)
               BLOCK2 (Z.shiftr bB 10) false)
            BLOCK3 (Z.shiftr bC 10) false)
         BLOCK4 (Z.shiftr bD 10) false].
Proof.
  intros Hsync Hexp Hl Hwf Hgr Hcur Hbit [HbA HcA] [HbB HcB] [HbC HcC] [HbD HcD].
  assert (Hbits :
    tail (block_bits bA ++ block_bits bB ++ block_bits bC ++ block_bits bD)
      ++ [x] =
    (bits_msb 25 bA ++ [Z.testbit bB 25]) ++
    (bits_msb 25 bB ++ [Z.testbit bC 25]) ++
    (bits_msb 25 bC ++ [Z.testbit bD 25]) ++
    (bits_msb 25 bD ++ [x])).
  { unfold block_bits. rewrite !(bits_msb_S 25).
    change (Z.of_nat 25) with 25. cbn [tail app].
    rewrite <- !app_assoc. cbn [app]. reflexivity. }
  rewrite Hbits. clear Hbits.
  destruct (PushBits_good_block s bA (Z.testbit bB 25) A BLOCK1)
    as (s1 & E1 & Hs1 & Hl1 & Hw1 & He1 & Hb1 & Hg1); try done.
  cbn [NextOffsetFor] in He1, Hg1.
  rewrite decide_False in Hg1 by done. destruct Hg1 as [Hg1 Hc1].
  destruct (PushBits_good_block s1 bB (Z.testbit bC 25) B BLOCK2)
    as (s2 & E2 & Hs2 & Hl2 & Hw2 & He2 & Hb2 & Hg2); try done.
  cbn [NextOffsetFor] in He2, Hg2.
  rewrite decide_False in Hg2 by done. destruct Hg2 as [Hg2 Hc2].
  destruct (PushBits_good_block s2 bC (Z.testbit bD 25) C BLOCK3)
    as (s3 & E3 & Hs3 & Hl3 & Hw3 & He3 & Hb3 & Hg3); try done.
  cbn [NextOffsetFor] in He3, Hg3.
  rewrite decide_False in Hg3 by done. destruct Hg3 as [Hg3 Hc3].
  destruct (PushBits_good_block s3 bD x D BLOCK4)
    as (s4 & E4 & Hs4 & Hl4 & Hw4 & He4 & Hb4 & Hg4); try done.
  cbn [NextOffsetFor] in He4, Hg4.
  rewrite decide_True in Hg4 by done. destruct Hg4 as [Hg4 Hc4].
  exists s4. split.
  - revert E1 E2 E3 E4.
    generalize (bits_msb 25 bA ++ [Z.testbit bB 25]).
    generalize (bits_msb 25 bB ++ [Z.testbit bC 25]).
    generalize (bits_msb 25 bC ++ [Z.testbit bD 25]).
    generalize (bits_msb 25 bD ++ [x]).
    intros c4 c3 c2 c1 E1 E2 E3 E4.
    rewrite PushBits_app, E1, mbind_Some.
    rewrite PushBits_app, E2, mbind_Some.
    rewrite PushBits_app, E3, mbind_Some.
    exact E4.
  - unfold PopGroups. fields.
    rewrite Hg4, Hg3, Hg2, Hg1, Hgr, Hc3, Hc2, Hc1, Hcur.
    reflexivity.
Qed.

(** The ways a call of [PushBit] ends. *)
Lemma PushBit_cases (s s' : BlockStream) (bit : bool) :
  PushBit s bit = Some s' ->
  (s' = PushBit_shift s bit /\ 1 < left_to_read_ s) \/
  (exists s2 : BlockStream, s' = set_left_to_read_ 1 s2) \/
  (exists s3 : BlockStream, s' = PushBit_advance s3).
Proof.
  unfold PushBit. case_match eqn:Hl.
  - intros [= <-]. left. split; [done|].
    apply Z.ltb_lt in Hl. unfold PushBit_shift in Hl. fields. lia.
  - destruct (AcquireSync _) as [[s2 []]|]; cbn [mbind option_bind]; [| |done].
    + destruct (PushBit_decode _ _) as [s3|]; cbn [mbind option_bind]; [|done].
      intros [= <-]. right. right. by eexists.
    + intros [= <-]. right. left. by eexists.
Qed.

(** A unit is never longer than a block, and at a block boundary at which
    offset A is expected the current group is a fresh one. *)
Lemma reachable_boundary (s : BlockStream) :
  reachable s ->
  left_to_read_ s <= 26 /\
  (left_to_read_ s = 26 -> expected_offset_ s = A ->
   current_group_ s = Group_new).
Proof.
  induction 1 as [options|s s' bit _ [IH1 IH2] Hpush|s _ IH]; [|
    |exact IH].
  - cbn. split; [lia|]. intros; lia.
  - destruct (PushBit_cases _ _ _ Hpush) as [[-> Hl]|[[s2 ->]|[s3 ->]]].
    + unfold PushBit_shift. fields. split; [lia|]. intros; lia.
    + fields. split; [lia|]. intros; lia.
    + unfold PushBit_advance. split; [case_decide; fields; lia|].
      intros _. case_decide as HA; fields; [done|]. intros HA'. by destruct HA.
Qed.

(** C1, as the code has it.  The decoder has reached, in sync, a block
    boundary at which it expects offset A, its queue is empty, and the bit
    pushed last is the first bit of the group.  The four blocks are good
    blocks of the offsets A, B, C and D (the syndrome of each is the one of
    its offset).  Pushing the remaining 103 bits of the group, most
    significant bit first, and one further bit makes [PopGroups] return
    exactly one group, which holds the four message words (the upper 16 bits
    of the blocks) with no error flag set. *)
Theorem PopGroups_good_group (s : BlockStream) (bA bB bC bD : Z) (x : bool) :
  reachable s ->
  is_in_sync_ s = true ->
  expected_offset_ s = A ->
  left_to_read_ s = 26 ->
  groups_ s = [] ->
  Z.testbit (input_register_ s) 0 = Z.testbit bA 25 ->
  (0 <= bA < 2 ^ 26 /\
   OffsetForSyndrome (to_u16 (CalculateSyndrome bA)) = A) ->
  (0 <= bB < 2 ^ 26 /\
   OffsetForSyndrome (to_u16 (CalculateSyndrome bB)) = B) ->
  (0 <= bC < 2 ^ 26 /\
   OffsetForSyndrome (to_u16 (CalculateSyndrome bC)) = C) ->
  (0 <= bD < 2 ^ 26 /\
   OffsetForSyndrome (to_u16 (CalculateSyndrome bD)) = D) ->
  exists s' : BlockStream,
    PushBits s
      (tail (block_bits bA ++ block_bits bB ++ block_bits bC ++ block_bits bD)
       ++ [x]) = Some s' /\
    (PopGroups s').1 =
      [Group_set
         (Group_set
            (Group_set
               (Group_set Group_new BLOCK1 (Z.shiftr bA 10) false)
               BLOCK2 (Z.shiftr bB 10) false)
            BLOCK3 (Z.shiftr bC 10) false)
         BLOCK4 (Z.shiftr bD 10) false].
Proof.
  intros Hreach Hsync Hexp Hl Hgr Hbit HA HB HC HD.
  apply PushBits_good_group; try assumption.
  - apply (reachable_inv s Hreach).
  - by apply (reachable_boundary s Hreach).
Qed.

Lemma NextOffsetFor_range (o : Offset) : In (NextOffsetFor o) [A; B; C; D].
Proof. destruct o; cbn; tauto. Qed.

Lemma NextOffsetFor_A (o : Offset) :
  o <> invalid -> NextOffsetFor o = A -> o = D.
Proof. by destruct o. Qed.

(** A block that locks the decoder is never uncorrectable. *)
Lemma lock_not_uncorrectable (s : BlockStream) (block : Z) :
  let s1 := set_current_group_ Group_new
              (set_expected_offset_ (received_offset_ s)
                 (set_is_in_sync_ true s)) in
  decode_offset s1 = received_offset_ s /\ ~ uncorrectable s1 block.
Proof.
  intros s1.
  assert (H : decode_offset s1 = received_offset_ s1)
    by (apply decode_offset_locked; subst s1; by fields).
  assert (H' : received_offset_ s1 = received_offset_ s)
    by (subst s1; by fields).
  split; [congruence|]. intros [Hne _]. apply Hne. by rewrite H.
Qed.

(** ** What holds between calls *)

Lemma reachable_state (s : BlockStream) :
  reachable s ->
  In (expected_offset_ s) [A; B; C; D] /\
  1 <= left_to_read_ s <= 26 /\
  (is_in_sync_ s = false ->
   pi_ s = 0 /\
   Forall (fun x => x = 0) (RunningSum.history_ (block_error_sum_ s))).
Proof.
  induction 1 as [options|s s' bit _ IH Hpush|s _ IH]; [| |exact IH].
  - split; [cbn; tauto|]. split; [cbn; lia|]. intros _. split; [reflexivity|].
    apply Forall_forall. intros x Hx%list_elem_of_In.
    change (In x (repeat 0 50)) in Hx. by apply repeat_spec in Hx.
  - destruct IH as (IH1 & IH2 & IH5).
    destruct (PushBit_classify_fields s bit)
      as (Hr0 & Hs0 & He0 & Hc0 & Hg0 & Hp0 & Hw0 & _).
    destruct (PushBit_step _ _ _ Hpush)
      as [[Hl ->]|[(Hl & s1 & Hacq & ->)|(Hl & s1 & s3 & Hacq & Hdec & ->)]].
    + unfold PushBit_shift. fields.
      split; [exact IH1|]. split; [lia|exact IH5].
    + pose proof (AcquireSync_frame _ _ _ Hacq)
        as (_ & _ & _ & _ & _ & _ & Hpi & Hw & _).
      apply AcquireSync_false in Hacq as (Hu0 & Hu1 & He1 & _).
      fields. rewrite He1, He0, Hw, Hw0, Hpi, Hp0.
      split; [exact IH1|]. split; [lia|].
      intros _. apply IH5. congruence.
    + pose proof (AcquireSync_frame _ _ _ Hacq)
        as (Hsy & _ & _ & _ & _ & _ & Hpi & Hw & _).
      destruct (PushBit_advance_fields s3) as (-> & -> & -> & -> & -> & _).
      destruct (PushBit_decode_sync _ _ _ Hdec) as (w & Hpushw & Hif).
      split; [apply NextOffsetFor_range|]. split; [lia|].
      destruct (_ && _ && _).
      * destruct Hif as (-> & -> & ->). intros _. split; [reflexivity|].
        apply RunningSum_clear_zeros.
      * destruct Hif as (-> & ->). rewrite <- Hsy. intros [=].
Qed.

(** X8. Between calls of the public methods, whatever bits were pushed:
    the expected offset is one of A, B, C and D, never C' (which is adopted
    for the decoding of one block only) and never [invalid]; the anchor
    offset is a valid one; between 1 and 26 bits are left to read; and the
    anchor's bit position is not ahead of the bit count. *)
Theorem reachable_offsets (s : BlockStream) :
  reachable s ->
  In (expected_offset_ s) [A; B; C; D] /\
  prevsync_ s <> invalid /\
  1 <= left_to_read_ s <= 26 /\
  prevbitcount_ s <= bitcount_ s.
Proof.
  intros Hs. destruct (reachable_state s Hs) as (H1 & H2 & _).
  destruct (reachable_inv s Hs) as [_ H3 _ H4 _ _].
  split; [exact H1|]. split; [exact H3|]. split; [exact H2|exact H4].
Qed.

(** X9. Between calls of the public methods the error window has its 50
    slots, the cursor is inside, and every slot holds 0 or 1; so [sum] never
    overflows and returns a count between 0 and 50.  While the decoder is
    out of sync the window is empty and the PI code is 0. *)
Theorem reachable_window (s : BlockStream) :
  reachable s ->
  length (RunningSum.history_ (block_error_sum_ s)) = 50%nat /\
  (RunningSum.pointer_ (block_error_sum_ s) < 50)%nat /\
  Forall (fun x => x = 0 \/ x = 1) (RunningSum.history_ (block_error_sum_ s)) /\
  (exists errors : Z,
      RunningSum.sum (block_error_sum_ s) = Some errors /\
      0 <= errors <= 50 /\
      (is_in_sync_ s = false -> errors = 0)) /\
  (is_in_sync_ s = false -> pi_ s = 0).
Proof.
  intros Hs. destruct (reachable_state s Hs) as (_ & _ & H5).
  destruct (reachable_inv s Hs) as [_ _ Hwf _ Hlen Hflags].
  unfold RunningSum_wf in Hwf. rewrite Hlen in Hwf.
  split; [exact Hlen|]. split; [exact Hwf|]. split; [exact Hflags|].
  split; [|intros Hu; apply (H5 Hu)].
  exists (Zsum (RunningSum_window (block_error_sum_ s))).
  split; [|split].
  - apply RunningSum_sum_flags; [exact Hflags|].
    rewrite Hlen. unfold RunningSum.INT_MAX. lia.
  - rewrite RunningSum_window_Zsum.
    destruct (Zsum_flags _ Hflags) as [_ H]. rewrite Hlen in H. lia.
  - intros Hu. rewrite RunningSum_window_Zsum.
    apply Zsum_zeros. apply (H5 Hu).
Qed.

(** X10. A call of [PushBit] that starts and ends out of sync decodes
    nothing: the queue, the group under construction, the expected offset,
    the PI code and the error window are as before.  The anchor either
    stays or, when the call completes a unit, moves to the block just
    classified, which is then a valid one, at the current bit count. *)
Theorem PushBit_out_of_sync (s s' : BlockStream) (bit : bool) :
  is_in_sync_ s = false ->
  PushBit s bit = Some s' ->
  is_in_sync_ s' = false ->
  groups_ s' = groups_ s /\
  current_group_ s' = current_group_ s /\
  expected_offset_ s' = expected_offset_ s /\
  pi_ s' = pi_ s /\
  block_error_sum_ s' = block_error_sum_ s /\
  ((prevsync_ s' = prevsync_ s /\ prevbitcount_ s' = prevbitcount_ s) \/
   (left_to_read_ s <= 1 /\
    received_offset_ s' <> invalid /\
    prevsync_ s' = received_offset_ s' /\ prevbitcount_ s' = bitcount_ s')).
Proof.
  intros Hsync Hpush Hsync'.
  destruct (PushBit_classify_fields s bit)
    as (Hr0 & Hs0 & He0 & Hc0 & Hg0 & Hp0 & Hw0 & Hps0 & Hpb0 & _).
  destruct (PushBit_step _ _ _ Hpush)
    as [[Hl ->]|[(Hl & s1 & Hacq & ->)|(Hl & s1 & s3 & Hacq & Hdec & ->)]].
  - unfold PushBit_shift. fields. repeat split; try done. by left.
  - pose proof (AcquireSync_frame _ _ _ Hacq)
      as (_ & _ & Hbc & _ & _ & Hrecv & Hpi & Hw & Hg & _).
    apply AcquireSync_false in Hacq as (_ & _ & He1 & Hc1 & Hanchor).
    fields. rewrite Hg, Hg0, Hc1, Hc0, He1, He0, Hpi, Hp0, Hw, Hw0.
    do 5 (split; [reflexivity|]).
    destruct Hanchor as [[-> ->]|(Hv & -> & ->)]; [left; by split|right].
    rewrite Hrecv, Hbc. by repeat split.
  - exfalso.
    rewrite <- Hs0 in Hsync.
    destruct (AcquireSync_lock _ _ Hsync Hacq) as [_ ->].
    destruct (lock_not_uncorrectable (PushBit_classify (PushBit_shift s bit))
                (Z.land (input_register_ s) kBitmask26)) as [_ Hnot].
    destruct (PushBit_decode_sync _ _ _ Hdec) as (w & _ & Hif).
    rewrite bool_decide_eq_false_2 in Hif by exact Hnot.
    cbn [andb] in Hif. destruct Hif as [Hif _].
    destruct (PushBit_advance_fields s3) as (_ & Hadv & _).
    rewrite Hadv, Hif in Hsync'. by fields.
Qed.

Lemma message_of_block (r : Z) :
  to_u16 (Z.shiftr (Z.land r kBitmask26) 10) =
  Z.shiftr (Z.land r kBitmask26) 10.
Proof.
  apply message_fits. change kBitmask26 with (Z.ones 26).
  rewrite Z.land_ones by lia. apply Z.mod_pos_bound. lia.
Qed.

(** The decoding of a block that classifies as the offset it is decoded
    against: its word is stored, without error flag. *)
Lemma PushBit_decode_match (s s2 : BlockStream) (block : Z) :
  received_offset_ s = decode_offset s ->
  PushBit_decode s block = Some s2 ->
  exists g : Group,
    Group_store (current_group_ s) (decode_offset s)
      (to_u16 (Z.shiftr block 10)) false = Some g /\
    current_group_ s2 = g /\
    pi_ s2 = (if Group_has_pi g then Group_pi g else pi_ s) /\
    received_offset_ s2 = decode_offset s /\
    expected_offset_ s2 = decode_offset s /\
    groups_ s2 = groups_ s /\
    is_in_sync_ s2 = is_in_sync_ s.
Proof.
  intros Heq Hdec.
  pose proof (PushBit_decode_group _ _ _ Hdec) as H. cbv zeta in H.
  pose proof (PushBit_decode_sync _ _ _ Hdec) as (w & _ & Hif).
  destruct (PushBit_decode_frame _ _ _ Hdec)
    as [_ _ _ _ _ Hexp Hgr _ _ _ _ _ _ _].
  assert (Hnot : ~ uncorrectable s block) by (intros [Hne _]; exact (Hne Heq)).
  rewrite (bool_decide_eq_false_2 (uncorrectable s block)) in H, Hif
    by exact Hnot.
  rewrite (bool_decide_eq_false_2 (received_offset_ s <> decode_offset s)) in H
    by (intros Hne; exact (Hne Heq)).
  cbn [andb] in Hif. destruct Hif as [Hsync _].
  destruct H as (g & Hg & Hcur & Hpi & Hrecv).
  exists g. repeat (split; [assumption|]). exact Hsync.
Qed.

(** X11. The call of [PushBit] that acquires sync also decodes the block
    it locked on: that call completes a unit, the block classified is a
    valid one, its message word goes without error flag into a fresh group
    (in the slot of its offset), the next offset is expected 26 bits later,
    and when the block is a block D the group, which holds this one word, is
    queued at once. *)
Theorem PushBit_lock_decodes (s s' : BlockStream) (bit : bool) :
  is_in_sync_ s = false ->
  PushBit s bit = Some s' ->
  is_in_sync_ s' = true ->
  let block := Z.land (input_register_ s) kBitmask26 in
  let o := OffsetForSyndrome (to_u16 (CalculateSyndrome block)) in
  o <> invalid /\
  left_to_read_ s <= 1 /\
  left_to_read_ s' = 26 /\
  expected_offset_ s' = NextOffsetFor o /\
  exists g : Group,
    Group_store Group_new o (Z.shiftr block 10) false = Some g /\
    pi_ s' = (if Group_has_pi g then Group_pi g else pi_ s) /\
    if decide (o = D)
    then groups_ s' = groups_ s ++ [g] /\ current_group_ s' = Group_new
    else groups_ s' = groups_ s /\ current_group_ s' = g.
Proof.
  intros Hsync Hpush Hsync' block o.
  assert (Hblock : Z.land (input_register_ s) kBitmask26 = block)
    by reflexivity.
  assert (Ho : OffsetForSyndrome (to_u16 (CalculateSyndrome block)) = o)
    by reflexivity.
  clearbody o. clearbody block.
  pose proof (message_of_block (input_register_ s)) as Hmsg.
  rewrite Hblock in Hmsg.
  pose proof (PushBit_classify_fields s bit) as Hf.
  pose proof (PushBit_step _ _ _ Hpush) as Hstep.
  cbv zeta in Hf, Hstep. rewrite Hblock, Ho in Hf. rewrite Hblock in Hstep.
  revert Hf Hstep. generalize (PushBit_classify (PushBit_shift s bit)).
  intros s0 (Hr0 & Hs0 & He0 & Hc0 & Hg0 & Hp0 & Hw0 & _) Hstep.
  destruct Hstep
    as [[Hl ->]|[(Hl & s1 & Hacq & ->)|(Hl & s1 & s3 & Hacq & Hdec & ->)]].
  - exfalso. unfold PushBit_shift in Hsync'. fields. congruence.
  - exfalso. apply AcquireSync_false in Hacq as (_ & Hu & _).
    fields. congruence.
  - rewrite <- Hs0 in Hsync.
    destruct (AcquireSync_lock _ _ Hsync Hacq) as [Hvalid Hs1].
    destruct (lock_not_uncorrectable s0 block) as [Hoff _].
    rewrite <- Hs1 in Hoff.
    assert (Hf1 : received_offset_ s1 = o /\ current_group_ s1 = Group_new /\
                  pi_ s1 = pi_ s /\ groups_ s1 = groups_ s).
    { rewrite Hs1. fields. by rewrite Hr0, Hp0, Hg0. }
    destruct Hf1 as (Hr1 & Hc1 & Hp1 & Hg1).
    rewrite Hr0 in Hoff, Hvalid.
    clear Hs1 Hacq Hpush Hsync' Hsync.
    destruct (PushBit_decode_match s1 s3 block) as
      (g & Hg & Hcur & Hpi & _ & Hexp & Hgr & _); [congruence|exact Hdec|].
    rewrite Hoff, Hc1, Hmsg in Hg. rewrite Hp1 in Hpi. rewrite Hoff in Hexp.
    rewrite Hg1 in Hgr.
    split; [exact Hvalid|]. split; [exact Hl|].
    destruct (PushBit_advance_fields s3) as (-> & _ & -> & _ & -> & _).
    rewrite Hexp. split; [reflexivity|]. split; [reflexivity|].
    exists g. split; [exact Hg|]. split; [exact Hpi|].
    unfold PushBit_advance. fields. rewrite Hexp.
    destruct (decide (o = D)) as [HD|HD].
    + rewrite decide_True by (rewrite HD; reflexivity). fields.
      rewrite Hgr, Hcur. split; reflexivity.
    + rewrite decide_False
        by (intros HA; apply HD; exact (NextOffsetFor_A o Hvalid HA)).
      fields. split; [exact Hgr|exact Hcur].
Qed.

(** X12. In sync, a group is queued by exactly the calls that complete a
    block while offset D is expected, whatever the block holds: the group
    under construction is then a fresh one, and when the block could not be
    decoded (it does not classify as D and the error table leaves it
    unchanged) the group queued is the one that was under construction.
    Every other call in sync leaves the queue alone. *)
Theorem PushBit_queues_after_D (s s' : BlockStream) (bit : bool) :
  reachable s ->
  is_in_sync_ s = true ->
  PushBit s bit = Some s' ->
  let block := Z.land (input_register_ s) kBitmask26 in
  let received := OffsetForSyndrome (to_u16 (CalculateSyndrome block)) in
  if decide (left_to_read_ s = 1 /\ expected_offset_ s = D)
  then current_group_ s' = Group_new /\
       exists g : Group,
         groups_ s' = groups_ s ++ [g] /\
         (received <> D -> CorrectBurstErrors block D = block ->
          g = current_group_ s)
  else groups_ s' = groups_ s.
Proof.
  intros Hreach Hsync Hpush block received.
  assert (Hblock : Z.land (input_register_ s) kBitmask26 = block)
    by reflexivity.
  assert (Hrecv : OffsetForSyndrome (to_u16 (CalculateSyndrome block)) =
                  received) by reflexivity.
  clearbody received. clearbody block.
  destruct (reachable_state s Hreach) as (Hexp & Hl2r & _).
  pose proof (PushBit_classify_fields s bit) as Hf.
  pose proof (PushBit_step _ _ _ Hpush) as Hstep.
  cbv zeta in Hf, Hstep. rewrite Hblock, Hrecv in Hf. rewrite Hblock in Hstep.
  revert Hf Hstep. generalize (PushBit_classify (PushBit_shift s bit)).
  intros s0 (Hr0 & Hs0 & He0 & Hc0 & Hg0 & _) Hstep.
  destruct Hstep
    as [[Hl ->]|[(Hl & s1 & Hacq & ->)|(Hl & s1 & s3 & Hacq & Hdec & ->)]].
  - rewrite decide_False by lia. reflexivity.
  - exfalso. apply AcquireSync_false in Hacq as (Hu & _). congruence.
  - rewrite <- Hs0 in Hsync.
    destruct (AcquireSync_frame _ _ _ Hacq) as (_ & Heq & _).
    specialize (Heq Hsync). subst s1. clear Hacq Hpush.
    pose proof (PushBit_decode_group _ _ _ Hdec) as Hgrp. cbv zeta in Hgrp.
    destruct (PushBit_decode_frame _ _ _ Hdec)
      as [_ _ _ _ _ Hexp3 Hgr _ _ _ _ _ _ _].
    fields. rewrite Hg0 in Hgr.
    assert (HD : NextOffsetFor (decode_offset s0) = A <->
                 expected_offset_ s = D).
    { unfold decode_offset. rewrite He0. clear -Hexp. case_decide as HC.
      - destruct HC as [-> _]. split; intros H; discriminate H.
      - cbn [In] in Hexp.
        destruct Hexp as [<-|[<-|[<-|[<-|[]]]]];
          split; intros H; first [reflexivity|discriminate H]. }
    unfold PushBit_advance. fields. rewrite Hexp3.
    destruct (decide (left_to_read_ s = 1 /\ expected_offset_ s = D))
      as [Hcase|Hcase].
    + destruct Hcase as [_ Hcase].
      rewrite decide_True by (apply HD; exact Hcase).
      fields. split; [reflexivity|].
      exists (current_group_ s3). split; [rewrite Hgr; reflexivity|].
      intros Hne Hsame.
      assert (Hoff : decode_offset s0 = D).
      { unfold decode_offset. rewrite He0, Hcase. apply decide_False.
        intros [HC _]. discriminate HC. }
      assert (Hunc : uncorrectable s0 block).
      { unfold uncorrectable. rewrite Hoff, Hr0. by split. }
      revert Hgrp.
      case_bool_decide as Hu; [|by destruct Hu].
      intros (-> & _). exact Hc0.
    + rewrite decide_False; [exact Hgr|].
      intros HA%HD. apply Hcase. split; [lia|exact HA].
Qed.

(** The decoding of a block that the error table corrects: the corrected
    word is stored, with the error flag, and the decoder stays as it is. *)
Lemma PushBit_decode_corrected (s s2 : BlockStream) (block : Z) :
  received_offset_ s <> decode_offset s ->
  CorrectBurstErrors block (decode_offset s) <> block ->
  PushBit_decode s block = Some s2 ->
  exists (g : Group) (w : RunningSum.t),
    Group_store (current_group_ s) (decode_offset s)
      (to_u16 (Z.shiftr (CorrectBurstErrors block (decode_offset s)) 10))
      true = Some g /\
    RunningSum.push (block_error_sum_ s) 1 = Some w /\
    current_group_ s2 = g /\
    pi_ s2 = (if Group_has_pi g then Group_pi g else pi_ s) /\
    expected_offset_ s2 = decode_offset s /\
    groups_ s2 = groups_ s /\
    is_in_sync_ s2 = is_in_sync_ s /\
    block_error_sum_ s2 = w.
Proof.
  intros Hne Hcorr Hdec.
  pose proof (PushBit_decode_group _ _ _ Hdec) as H. cbv zeta in H.
  pose proof (PushBit_decode_sync _ _ _ Hdec) as (w & Hw & Hif).
  destruct (PushBit_decode_frame _ _ _ Hdec)
    as [_ _ _ _ _ Hexp Hgr _ _ _ _ _ _ _].
  assert (Hnot : ~ uncorrectable s block)
    by (intros [_ Hsame]; exact (Hcorr Hsame)).
  revert H Hif Hw. case_bool_decide as Hu; [by destruct Hnot|].
  case_bool_decide as He; [|by destruct He].
  cbn [andb Z.b2z]. intros (g & Hg & Hcur & Hpi & _) [Hsync Hsum] Hw.
  exists g, w. repeat (split; [assumption|]). exact Hsum.
Qed.

(** X13. In sync, a block that is the expected good block with one bit
    flipped, or two adjacent bits flipped, is decoded as that good block:
    the call that completes it has a result, stores the good block's
    message word with the error flag set, shifts a 1 into the error window,
    keeps sync and moves on to the next offset, queueing the group when the
    block is a block D. *)
Theorem PushBit_corrects_burst (s : BlockStream) (x : bool) (b e : Z)
    (n : eBlockNumber) :
  reachable s ->
  is_in_sync_ s = true ->
  left_to_read_ s = 1 ->
  BlockNumberForOffset (expected_offset_ s) = Some n ->
  OffsetForSyndrome (to_u16 (CalculateSyndrome b)) = expected_offset_ s ->
  single_bit_error e \/ adjacent_pair_error e ->
  Z.land (input_register_ s) kBitmask26 = Z.lxor b e ->
  exists s' : BlockStream,
    PushBit s x = Some s' /\
    is_in_sync_ s' = true /\
    left_to_read_ s' = 26 /\
    expected_offset_ s' = NextOffsetFor (expected_offset_ s) /\
    RunningSum_window (block_error_sum_ s') =
      drop 1 (RunningSum_window (block_error_sum_ s)) ++ [1] /\
    let g := Group_set (current_group_ s) n (to_u16 (Z.shiftr b 10)) true in
    if decide (expected_offset_ s = D)
    then groups_ s' = groups_ s ++ [g] /\ current_group_ s' = Group_new
    else groups_ s' = groups_ s /\ current_group_ s' = g.
Proof.
  intros Hreach Hsync Hl Hbn Hb He Hreg.
  destruct (reachable_state s Hreach) as (Hexp & _).
  destruct (PushBit_inv s x (reachable_inv s Hreach)) as (s' & Hpush & _).
  exists s'. split; [exact Hpush|].
  assert (Hvalid : expected_offset_ s <> invalid)
    by (by eapply BlockNumberForOffset_Some).
  destruct (burst_error_classes _ b e Hvalid Hb He)
    as (Hr & HCC & Hcbe & Hchg).
  pose proof (PushBit_classify_fields s x) as Hf.
  pose proof (PushBit_step _ _ _ Hpush) as Hstep.
  cbv zeta in Hf, Hstep, Hr, HCC. rewrite Hreg in Hf, Hstep.
  revert Hf Hstep Hr HCC Hcbe Hchg.
  generalize (OffsetForSyndrome (to_u16 (CalculateSyndrome (Z.lxor b e)))).
  generalize (PushBit_classify (PushBit_shift s x)).
  generalize (Z.lxor b e).
  intros block s0 r (Hr0 & Hs0 & He0 & Hc0 & Hg0 & _ & Hw0 & _) Hstep Hr HCC
    Hcbe Hchg.
  destruct Hstep
    as [[Hl' _]|[(_ & s1 & Hacq & _)|(_ & s1 & s3 & Hacq & Hdec & ->)]].
  - lia.
  - exfalso. apply AcquireSync_false in Hacq as (Hu & _). congruence.
  - rewrite <- Hs0 in Hsync.
    destruct (AcquireSync_frame _ _ _ Hacq) as (_ & Heq & _).
    specialize (Heq Hsync). subst s1. clear Hacq Hpush.
    assert (Hoff : decode_offset s0 = expected_offset_ s).
    { unfold decode_offset. rewrite He0, Hr0.
      apply decide_False. exact HCC. }
    destruct (PushBit_decode_corrected s0 s3 block)
      as (g & w & Hg & Hw & Hcur & _ & Hexp3 & Hgr & Hsync3 & Hsum3).
    { rewrite Hoff, Hr0. exact Hr. }
    { rewrite Hoff, Hcbe. intros Heq. apply Hchg. by symmetry. }
    { exact Hdec. }
    rewrite Hoff in Hg, Hexp3. rewrite Hcbe, Hc0 in Hg.
    rewrite Hg0 in Hgr. rewrite Hw0 in Hw. rewrite Hs0 in *.
    apply RunningSum_push_Some in Hw as (_ & _ & _ & Hwin).
    assert (Hstore : g = Group_set (current_group_ s) n
                           (to_u16 (Z.shiftr b 10)) true).
    { revert Hg. unfold Group_store.
      rewrite decide_False
        by (clear -Hexp; intros HC; rewrite HC in Hexp; cbn in Hexp;
            intuition discriminate).
      rewrite Hbn. cbn [mbind option_bind]. by intros [= <-]. }
    destruct (PushBit_advance_fields s3) as (-> & -> & _ & -> & -> & _).
    rewrite Hsync3, Hsync, Hexp3, Hsum3, Hwin.
    do 4 (split; [reflexivity|]).
    cbv zeta. rewrite <- Hstore.
    unfold PushBit_advance. fields. rewrite Hexp3.
    destruct (decide (expected_offset_ s = D)) as [HD|HD].
    + rewrite decide_True by (rewrite HD; reflexivity). fields.
      rewrite Hgr, Hcur. split; reflexivity.
    + rewrite decide_False
        by (intros HA; apply HD; exact (NextOffsetFor_A _ Hvalid HA)).
      fields. split; [exact Hgr|exact Hcur].
Qed.

(** ** The queue does not steer the decoder *)

Lemma Uncorrectable_set_groups (gs : list Group) (s : BlockStream) :
  Uncorrectable (set_groups_ gs s) = set_groups_ gs <$> Uncorrectable s.
Proof.
  unfold Uncorrectable. fields. destruct (is_in_sync_ s); [|reflexivity].
  destruct (RunningSum.sum (block_error_sum_ s)) as [errors|]; [|reflexivity].
  cbn [mbind option_bind]. by destruct (45 <? errors).
Qed.

Lemma PushBit_correct_set_groups (gs : list Group) (s : BlockStream)
    (block message : Z) :
  PushBit_correct (set_groups_ gs s) block message =
  (fun r => (r.1, set_groups_ gs r.2)) <$> PushBit_correct s block message.
Proof.
  unfold PushBit_correct. fields.
  generalize (CorrectBurstErrors block (expected_offset_ s)). intros c.
  destruct (decide (c <> block)); fields.
  - rewrite !decide_False by (intros H; by apply H). reflexivity.
  - case_decide; [|reflexivity].
    rewrite Uncorrectable_set_groups. by destruct (Uncorrectable s).
Qed.

Lemma PushBit_store_set_groups (gs : list Group) (s : BlockStream)
    (message : Z) (had_errors : bool) :
  PushBit_store (set_groups_ gs s) message had_errors =
  set_groups_ gs <$> PushBit_store s message had_errors.
Proof.
  unfold PushBit_store. fields.
  case_decide; [|reflexivity]. case_decide.
  - cbn [mbind option_bind fmap option_fmap option_map]. fields.
    by case_match.
  - destruct (BlockNumberForOffset _); [|reflexivity].
    cbn [mbind option_bind fmap option_fmap option_map]. fields.
    by case_match.
Qed.

Lemma PushBit_decode_set_groups (gs : list Group) (s : BlockStream)
    (block : Z) :
  PushBit_decode (set_groups_ gs s) block =
  set_groups_ gs <$> PushBit_decode s block.
Proof.
  assert (Hdec : forall s1 : BlockStream,
    (w ← RunningSum.push (block_error_sum_ s1)
           (Z.b2z (bool_decide (received_offset_ s1 <> expected_offset_ s1)));
     '(message, t) ←
       (if bool_decide (received_offset_ s1 <> expected_offset_ s1)
        then PushBit_correct (set_groups_ gs (set_block_error_sum_ w s1)) block
               (to_u16 (Z.shiftr block 10))
        else Some (to_u16 (Z.shiftr block 10),
                   set_groups_ gs (set_block_error_sum_ w s1)));
     PushBit_store t message
       (bool_decide (received_offset_ s1 <> expected_offset_ s1))) =
    set_groups_ gs <$>
    (w ← RunningSum.push (block_error_sum_ s1)
           (Z.b2z (bool_decide (received_offset_ s1 <> expected_offset_ s1)));
     '(message, t) ←
       (if bool_decide (received_offset_ s1 <> expected_offset_ s1)
        then PushBit_correct (set_block_error_sum_ w s1) block
               (to_u16 (Z.shiftr block 10))
        else Some (to_u16 (Z.shiftr block 10), set_block_error_sum_ w s1));
     PushBit_store t message
       (bool_decide (received_offset_ s1 <> expected_offset_ s1)))).
  { intros s1. destruct (RunningSum.push _ _) as [w|]; [|reflexivity].
    cbn [mbind option_bind]. case_bool_decide.
    - rewrite PushBit_correct_set_groups.
      destruct (PushBit_correct _ _ _) as [[m t]|]; [|reflexivity].
      cbn [mbind option_bind fmap option_fmap option_map fst snd].
      apply PushBit_store_set_groups.
    - cbn [mbind option_bind]. apply PushBit_store_set_groups. }
  unfold PushBit_decode. fields. case_decide.
  - exact (Hdec (set_expected_offset_ Cprime s)).
  - exact (Hdec s).
Qed.

Lemma AcquireSync_set_groups (gs : list Group) (s : BlockStream) :
  AcquireSync (set_groups_ gs s) =
  (fun r => (set_groups_ gs r.1, r.2)) <$> AcquireSync s.
Proof.
  unfold AcquireSync. fields.
  destruct (is_in_sync_ s); [reflexivity|].
  case_decide; [|reflexivity].
  change (AcquireSync_cond (set_groups_ gs s)) with (AcquireSync_cond s).
  by destruct (AcquireSync_cond s) as [[]|].
Qed.

Lemma PushBit_classify_set_groups (gs : list Group) (s : BlockStream) :
  PushBit_classify (set_groups_ gs s) = set_groups_ gs (PushBit_classify s).
Proof.
  unfold PushBit_classify.
  change (PushBit_block (set_groups_ gs s)) with (PushBit_block s).
  generalize (OffsetForSyndrome (to_u16 (CalculateSyndrome (PushBit_block s)))).
  reflexivity.
Qed.

Lemma PushBit_classify_groups (s : BlockStream) :
  groups_ (PushBit_classify s) = groups_ s.
Proof.
  unfold PushBit_classify.
  generalize (OffsetForSyndrome (to_u16 (CalculateSyndrome (PushBit_block s)))).
  reflexivity.
Qed.

(** A call of [PushBit] on a decoder with another queue: the same call,
    with the same groups appended to the other queue. *)
Lemma PushBit_set_groups (s s' : BlockStream) (bit : bool) :
  PushBit s bit = Some s' ->
  exists new : list Group,
    groups_ s' = groups_ s ++ new /\
    forall gs : list Group,
      PushBit (set_groups_ gs s) bit = Some (set_groups_ (gs ++ new) s').
Proof.
  unfold PushBit.
  change (PushBit_shift (set_groups_ ?gs s) bit)
    with (set_groups_ gs (PushBit_shift s bit)).
  assert (Hgs : groups_ (PushBit_shift s bit) = groups_ s) by reflexivity.
  revert Hgs. generalize (PushBit_shift s bit). intros sh Hgs.
  change (PushBit_block (set_groups_ ?gs sh)) with (PushBit_block sh).
  change (left_to_read_ (set_groups_ ?gs sh)) with (left_to_read_ sh).
  generalize (PushBit_block sh). intros block.
  pose proof (fun gs => PushBit_classify_set_groups gs sh) as Hclass.
  pose proof (PushBit_classify_groups sh) as Hg0. rewrite Hgs in Hg0.
  revert Hclass Hg0.
  generalize (PushBit_classify sh). intros s0 Hclass Hg0.
  case_match.
  - intros [= <-]. exists []. split; [by rewrite app_nil_r, Hgs|].
    intros gs. fields. by rewrite app_nil_r.
  - destruct (AcquireSync s0) as [[s1 synced]|] eqn:Hacq;
      cbn [mbind option_bind]; [|done].
    pose proof (AcquireSync_frame _ _ _ Hacq)
      as (_ & _ & _ & _ & _ & _ & _ & _ & Hg1 & _).
    destruct synced.
    + destruct (PushBit_decode s1 block) as [s3|] eqn:Hdec;
        cbn [mbind option_bind]; [|done].
      destruct (PushBit_decode_frame _ _ _ Hdec)
        as [_ _ _ _ _ _ Hg3 _ _ _ _ _ _ _].
      fields. intros [= <-].
      exists (drop (length (groups_ s3)) (groups_ (PushBit_advance s3))).
      split.
      * rewrite <- Hg0, <- Hg1, <- Hg3. unfold PushBit_advance.
        case_decide; fields.
        -- by rewrite drop_app_length.
        -- by rewrite drop_all, app_nil_r.
      * intros gs. fields. rewrite Hclass, AcquireSync_set_groups, Hacq.
        cbn [mbind option_bind fmap option_fmap option_map fst snd].
        rewrite PushBit_decode_set_groups, Hdec.
        cbn [mbind option_bind fmap option_fmap option_map]. f_equal.
        unfold PushBit_advance. fields.
        case_decide; fields.
        -- by rewrite drop_app_length.
        -- by rewrite drop_all, app_nil_r.
    + intros [= <-]. exists []. fields.
      split; [by rewrite app_nil_r, Hg1, Hg0|].
      intros gs. fields. rewrite Hclass, AcquireSync_set_groups, Hacq.
      cbn [mbind option_bind fmap option_fmap option_map fst snd].
      by rewrite app_nil_r.
Qed.

Lemma PushBits_set_groups (bits : list bool) :
  forall s s' : BlockStream,
    PushBits s bits = Some s' ->
    exists new : list Group,
      groups_ s' = groups_ s ++ new /\
      forall gs : list Group,
        PushBits (set_groups_ gs s) bits = Some (set_groups_ (gs ++ new) s').
Proof.
  induction bits as [|bit bits IH]; intros s s'; cbn [PushBits].
  - intros [= <-]. exists []. split; [by rewrite app_nil_r|].
    intros gs. by rewrite app_nil_r.
  - destruct (PushBit s bit) as [s1|] eqn:H1; cbn [mbind option_bind]; [|done].
    intros H2.
    destruct (PushBit_set_groups _ _ _ H1) as (new1 & Hg1 & Hset1).
    destruct (IH _ _ H2) as (new2 & Hg2 & Hset2).
    exists (new1 ++ new2). split; [by rewrite Hg2, Hg1, app_assoc|].
    intros gs. rewrite Hset1. cbn [mbind option_bind].
    by rewrite Hset2, app_assoc.
Qed.

(** X14. When [PopGroups] is called does not matter.  A run of pushes
    from a decoder whose queue has just been drained succeeds when the run
    from the undrained decoder does; what was drained first, followed by
    what is drained after the run, is what the undrained decoder returns
    after the run, and the two decoders end in the same state. *)
Theorem PopGroups_PushBits (s s' : BlockStream) (bits : list bool) :
  PushBits s bits = Some s' ->
  exists t' : BlockStream,
    PushBits (PopGroups s).2 bits = Some t' /\
    (PopGroups s).1 ++ (PopGroups t').1 = (PopGroups s').1 /\
    (PopGroups t').2 = (PopGroups s').2.
Proof.
  intros Hrun.
  destruct (PushBits_set_groups _ _ _ Hrun) as (new & Hg & Hset).
  exists (set_groups_ ([] ++ new) s'). split; [apply Hset|].
  unfold PopGroups. fields. split; [by rewrite Hg|reflexivity].
Qed.

(** ** Scanning for a block boundary *)

(** One bit pushed into a scanning decoder whose candidate block does
    not classify: only the accumulator and the bit count move. *)
Lemma PushBit_scan (s : BlockStream) (bit : bool) :
  is_in_sync_ s = false ->
  left_to_read_ s = 1 ->
  OffsetForSyndrome
    (to_u16 (CalculateSyndrome (Z.land (input_register_ s) kBitmask26)))
    = invalid ->
  exists s' : BlockStream,
    PushBit s bit = Some s' /\
    is_in_sync_ s' = false /\
    left_to_read_ s' = 1 /\
    input_register_ s' = shift_register (input_register_ s) bit /\
    bitcount_ s' = bitcount_ s + 1 /\
    prevsync_ s' = prevsync_ s /\
    prevbitcount_ s' = prevbitcount_ s /\
    groups_ s' = groups_ s /\
    pi_ s' = pi_ s /\
    block_error_sum_ s' = block_error_sum_ s.
Proof.
  intros Hsync Hl Hinv. unfold PushBit.
  assert (H0 : (0 <? left_to_read_ (PushBit_shift s bit)) = false)
    by (apply Z.ltb_ge; unfold PushBit_shift; fields; lia).
  rewrite H0. clear H0.
  pose proof (PushBit_classify_fields s bit) as Hf. cbv zeta in Hf.
  rewrite Hinv in Hf. revert Hf.
  generalize (PushBit_classify (PushBit_shift s bit)).
  generalize (PushBit_block (PushBit_shift s bit)).
  intros block s0
    (Hr0 & Hs0 & _ & _ & Hg0 & Hp0 & Hw0 & Hps0 & Hpb0 & Hb0 & Hi0).
  unfold AcquireSync. rewrite Hs0, Hsync.
  rewrite decide_False by (intros H; exact (H Hr0)).
  cbn [mbind option_bind]. eexists. split; [reflexivity|]. fields.
  rewrite Hs0, Hsync. by repeat split.
Qed.

Lemma PushBits_scan (bits : list bool) :
  forall s : BlockStream,
    is_in_sync_ s = false ->
    left_to_read_ s = 1 ->
    Forall (fun w => OffsetForSyndrome (to_u16 (CalculateSyndrome w)) = invalid)
           (scan_windows (input_register_ s) bits) ->
    exists s' : BlockStream,
      PushBits s bits = Some s' /\
      is_in_sync_ s' = false /\
      left_to_read_ s' = 1 /\
      input_register_ s' = fold_left shift_register bits (input_register_ s) /\
      bitcount_ s' = bitcount_ s + Z.of_nat (length bits) /\
      prevsync_ s' = prevsync_ s /\
      prevbitcount_ s' = prevbitcount_ s /\
      groups_ s' = groups_ s /\
      pi_ s' = pi_ s /\
      block_error_sum_ s' = block_error_sum_ s.
Proof.
  induction bits as [|bit bits IH]; intros s Hsync Hl Hwin;
    cbn [PushBits scan_windows fold_left length] in *.
  - exists s. repeat split; try reflexivity; try assumption. lia.
  - apply Forall_cons in Hwin as [Hw Hwin].
    destruct (PushBit_scan s bit Hsync Hl Hw)
      as (s1 & -> & Hs1 & Hl1 & Hi1 & Hb1 & Hps1 & Hpb1 & Hg1 & Hp1 & Hw1).
    cbn [mbind option_bind]. rewrite <- Hi1 in Hwin.
    destruct (IH s1 Hs1 Hl1 Hwin)
      as (s' & Hrun & Hs' & Hl' & Hi' & Hb' & Hps' & Hpb' & Hg' & Hp' & Hw').
    exists s'. split; [exact Hrun|].
    rewrite Hi', Hi1, Hb', Hb1, Hps', Hps1, Hpb', Hpb1, Hg', Hg1, Hp', Hp1,
      Hw', Hw1.
    repeat split; try reflexivity; try assumption. lia.
Qed.

(** X15. While no candidate block classifies as a valid offset, a
    scanning decoder only shifts: every call has a result, the decoder
    stays out of sync and examines a candidate at every bit, no group is
    queued, and the anchor stays where it was. *)
Theorem PushBits_no_valid_window (s : BlockStream) (bits : list bool) :
  is_in_sync_ s = false ->
  left_to_read_ s = 1 ->
  Forall (fun w => OffsetForSyndrome (to_u16 (CalculateSyndrome w)) = invalid)
         (scan_windows (input_register_ s) bits) ->
  exists s' : BlockStream,
    PushBits s bits = Some s' /\
    is_in_sync_ s' = false /\
    left_to_read_ s' = 1 /\
    groups_ s' = groups_ s /\
    prevsync_ s' = prevsync_ s /\
    prevbitcount_ s' = prevbitcount_ s /\
    input_register_ s' = fold_left shift_register bits (input_register_ s) /\
    bitcount_ s' = bitcount_ s + Z.of_nat (length bits).
Proof.
  intros Hsync Hl Hwin.
  destruct (PushBits_scan bits s Hsync Hl Hwin)
    as (s' & Hrun & Hs' & Hl' & Hi' & Hb' & Hps' & Hpb' & Hg' & _).
  exists s'. by repeat split.
Qed.

(** [AcquireSync] locks on a block 26 bits after an anchor whose block
    number is the previous one. *)
Lemma AcquireSync_next_block (s : BlockStream) (n1 n2 : eBlockNumber) :
  is_in_sync_ s = false ->
  bitcount_ s - prevbitcount_ s = 26 ->
  BlockNumberForOffset (prevsync_ s) = Some n1 ->
  BlockNumberForOffset (received_offset_ s) = Some n2 ->
  Z.rem (eBlockNumber_to_Z n1 + 1) 4 = eBlockNumber_to_Z n2 ->
  exists s1 : BlockStream, AcquireSync s = Some (s1, true).
Proof.
  intros Hsync Hdist Hprev Hrecv Hnum. unfold AcquireSync.
  rewrite Hsync. rewrite decide_True by (by eapply BlockNumberForOffset_Some).
  unfold AcquireSync_cond. rewrite Hdist, Hprev, Hrecv.
  change (Z.rem 26 26) with 0. change (Z.quot 26 26) with 1.
  cbn [Z.eqb negb Z.leb Z.compare Pos.compare Pos.compare_cont mbind option_bind].
  rewrite Hnum, Z.eqb_refl. cbn [mbind option_bind]. by eexists.
Qed.

(** X16. Sync acquisition, end to end.  A scanning decoder has just taken
    a block as its anchor; the 26 bits of a block whose number is the next
    one follow, and no candidate in between classifies.  The bit after the
    block then locks the decoder: it is in sync, a whole block ahead, and
    expects the offset after the block's. *)
Theorem PushBits_acquires_sync (s : BlockStream) (b : Z) (x : bool)
    (n1 n2 : eBlockNumber) :
  reachable s ->
  is_in_sync_ s = false ->
  left_to_read_ s = 1 ->
  prevbitcount_ s = bitcount_ s ->
  BlockNumberForOffset (prevsync_ s) = Some n1 ->
  0 <= b < 2 ^ 26 ->
  BlockNumberForOffset (OffsetForSyndrome (to_u16 (CalculateSyndrome b)))
    = Some n2 ->
  Z.rem (eBlockNumber_to_Z n1 + 1) 4 = eBlockNumber_to_Z n2 ->
  Z.testbit (input_register_ s) 0 = Z.testbit b 25 ->
  Forall (fun w => OffsetForSyndrome (to_u16 (CalculateSyndrome w)) = invalid)
         (scan_windows (input_register_ s) (bits_msb 25 b)) ->
  exists s' : BlockStream,
    PushBits s (bits_msb 25 b ++ [x]) = Some s' /\
    is_in_sync_ s' = true /\
    left_to_read_ s' = 26 /\
    expected_offset_ s' =
      NextOffsetFor (OffsetForSyndrome (to_u16 (CalculateSyndrome b))) /\
    Z.testbit (input_register_ s') 0 = x.
Proof.
  intros Hreach Hsync Hl Hanchor Hprev Hb Hrecv Hnum Hbit Hwin.
  destruct (PushBits_scan _ s Hsync Hl Hwin)
    as (s25 & Hrun & Hs25 & Hl25 & Hi25 & Hb25 & Hps25 & Hpb25 & _).
  rewrite bits_msb_length in Hb25.
  pose proof (PushBit_block_aligned (input_register_ s) b x Hb Hbit) as HR.
  rewrite <- Hi25 in HR.
  pose proof (reachable_PushBits _ _ _ Hreach Hrun) as Hreach25.
  destruct (PushBit_inv s25 x (reachable_inv _ Hreach25)) as (s' & Hpush & _).
  exists s'. split.
  { rewrite PushBits_app, Hrun. cbn [mbind option_bind PushBits].
    rewrite Hpush. reflexivity. }
  pose proof (PushBit_classify_fields s25 x) as Hf.
  pose proof (PushBit_step _ _ _ Hpush) as Hstep.
  cbv zeta in Hf, Hstep. rewrite HR in Hf, Hstep.
  revert Hrecv Hf Hstep.
  generalize (OffsetForSyndrome (to_u16 (CalculateSyndrome b))).
  generalize (PushBit_classify (PushBit_shift s25 x)).
  intros s0 o Hrecv
    (Hr0 & Hs0 & He0 & Hc0 & Hg0 & Hp0 & Hw0 & Hps0 & Hpb0 & Hb0 & Hi0) Hstep.
  assert (Hlock : exists s1, AcquireSync s0 = Some (s1, true)).
  { apply (AcquireSync_next_block s0 n1 n2).
    - congruence.
    - rewrite Hb0, Hpb0, Hb25, Hpb25, Hanchor. lia.
    - by rewrite Hps0, Hps25.
    - by rewrite Hr0.
    - exact Hnum. }
  destruct Hlock as (s1' & Hlock).
  destruct Hstep
    as [[Hl' _]|[(_ & s1 & Hacq & _)|(_ & s1 & s3 & Hacq & Hdec & ->)]].
  - lia.
  - congruence.
  - clear Hlock s1'. rewrite <- Hs0 in Hs25.
    destruct (AcquireSync_lock _ _ Hs25 Hacq) as [Hvalid Hs1].
    destruct (lock_not_uncorrectable s0 b) as [Hoff _].
    rewrite <- Hs1 in Hoff.
    assert (Hf1 : received_offset_ s1 = o /\ is_in_sync_ s1 = true).
    { rewrite Hs1. fields. by rewrite Hr0. }
    destruct Hf1 as (Hr1 & Hsy1).
    rewrite Hr0 in Hoff.
    destruct (PushBit_decode_match s1 s3 b) as
      (_ & _ & _ & _ & _ & Hexp & _ & Hsync3); [congruence|exact Hdec|].
    pose proof (PushBit_decode_frame _ _ _ Hdec) as Hfr.
    destruct Hfr as [_ _ _ Hreg3 _ _ _ _ _ _ _ _ _ _]. fields.
    destruct (AcquireSync_frame _ _ _ Hacq) as (_ & _ & _ & _ & Hreg1 & _).
    destruct (PushBit_advance_fields s3) as (-> & -> & _ & _ & -> & ->).
    rewrite Hsync3, Hsy1, Hexp, Hoff, Hreg3, Hreg1, Hi0.
    repeat split; try reflexivity. apply shift_register_bit0.
Qed.

(** ** Groups of version B *)

(** Decoding a block that classifies as C' while C is expected: the
    offset C' is adopted and the word goes to the slot of C'. *)
Lemma PushBit_decode_good_Cprime (s : BlockStream) (block : Z) :
  expected_offset_ s = C ->
  received_offset_ s = Cprime ->
  RunningSum_wf (block_error_sum_ s) ->
  exists s' : BlockStream,
    PushBit_decode s block = Some s' /\
    decode_frame (set_expected_offset_ Cprime s) s' /\
    is_in_sync_ s' = is_in_sync_ s /\
    current_group_ s' =
      Group_set_c_prime (current_group_ s) (to_u16 (Z.shiftr block 10)) false.
Proof.
  intros Hexp Hrecv Hwf. unfold PushBit_decode.
  rewrite decide_True by (by split). fields.
  rewrite bool_decide_eq_false_2 by (intros H; by apply H).
  cbn [Z.b2z].
  destruct (RunningSum_push_window _ 0 Hwf) as (w & Hpush & Hw & Hlen & _).
  pose proof (RunningSum_push_flags _ _ false Hpush) as Hfl.
  rewrite Hpush. cbn [mbind option_bind]. unfold PushBit_store. fields.
  rewrite decide_True by done. rewrite decide_True by done.
  cbn [mbind option_bind].
  eexists. split; [reflexivity|].
  case_match; fields; by repeat split.
Qed.

(** The bit that completes a good block C' where C is expected. *)
Lemma PushBit_good_block_Cprime (s : BlockStream) (x : bool) :
  is_in_sync_ s = true ->
  left_to_read_ s = 1 ->
  RunningSum_wf (block_error_sum_ s) ->
  expected_offset_ s = C ->
  OffsetForSyndrome
    (to_u16 (CalculateSyndrome (Z.land (input_register_ s) kBitmask26)))
    = Cprime ->
  exists s' : BlockStream,
    PushBit s x = Some s' /\
    is_in_sync_ s' = true /\
    left_to_read_ s' = 26 /\
    RunningSum_wf (block_error_sum_ s') /\
    expected_offset_ s' = D /\
    input_register_ s' = shift_register (input_register_ s) x /\
    groups_ s' = groups_ s /\
    current_group_ s' =
      Group_set_c_prime (current_group_ s)
        (to_u16 (Z.shiftr (Z.land (input_register_ s) kBitmask26) 10)) false.
Proof.
  intros Hsync Hl Hwf Hexp Hclass. unfold PushBit.
  assert (H0 : (0 <? left_to_read_ (PushBit_shift s x)) = false).
  { apply Z.ltb_ge. unfold PushBit_shift. fields. lia. }
  rewrite H0. unfold PushBit_classify. rewrite PushBit_block_shift, Hclass.
  set (block := Z.land (input_register_ s) kBitmask26).
  set (s2 := set_received_offset_ Cprime (PushBit_shift s x)).
  assert (Hs2 : is_in_sync_ s2 = true /\ expected_offset_ s2 = C /\
                received_offset_ s2 = Cprime /\
                block_error_sum_ s2 = block_error_sum_ s /\
                current_group_ s2 = current_group_ s /\
                groups_ s2 = groups_ s /\
                input_register_ s2 = shift_register (input_register_ s) x)
    by (subst s2; unfold PushBit_shift; by fields).
  destruct Hs2 as (Hsync2 & Hexp2 & Hrecv2 & Hsum2 & Hcur2 & Hgr2 & Hreg2).
  unfold AcquireSync. rewrite Hsync2. cbn [mbind option_bind].
  destruct (PushBit_decode_good_Cprime s2 block)
    as (s3 & -> & Hfr & Hsync3 & Hcur3); [congruence..|].
  cbn [mbind option_bind]. eexists. split; [reflexivity|].
  destruct Hfr as [_ _ _ Hreg3 _ Hexp3 Hgr3 _ _ _ _ Hwf3 _ _]. fields.
  destruct (PushBit_advance_fields s3) as (-> & -> & _ & -> & -> & ->).
  rewrite Hexp3, Hreg3, Hreg2, Hsync3, Hsync2.
  do 2 (split; [done|]). split; [apply Hwf3; congruence|].
  do 2 (split; [done|]).
  unfold PushBit_advance. fields. rewrite Hexp3.
  rewrite decide_False by done. fields.
  by rewrite Hgr3, Hgr2, Hcur3, Hcur2.
Qed.

Lemma PushBits_good_block_Cprime (s : BlockStream) (b : Z) (x : bool) :
  is_in_sync_ s = true ->
  left_to_read_ s = 26 ->
  RunningSum_wf (block_error_sum_ s) ->
  expected_offset_ s = C ->
  0 <= b < 2 ^ 26 ->
  OffsetForSyndrome (to_u16 (CalculateSyndrome b)) = Cprime ->
  Z.testbit (input_register_ s) 0 = Z.testbit b 25 ->
  exists s' : BlockStream,
    PushBits s (bits_msb 25 b ++ [x]) = Some s' /\
    is_in_sync_ s' = true /\
    left_to_read_ s' = 26 /\
    RunningSum_wf (block_error_sum_ s') /\
    expected_offset_ s' = D /\
    Z.testbit (input_register_ s') 0 = x /\
    groups_ s' = groups_ s /\
    current_group_ s' =
      Group_set_c_prime (current_group_ s) (Z.shiftr b 10) false.
Proof.
  intros Hsync Hl Hwf Hexp Hb Hclass Hbit.
  rewrite PushBits_unit by (rewrite bits_msb_length, Hl; lia).
  rewrite fold_PushBit_shift, bits_msb_length.
  pose proof (PushBit_block_aligned (input_register_ s) b x Hb Hbit) as HR.
  revert HR.
  generalize (fold_left shift_register (bits_msb 25 b) (input_register_ s)).
  intros R HR.
  assert (Hs25 :
    let s25 := set_bitcount_ (bitcount_ s + Z.of_nat 25)
                 (set_left_to_read_ (left_to_read_ s - Z.of_nat 25)
                    (set_input_register_ R s)) in
    is_in_sync_ s25 = true /\ left_to_read_ s25 = 1 /\
    block_error_sum_ s25 = block_error_sum_ s /\
    expected_offset_ s25 = C /\ input_register_ s25 = R /\
    current_group_ s25 = current_group_ s /\
    groups_ s25 = groups_ s).
  { fields. repeat split; try done. lia. }
  revert Hs25.
  generalize (set_bitcount_ (bitcount_ s + Z.of_nat 25)
                (set_left_to_read_ (left_to_read_ s - Z.of_nat 25)
                   (set_input_register_ R s))).
  intros s25 (Hsync' & Hl' & Hsum' & Hexp' & Hreg' & Hcur' & Hgr').
  assert (Hwf' : RunningSum_wf (block_error_sum_ s25)) by by rewrite Hsum'.
  assert (Hclass' : OffsetForSyndrome
            (to_u16 (CalculateSyndrome
                       (Z.land (input_register_ s25) kBitmask26))) = Cprime)
    by (rewrite Hreg', HR; exact Hclass).
  destruct (PushBit_good_block_Cprime s25 x Hsync' Hl' Hwf' Hexp' Hclass')
    as (s' & Hpush & H1 & H2 & H3 & H4 & H5 & H6 & H7).
  exists s'. split; [exact Hpush|].
  rewrite Hreg', HR, message_fits, Hcur' in H7 by exact Hb.
  rewrite H5, shift_register_bit0, H6, Hgr'. by repeat split.
Qed.

(** X17. The round trip of C1 for a group of version B.  Four error-free
    blocks that classify as A, B, C' and D, pushed from the second bit of
    the first on into a decoder that is in sync at a group boundary and
    expects block A, followed by one more bit: [PopGroups] returns one
    group, with the third word in the slot of C' and no error flag. *)
Theorem PopGroups_version_B (s : BlockStream) (bA bB bC bD : Z) (x : bool) :
  reachable s ->
  is_in_sync_ s = true ->
  expected_offset_ s = A ->
  left_to_read_ s = 26 ->
  groups_ s = [] ->
  Z.testbit (input_register_ s) 0 = Z.testbit bA 25 ->
  (0 <= bA < 2 ^ 26 /\
   OffsetForSyndrome (to_u16 (CalculateSyndrome bA)) = A) ->
  (0 <= bB < 2 ^ 26 /\
   OffsetForSyndrome (to_u16 (CalculateSyndrome bB)) = B) ->
  (0 <= bC < 2 ^ 26 /\
   OffsetForSyndrome (to_u16 (CalculateSyndrome bC)) = Cprime) ->
  (0 <= bD < 2 ^ 26 /\
   OffsetForSyndrome (to_u16 (CalculateSyndrome bD)) = D) ->
  exists s' : BlockStream,
    PushBits s
      (tail (block_bits bA ++ block_bits bB ++ block_bits bC ++ block_bits bD)
       ++ [x]) = Some s' /\
    (PopGroups s').1 =
      [Group_set
         (Group_set_c_prime
            (Group_set
               (Group_set Group_new BLOCK1 (Z.shiftr bA 10) false)
               BLOCK2 (Z.shiftr bB 10) false)
            (Z.shiftr bC 10) false)
         BLOCK4 (Z.shiftr bD 10) false].
Proof.
  intros Hreach Hsync Hexp Hl Hgr Hbit [HbA HcA] [HbB HcB] [HbC HcC] [HbD HcD].
  pose proof (inv_window _ (reachable_inv s Hreach)) as Hwf.
  assert (Hcur : current_group_ s = Group_new)
    by (by apply (reachable_boundary s Hreach)).
  assert (Hbits :
    tail (block_bits bA ++ block_bits bB ++ block_bits bC ++ block_bits bD)
      ++ [x] =
    (bits_msb 25 bA ++ [Z.testbit bB 25]) ++
    (bits_msb 25 bB ++ [Z.testbit bC 25]) ++
    (bits_msb 25 bC ++ [Z.testbit bD 25]) ++
    (bits_msb 25 bD ++ [x])).
  { unfold block_bits. rewrite !(bits_msb_S 25).
    change (Z.of_nat 25) with 25. cbn [tail app].
    rewrite <- !app_assoc. cbn [app]. reflexivity. }
  rewrite Hbits. clear Hbits.
  destruct (PushBits_good_block s bA (Z.testbit bB 25) A BLOCK1)
    as (s1 & E1 & Hs1 & Hl1 & Hw1 & He1 & Hb1 & Hg1); try done.
  cbn [NextOffsetFor] in He1, Hg1.
  rewrite decide_False in Hg1 by done. destruct Hg1 as [Hg1 Hc1].
  destruct (PushBits_good_block s1 bB (Z.testbit bC 25) B BLOCK2)
    as (s2 & E2 & Hs2 & Hl2 & Hw2 & He2 & Hb2 & Hg2); try done.
  cbn [NextOffsetFor] in He2, Hg2.
  rewrite decide_False in Hg2 by done. destruct Hg2 as [Hg2 Hc2].
  destruct (PushBits_good_block_Cprime s2 bC (Z.testbit bD 25))
    as (s3 & E3 & Hs3 & Hl3 & Hw3 & He3 & Hb3 & Hg3 & Hc3); try done.
  destruct (PushBits_good_block s3 bD x D BLOCK4)
    as (s4 & E4 & Hs4 & Hl4 & Hw4 & He4 & Hb4 & Hg4); try done.
  cbn [NextOffsetFor] in He4, Hg4.
  rewrite decide_True in Hg4 by done. destruct Hg4 as [Hg4 Hc4].
  exists s4. split.
  - revert E1 E2 E3 E4.
    generalize (bits_msb 25 bA ++ [Z.testbit bB 25]).
    generalize (bits_msb 25 bB ++ [Z.testbit bC 25]).
    generalize (bits_msb 25 bC ++ [Z.testbit bD 25]).
    generalize (bits_msb 25 bD ++ [x]).
    intros c4 c3 c2 c1 E1 E2 E3 E4.
    rewrite PushBits_app, E1, mbind_Some.
    rewrite PushBits_app, E2, mbind_Some.
    rewrite PushBits_app, E3, mbind_Some.
    exact E4.
  - unfold PopGroups. fields.
    rewrite Hg4, Hg3, Hg2, Hg1, Hgr, Hc3, Hc2, Hc1, Hcur.
    reflexivity.
Qed.

End BlockStreamFacts.

(** ** The cycle of offsets *)

Lemma NextOffsetFor_iter4 (o : Offset) (q : nat) :
  In o [A; B; C; D] -> Nat.iter (4 * q) NextOffsetFor o = o.
Proof.
  intros Ho. induction q as [|q IH]; [reflexivity|].
  replace (4 * S q)%nat with (4 + 4 * q)%nat by lia.
  rewrite Nat.iter_add, IH. cbn [In] in Ho.
  destruct Ho as [<-|[<-|[<-|[<-|[]]]]]; reflexivity.
Qed.

(** X18. The offsets the decoder expects run through the cycle A, B, C, D
    of period exactly 4.  From any offset, [invalid] included, the next one
    is in the cycle; an offset in the cycle comes back after [k] steps if
    and only if [k] is a multiple of 4; and offset C' continues the same way
    as offset C, whose position in the group it shares. *)
Theorem NextOffsetFor_cycle (o : Offset) (k : nat) :
  In (NextOffsetFor o) [A; B; C; D] /\
  NextOffsetFor invalid = A /\
  NextOffsetFor Cprime = NextOffsetFor C /\
  BlockNumberForOffset Cprime = BlockNumberForOffset C /\
  (In o [A; B; C; D] ->
   (Nat.iter k NextOffsetFor o = o <-> (k mod 4 = 0)%nat) /\
   BlockNumberForOffset (Nat.iter k NextOffsetFor o) =
     BlockNumberForOffset (Nat.iter (k mod 4) NextOffsetFor o)).
Proof.
  split; [destruct o; cbn; tauto|].
  do 3 (split; [reflexivity|]).
  intros Ho.
  assert (Hk : Nat.iter k NextOffsetFor o =
               Nat.iter (k mod 4) NextOffsetFor o).
  { pose proof (Nat.div_mod_eq k 4) as E.
    pose proof (Nat.iter_add (k mod 4) (4 * (k / 4)) NextOffsetFor o) as H.
    rewrite (NextOffsetFor_iter4 o (k / 4) Ho) in H.
    replace (k mod 4 + 4 * (k / 4))%nat with k in H by lia.
    exact H. }
  split; [|by rewrite Hk].
  rewrite Hk.
  assert (Hr : (k mod 4 < 4)%nat) by (apply Nat.mod_upper_bound; lia).
  revert Hr. generalize (k mod 4)%nat. intros r Hr.
  cbn [In] in Ho.
  destruct r as [|[|[|[|r]]]]; [| | | |lia];
    destruct Ho as [<-|[<-|[<-|[<-|[]]]]]; cbn [Nat.iter nat_rect NextOffsetFor];
    split; intros H; first [reflexivity|discriminate H].
Qed.

(** Five steps from offset C lead to offset D, as one step does. *)
Lemma NextOffsetFor_cycle_witness :
  In C [A; B; C; D] /\
  Nat.iter 5 NextOffsetFor C <> C /\
  BlockNumberForOffset (Nat.iter 5 NextOffsetFor C) = Some BLOCK4.
Proof.
  assert (Ho : In C [A; B; C; D]) by (cbn; tauto).
  destruct (NextOffsetFor_cycle C 5) as (_ & _ & _ & _ & H).
  destruct (H Ho) as [Hiff Hbn].
  split; [exact Ho|]. split.
  - intros Heq. apply Hiff in Heq. discriminate Heq.
  - rewrite Hbn. reflexivity.
Defined.

(** * Concrete runs *)

(** A closed range statement, by evaluation. *)
Ltac Zrange :=
  vm_compute; split; [let H := fresh in intros H; discriminate H|reflexivity].

Lemma locked_state_reachable : reachable locked_state.
Proof.
  assert (H : exists s,
             PushBits (BlockStream_new tt)
               (block_bits 0x0FC ++ block_bits 0x198 ++ block_bits 0x168 ++
                block_bits 0x1B4 ++ [false]) = Some s /\
             locked_state = (PopGroups s).2).
  { eexists. split; vm_compute; reflexivity. }
  destruct H as (s & Hs & ->).
  apply reachable_PopGroups.
  exact (reachable_PushBits _ _ _ (reachable_new tt) Hs).
Qed.

(** The group 0x1234 0xABCD 0x0001 0xFFFF, pushed from the second bit on
    and followed by one bit of whatever comes next. *)
Lemma PopGroups_good_group_witness :
  (reachable locked_state /\
   is_in_sync_ locked_state = true /\
   expected_offset_ locked_state = A /\
   left_to_read_ locked_state = 26 /\
   groups_ locked_state = [] /\
   Z.testbit (input_register_ locked_state) 0 =
     Z.testbit (encode_block 0x1234 0x0FC) 25) /\
  exists s' : BlockStream,
    PushBits locked_state
      (tail (block_bits (encode_block 0x1234 0x0FC) ++
             block_bits (encode_block 0xABCD 0x198) ++
             block_bits (encode_block 0x0001 0x168) ++
             block_bits (encode_block 0xFFFF 0x1B4)) ++ [true]) = Some s' /\
    (PopGroups s').1 =
      [{| block1 := Some (0x1234, false); block2 := Some (0xABCD, false);
          block3 := Some (0x0001, false); block4 := Some (0xFFFF, false);
          has_c_prime := false |}].
Proof.
  assert (H1 : is_in_sync_ locked_state = true) by (vm_compute; reflexivity).
  assert (H2 : expected_offset_ locked_state = A) by (vm_compute; reflexivity).
  assert (H3 : left_to_read_ locked_state = 26) by (vm_compute; reflexivity).
  pose proof locked_state_reachable as H4.
  assert (H5 : groups_ locked_state = []) by (vm_compute; reflexivity).
  assert (H7 : Z.testbit (input_register_ locked_state) 0 =
               Z.testbit (encode_block 0x1234 0x0FC) 25)
    by (vm_compute; reflexivity).
  assert (HA : 0 <= encode_block 0x1234 0x0FC < 2 ^ 26 /\
               OffsetForSyndrome
                 (to_u16 (CalculateSyndrome (encode_block 0x1234 0x0FC))) = A)
    by (clear; split; [Zrange|vm_compute; reflexivity]).
  assert (HB : 0 <= encode_block 0xABCD 0x198 < 2 ^ 26 /\
               OffsetForSyndrome
                 (to_u16 (CalculateSyndrome (encode_block 0xABCD 0x198))) = B)
    by (clear; split; [Zrange|vm_compute; reflexivity]).
  assert (HC : 0 <= encode_block 0x0001 0x168 < 2 ^ 26 /\
               OffsetForSyndrome
                 (to_u16 (CalculateSyndrome (encode_block 0x0001 0x168))) = C)
    by (clear; split; [Zrange|vm_compute; reflexivity]).
  assert (HD : 0 <= encode_block 0xFFFF 0x1B4 < 2 ^ 26 /\
               OffsetForSyndrome
                 (to_u16 (CalculateSyndrome (encode_block 0xFFFF 0x1B4))) = D)
    by (clear; split; [Zrange|vm_compute; reflexivity]).
  split; [exact (conj H4 (conj H1 (conj H2 (conj H3 (conj H5 H7)))))|].
  destruct (PopGroups_good_group locked_state _ _ _ _ true
              H4 H1 H2 H3 H5 H7 HA HB HC HD) as (s' & Hpush & Hpop).
  exists s'. split; [exact Hpush|].
  rewrite Hpop. vm_compute. reflexivity.
Defined.

(** C1 fails as stated, on two counts.  From the locked state, which
    expects offset A, the 104 bits of a complete error-free group (message
    words 0, so that the blocks are the bare check words) do not come out
    as that group: every block is read one bit late.  And when the group is
    pushed from its second bit on, as the lag requires, blocks formed as the
    message word shifted left by 10 XOR the check word come out with other
    words and with error flags, since the check bits of the message are
    missing. *)
Lemma PopGroups_good_group_counterexample :
  is_in_sync_ locked_state = true /\
  expected_offset_ locked_state = A /\
  groups_ locked_state = [] /\
  decode_run locked_state
    (block_bits (Z.lxor (Z.shiftl 0 10) 0x0FC) ++
     block_bits (Z.lxor (Z.shiftl 0 10) 0x198) ++
     block_bits (Z.lxor (Z.shiftl 0 10) 0x168) ++
     block_bits (Z.lxor (Z.shiftl 0 10) 0x1B4)) <>
    Some [{| block1 := Some (0, false); block2 := Some (0, false);
             block3 := Some (0, false); block4 := Some (0, false);
             has_c_prime := false |}] /\
  decode_run locked_state
    (tail (block_bits (Z.lxor (Z.shiftl 1 10) 0x0FC) ++
           block_bits (Z.lxor (Z.shiftl 2 10) 0x198) ++
           block_bits (Z.lxor (Z.shiftl 3 10) 0x168) ++
           block_bits (Z.lxor (Z.shiftl 4 10) 0x1B4)) ++ [false]) <>
    Some [{| block1 := Some (1, false); block2 := Some (2, false);
             block3 := Some (3, false); block4 := Some (4, false);
             has_c_prime := false |}].
Proof.
  split_and!; try (vm_compute; reflexivity);
    vm_compute; discriminate.
Qed.

(** C2 fails as stated, on two counts.  When the last bit of block A has
    been pushed into a new decoder, the low 26 bits of the accumulator are
    that block, but the block that was classified is the one a bit earlier,
    and it is not recognised.  And the call that drops sync leaves the
    decoder out of sync with a unit of 26 bits ahead. *)
Lemma PushBit_ingestion_counterexample :
  (PushBits (BlockStream_new tt) (block_bits 0x0FC) = Some scanning_state /\
   is_in_sync_ scanning_state = false /\
   left_to_read_ scanning_state = 1 /\
   Z.land (input_register_ scanning_state) kBitmask26 = 0x0FC /\
   OffsetForSyndrome
     (to_u16 (CalculateSyndrome
                (Z.land (input_register_ scanning_state) kBitmask26))) = A /\
   received_offset_ scanning_state = invalid) /\
  (exists s' : BlockStream,
      PushBit failing_state false = Some s' /\
      is_in_sync_ s' = false /\ left_to_read_ s' = 26).
Proof.
  split.
  - split_and!; vm_compute; reflexivity.
  - eexists. split_and!; vm_compute; reflexivity.
Qed.

(** The bit after block A: the block classified is block A, the low 26
    bits of the accumulator before the bit. *)
Lemma PushBit_ingestion_witness :
  left_to_read_ scanning_state <= 1 /\
  is_in_sync_ scanning_state = false /\
  Z.land (input_register_ scanning_state) kBitmask26 = 0x0FC /\
  forall s' : BlockStream,
    PushBit scanning_state false = Some s' ->
    input_register_ s' = 0x1F8 /\
    (is_in_sync_ s' = false ->
     left_to_read_ s' = 1 /\ received_offset_ s' = A).
Proof.
  assert (Hl : left_to_read_ scanning_state <= 1)
    by (clear; vm_compute; let H := fresh in intros H; discriminate H).
  assert (Hs : is_in_sync_ scanning_state = false)
    by (clear; vm_compute; reflexivity).
  assert (Hb : Z.land (input_register_ scanning_state) kBitmask26 = 0x0FC)
    by (clear; vm_compute; reflexivity).
  destruct (PushBit_ingestion scanning_state false) as (Hall & _ & H).
  destruct (H Hl) as (_ & _ & Hunit). clear H.
  split; [exact Hl|]. split; [exact Hs|]. split; [exact Hb|].
  intros s' Hpush. split.
  - rewrite (proj1 (Hall s' Hpush)). clear. vm_compute. reflexivity.
  - intros Hs'. destruct (proj2 (proj2 (Hunit s' Hpush)) Hs Hs') as [H1 H2].
    split; [exact H1|]. rewrite H2, Hb. clear. vm_compute. reflexivity.
Defined.



(** The 46th uncorrectable block in a row: sync is dropped. *)
Lemma sync_lost_exactly_witness :
  is_in_sync_ failing_state = true /\
  PushBit failing_state false = Some lost_state /\
  is_in_sync_ lost_state = false /\
  (left_to_read_ failing_state <= 1 /\
   uncorrectable (PushBit_classify (PushBit_shift failing_state false))
     (PushBit_block (PushBit_shift failing_state false)) /\
   45 < Zsum (drop 1 (RunningSum_window (block_error_sum_ failing_state))
              ++ [1])) /\
  pi_ lost_state = 0.
Proof.
  assert (Hs : is_in_sync_ failing_state = true)
    by (clear; vm_compute; reflexivity).
  assert (Hp : PushBit failing_state false = Some lost_state)
    by (clear; vm_compute; reflexivity).
  assert (Hl : is_in_sync_ lost_state = false)
    by (clear; vm_compute; reflexivity).
  destruct (sync_lost_exactly failing_state lost_state false Hs Hp)
    as (Hiff & Hreset & _).
  split; [exact Hs|]. split; [exact Hp|]. split; [exact Hl|].
  split; [exact (proj1 Hiff Hl)|exact (proj1 (Hreset Hl))].
Defined.

(** C6 fails as stated in its last part.  Fifty blocks in a row that each
    carry a bit error, all decoded while in sync: the decoder is in sync
    after the lock and after each of the fifty blocks, and in the end all 50
    slots of the error window are set.  Each error was corrected, so
    [Uncorrectable] was never called. *)
Lemma sync_lost_exactly_counterexample :
  forallb
    (fun k =>
       match PushBits (BlockStream_new tt) (take (53 + 26 * k) noisy_stream)
       with
       | Some s => is_in_sync_ s
       | None => false
       end)
    (seq 0 51) = true /\
  exists s : @BlockStream SpecCollaborators,
    PushBits (BlockStream_new tt) noisy_stream = Some s /\
    is_in_sync_ s = true /\
    length (RunningSum.history_ (block_error_sum_ s)) = 50%nat /\
    RunningSum.sum (block_error_sum_ s) = Some 50.
Proof.
  split; [vm_compute; reflexivity|].
  eexists. split; [|split; [|split]].
  - vm_compute. reflexivity.
  - vm_compute. reflexivity.
  - vm_compute. reflexivity.
  - vm_compute. reflexivity.
Qed.

(** The bit that completes block D appends the group to the queue. *)
Lemma PopGroups_drains_witness :
  PushBit boundary_state false = Some queued_state /\
  ((PopGroups queued_state).1 = groups_ boundary_state \/
   exists g : Group, (PopGroups queued_state).1 = groups_ boundary_state ++ [g]).
Proof.
  assert (Hp : PushBit boundary_state false = Some queued_state)
    by (clear; vm_compute; reflexivity).
  split; [exact Hp|].
  exact (proj2 (proj2 (proj2 (PopGroups_drains boundary_state))) false
           queued_state Hp).
Defined.

(** The locked decoder, and the next bit. *)
Lemma expected_offset_valid_witness :
  reachable locked_state /\
  expected_offset_ locked_state <> invalid /\
  exists s' : BlockStream,
    PushBit locked_state true = Some s' /\ expected_offset_ s' <> invalid.
Proof.
  destruct (expected_offset_valid locked_state true locked_state_reachable)
    as (H1 & H2 & _).
  exact (conj locked_state_reachable (conj H1 H2)).
Defined.

(** ** Runs for the decoder's invariants *)

Lemma PushBits_new_reachable (bits : list bool)
    (s : @BlockStream SpecCollaborators) :
  PushBits (BlockStream_new tt) bits = Some s -> reachable s.
Proof. exact (reachable_PushBits _ _ _ (reachable_new tt)). Qed.

Lemma lost_state_reachable : reachable lost_state.
Proof.
  apply (PushBits_new_reachable
           ((block_bits 0x0FC ++ block_bits 0x198 ++ garbage 46) ++ [false])).
  vm_compute. reflexivity.
Qed.

Lemma anchored_state_reachable : reachable anchored_state.
Proof.
  apply (PushBits_new_reachable (block_bits 0x0FC ++ [false])).
  vm_compute. reflexivity.
Qed.

Lemma boundary_state_reachable : reachable boundary_state.
Proof.
  apply (PushBits_new_reachable
           (block_bits 0x0FC ++ block_bits 0x198 ++ block_bits 0x168 ++
            block_bits 0x1B4)).
  vm_compute. reflexivity.
Qed.

Lemma flipped_state_reachable : reachable flipped_state.
Proof.
  apply (PushBits_new_reachable
           (block_bits 0x0FC ++ block_bits 0x198 ++
            block_bits (Z.lxor 0x168 1))).
  vm_compute. reflexivity.
Qed.

(** The locked decoder expects offset A, a whole block ahead. *)
Lemma reachable_offsets_witness :
  reachable locked_state /\
  In (expected_offset_ locked_state) [A; B; C; D] /\
  prevsync_ locked_state <> invalid /\
  1 <= left_to_read_ locked_state <= 26 /\
  prevbitcount_ locked_state <= bitcount_ locked_state.
Proof.
  exact (conj locked_state_reachable
           (reachable_offsets locked_state locked_state_reachable)).
Defined.

(** The decoder that has just lost sync: its window is empty again. *)
Lemma reachable_window_witness :
  reachable lost_state /\
  is_in_sync_ lost_state = false /\
  RunningSum.sum (block_error_sum_ lost_state) = Some 0 /\
  pi_ lost_state = 0.
Proof.
  assert (Hs : is_in_sync_ lost_state = false)
    by (clear; vm_compute; reflexivity).
  destruct (reachable_window lost_state lost_state_reachable)
    as (_ & _ & _ & (errors & Hsum & _ & Hzero) & Hpi).
  split; [exact lost_state_reachable|]. split; [exact Hs|].
  split; [|exact (Hpi Hs)].
  rewrite Hsum, (Hzero Hs). reflexivity.
Defined.

(** The bit after block A: the scanning decoder takes block A as its
    anchor and is otherwise as before. *)
Lemma PushBit_out_of_sync_witness :
  is_in_sync_ scanning_state = false /\
  PushBit scanning_state false = Some anchored_state /\
  is_in_sync_ anchored_state = false /\
  groups_ anchored_state = groups_ scanning_state /\
  block_error_sum_ anchored_state = block_error_sum_ scanning_state /\
  received_offset_ anchored_state = A /\
  prevbitcount_ anchored_state = 27.
Proof.
  assert (Hs : is_in_sync_ scanning_state = false)
    by (clear; vm_compute; reflexivity).
  assert (Hp : PushBit scanning_state false = Some anchored_state)
    by (clear; vm_compute; reflexivity).
  assert (Hs' : is_in_sync_ anchored_state = false)
    by (clear; vm_compute; reflexivity).
  destruct (PushBit_out_of_sync scanning_state anchored_state false Hs Hp Hs')
    as (Hg & _ & _ & _ & Hw & _).
  split; [exact Hs|]. split; [exact Hp|]. split; [exact Hs'|].
  split; [exact Hg|]. split; [exact Hw|].
  split; clear; vm_compute; reflexivity.
Defined.

(** The bit after block B, 26 bits after the anchor on block A: the
    decoder locks, stores the word of block B and expects offset C. *)
Lemma PushBit_lock_decodes_witness :
  is_in_sync_ prelock_state = false /\
  PushBit prelock_state false = Some lock_state /\
  is_in_sync_ lock_state = true /\
  left_to_read_ lock_state = 26 /\
  expected_offset_ lock_state = C /\
  current_group_ lock_state =
    {| block1 := None; block2 := Some (0, false); block3 := None;
       block4 := None; has_c_prime := false |}.
Proof.
  assert (Hs : is_in_sync_ prelock_state = false)
    by (clear; vm_compute; reflexivity).
  assert (Hp : PushBit prelock_state false = Some lock_state)
    by (clear; vm_compute; reflexivity).
  assert (Hs' : is_in_sync_ lock_state = true)
    by (clear; vm_compute; reflexivity).
  assert (Ho : OffsetForSyndrome
                 (to_u16 (CalculateSyndrome
                            (Z.land (input_register_ prelock_state)
                                    kBitmask26))) = B)
    by (clear; vm_compute; reflexivity).
  assert (Hm : Z.shiftr (Z.land (input_register_ prelock_state) kBitmask26) 10
               = 0)
    by (clear; vm_compute; reflexivity).
  pose proof (PushBit_lock_decodes prelock_state lock_state false Hs Hp Hs')
    as H.
  cbv zeta in H. rewrite Ho, Hm in H.
  destruct H as (_ & _ & Hl & He & g & Hg & _ & Hq).
  split; [exact Hs|]. split; [exact Hp|]. split; [exact Hs'|].
  split; [exact Hl|]. split; [exact He|].
  rewrite decide_False in Hq by discriminate.
  rewrite (proj2 Hq). clear -Hg. cbn in Hg.
  injection Hg as <-. reflexivity.
Defined.

(** The bit that completes block D of the first group queues that group. *)
Lemma PushBit_queues_after_D_witness :
  reachable boundary_state /\
  is_in_sync_ boundary_state = true /\
  PushBit boundary_state false = Some queued_state /\
  left_to_read_ boundary_state = 1 /\
  expected_offset_ boundary_state = D /\
  current_group_ queued_state = Group_new /\
  exists g : Group, groups_ queued_state = groups_ boundary_state ++ [g].
Proof.
  assert (Hs : is_in_sync_ boundary_state = true)
    by (clear; vm_compute; reflexivity).
  assert (Hp : PushBit boundary_state false = Some queued_state)
    by (clear; vm_compute; reflexivity).
  assert (Hl : left_to_read_ boundary_state = 1)
    by (clear; vm_compute; reflexivity).
  assert (He : expected_offset_ boundary_state = D)
    by (clear; vm_compute; reflexivity).
  pose proof (PushBit_queues_after_D boundary_state queued_state false
                boundary_state_reachable Hs Hp) as H.
  cbv zeta in H. rewrite decide_True in H by (split; [exact Hl|exact He]).
  destruct H as (Hc & g & Hg & _).
  split; [exact boundary_state_reachable|]. split; [exact Hs|].
  split; [exact Hp|]. split; [exact Hl|]. split; [exact He|].
  split; [exact Hc|]. exists g. exact Hg.
Defined.

(** Block C of message 0 with its lowest bit flipped: the word 0 is stored
    for block 3, with the error flag. *)
Lemma PushBit_corrects_burst_witness :
  (reachable flipped_state /\
   is_in_sync_ flipped_state = true /\
   left_to_read_ flipped_state = 1 /\
   expected_offset_ flipped_state = C /\
   Z.land (input_register_ flipped_state) kBitmask26 = Z.lxor 0x168 1) /\
  exists s' : BlockStream,
    PushBit flipped_state false = Some s' /\
    is_in_sync_ s' = true /\
    expected_offset_ s' = D /\
    current_group_ s' =
      {| block1 := None; block2 := Some (0, false);
         block3 := Some (0, true); block4 := None; has_c_prime := false |}.
Proof.
  assert (Hs : is_in_sync_ flipped_state = true)
    by (clear; vm_compute; reflexivity).
  assert (Hl : left_to_read_ flipped_state = 1)
    by (clear; vm_compute; reflexivity).
  assert (He : expected_offset_ flipped_state = C)
    by (clear; vm_compute; reflexivity).
  assert (Hn : BlockNumberForOffset (expected_offset_ flipped_state) =
               Some BLOCK3)
    by (clear; vm_compute; reflexivity).
  assert (Hb : OffsetForSyndrome (to_u16 (CalculateSyndrome 0x168)) =
               expected_offset_ flipped_state)
    by (clear; vm_compute; reflexivity).
  assert (Herr : single_bit_error 1 \/ adjacent_pair_error 1).
  { left. exists 0%nat. split; [lia|reflexivity]. }
  assert (Hr : Z.land (input_register_ flipped_state) kBitmask26 =
               Z.lxor 0x168 1)
    by (clear; vm_compute; reflexivity).
  assert (Hc : current_group_ flipped_state =
               {| block1 := None; block2 := Some (0, false); block3 := None;
                  block4 := None; has_c_prime := false |})
    by (clear; vm_compute; reflexivity).
  split; [exact (conj flipped_state_reachable
                   (conj Hs (conj Hl (conj He Hr))))|].
  destruct (PushBit_corrects_burst flipped_state false 0x168 1 BLOCK3
              flipped_state_reachable Hs Hl Hn Hb Herr Hr)
    as (s' & Hp & Hs' & _ & He' & _ & Hq).
  exists s'. split; [exact Hp|]. split; [exact Hs'|].
  split; [rewrite He', He; reflexivity|].
  cbv zeta in Hq. rewrite decide_False in Hq by (rewrite He; discriminate).
  rewrite (proj2 Hq), Hc. clear. vm_compute. reflexivity.
Defined.

(** A decoder with one group queued reads the next group: drained before
    and after, it returns one group each time, the two groups it returns
    when drained at the end only. *)
Lemma PopGroups_PushBits_witness :
  exists s' t' : BlockStream,
    PushBits queued_state next_group = Some s' /\
    PushBits (PopGroups queued_state).2 next_group = Some t' /\
    length (PopGroups queued_state).1 = 1%nat /\
    length (PopGroups s').1 = 2%nat /\
    (PopGroups queued_state).1 ++ (PopGroups t').1 = (PopGroups s').1.
Proof.
  assert (H : exists s' : @BlockStream SpecCollaborators,
             PushBits queued_state next_group = Some s' /\
             length (PopGroups s').1 = 2%nat).
  { eexists. split; vm_compute; reflexivity. }
  destruct H as (s' & Hs' & Hlen).
  destruct (PopGroups_PushBits queued_state s' next_group Hs')
    as (t' & Ht' & Happ & _).
  exists s', t'. split; [exact Hs'|]. split; [exact Ht'|].
  split; [clear; vm_compute; reflexivity|]. split; [exact Hlen|exact Happ].
Defined.

(** The 26 bits of block A pushed into a new decoder: no candidate
    classifies before the block is complete. *)
Lemma PushBits_no_valid_window_witness :
  is_in_sync_ (BlockStream_new tt) = false /\
  left_to_read_ (BlockStream_new tt) = 1 /\
  exists s' : @BlockStream SpecCollaborators,
    PushBits (BlockStream_new tt) (block_bits 0x0FC) = Some s' /\
    is_in_sync_ s' = false /\
    groups_ s' = [] /\
    bitcount_ s' = 26.
Proof.
  assert (Hs : is_in_sync_ (BlockStream_new tt) = false) by reflexivity.
  assert (Hl : left_to_read_ (BlockStream_new tt) = 1) by reflexivity.
  assert (Hw : Forall
                 (fun w => OffsetForSyndrome (to_u16 (CalculateSyndrome w))
                           = invalid)
                 (scan_windows (input_register_ (BlockStream_new tt))
                    (block_bits 0x0FC))).
  { assert (Hall : forallb
              (fun w => bool_decide
                 (OffsetForSyndrome (to_u16 (CalculateSyndrome w)) = invalid))
              (scan_windows
                 (input_register_ (@BlockStream_new SpecCollaborators tt))
                 (block_bits 0x0FC)) = true)
      by (clear; vm_compute; reflexivity).
    rewrite forallb_forall in Hall.
    apply Forall_forall. intros w Hin%list_elem_of_In.
    exact (bool_decide_eq_true_1 _ (Hall w Hin)). }
  split; [exact Hs|]. split; [exact Hl|].
  destruct (PushBits_no_valid_window (@BlockStream_new SpecCollaborators tt)
              (block_bits 0x0FC) Hs Hl Hw)
    as (s' & Hp & Hs' & _ & Hg & _ & _ & _ & Hb).
  exists s'. split; [exact Hp|]. split; [exact Hs'|].
  split; [exact Hg|exact Hb].
Defined.

(** Block B of message 0 after the anchor on block A: the bit after it
    locks the decoder, which then expects offset C. *)
Lemma PushBits_acquires_sync_witness :
  (reachable anchored_state /\
   is_in_sync_ anchored_state = false /\
   left_to_read_ anchored_state = 1 /\
   prevbitcount_ anchored_state = bitcount_ anchored_state /\
   prevsync_ anchored_state = A) /\
  exists s' : BlockStream,
    PushBits anchored_state (bits_msb 25 0x198 ++ [false]) = Some s' /\
    is_in_sync_ s' = true /\
    left_to_read_ s' = 26 /\
    expected_offset_ s' = C.
Proof.
  assert (Hs : is_in_sync_ anchored_state = false)
    by (clear; vm_compute; reflexivity).
  assert (Hl : left_to_read_ anchored_state = 1)
    by (clear; vm_compute; reflexivity).
  assert (Ha : prevbitcount_ anchored_state = bitcount_ anchored_state)
    by (clear; vm_compute; reflexivity).
  assert (Hps : prevsync_ anchored_state = A)
    by (clear; vm_compute; reflexivity).
  assert (Hn1 : BlockNumberForOffset (prevsync_ anchored_state) = Some BLOCK1)
    by (rewrite Hps; reflexivity).
  assert (Hb : 0 <= 0x198 < 2 ^ 26) by lia.
  assert (Ho : OffsetForSyndrome (to_u16 (CalculateSyndrome 0x198)) = B)
    by (clear; vm_compute; reflexivity).
  assert (Hn2 : BlockNumberForOffset
                  (OffsetForSyndrome (to_u16 (CalculateSyndrome 0x198)))
                = Some BLOCK2)
    by (rewrite Ho; reflexivity).
  assert (Hnum : Z.rem (eBlockNumber_to_Z BLOCK1 + 1) 4 =
                 eBlockNumber_to_Z BLOCK2) by reflexivity.
  assert (Hbit : Z.testbit (input_register_ anchored_state) 0 =
                 Z.testbit 0x198 25)
    by (clear; vm_compute; reflexivity).
  assert (Hw : Forall
                 (fun w => OffsetForSyndrome (to_u16 (CalculateSyndrome w))
                           = invalid)
                 (scan_windows (input_register_ anchored_state)
                    (bits_msb 25 0x198))).
  { assert (Hall : forallb
              (fun w => bool_decide
                 (OffsetForSyndrome (to_u16 (CalculateSyndrome w)) = invalid))
              (scan_windows (input_register_ anchored_state)
                 (bits_msb 25 0x198)) = true)
      by (clear; vm_compute; reflexivity).
    rewrite forallb_forall in Hall.
    apply Forall_forall. intros w Hin%list_elem_of_In.
    exact (bool_decide_eq_true_1 _ (Hall w Hin)). }
  split; [exact (conj anchored_state_reachable
                   (conj Hs (conj Hl (conj Ha Hps))))|].
  destruct (PushBits_acquires_sync anchored_state 0x198 false BLOCK1 BLOCK2
              anchored_state_reachable Hs Hl Ha Hn1 Hb Hn2 Hnum Hbit Hw)
    as (s' & Hp & Hs' & Hl' & He & _).
  exists s'. split; [exact Hp|]. split; [exact Hs'|]. split; [exact Hl'|].
  rewrite He, Ho. reflexivity.
Defined.

(** The group 0x1234 0xABCD 0x0001 0xFFFF of version B, pushed from the
    second bit on and followed by one bit of whatever comes next. *)
Lemma PopGroups_version_B_witness :
  (reachable locked_state /\
   is_in_sync_ locked_state = true /\
   expected_offset_ locked_state = A /\
   left_to_read_ locked_state = 26 /\
   groups_ locked_state = [] /\
   Z.testbit (input_register_ locked_state) 0 =
     Z.testbit (encode_block 0x1234 0x0FC) 25) /\
  exists s' : BlockStream,
    PushBits locked_state
      (tail (block_bits (encode_block 0x1234 0x0FC) ++
             block_bits (encode_block 0xABCD 0x198) ++
             block_bits (encode_block 0x0001 0x350) ++
             block_bits (encode_block 0xFFFF 0x1B4)) ++ [true]) = Some s' /\
    (PopGroups s').1 =
      [{| block1 := Some (0x1234, false); block2 := Some (0xABCD, false);
          block3 := Some (0x0001, false); block4 := Some (0xFFFF, false);
          has_c_prime := true |}].
Proof.
  assert (H1 : is_in_sync_ locked_state = true) by (vm_compute; reflexivity).
  assert (H2 : expected_offset_ locked_state = A) by (vm_compute; reflexivity).
  assert (H3 : left_to_read_ locked_state = 26) by (vm_compute; reflexivity).
  pose proof locked_state_reachable as H4.
  assert (H5 : groups_ locked_state = []) by (vm_compute; reflexivity).
  assert (H7 : Z.testbit (input_register_ locked_state) 0 =
               Z.testbit (encode_block 0x1234 0x0FC) 25)
    by (vm_compute; reflexivity).
  assert (HA : 0 <= encode_block 0x1234 0x0FC < 2 ^ 26 /\
               OffsetForSyndrome
                 (to_u16 (CalculateSyndrome (encode_block 0x1234 0x0FC))) = A)
    by (clear; split; [Zrange|vm_compute; reflexivity]).
  assert (HB : 0 <= encode_block 0xABCD 0x198 < 2 ^ 26 /\
               OffsetForSyndrome
                 (to_u16 (CalculateSyndrome (encode_block 0xABCD 0x198))) = B)
    by (clear; split; [Zrange|vm_compute; reflexivity]).
  assert (HC : 0 <= encode_block 0x0001 0x350 < 2 ^ 26 /\
               OffsetForSyndrome
                 (to_u16 (CalculateSyndrome (encode_block 0x0001 0x350)))
               = Cprime)
    by (clear; split; [Zrange|vm_compute; reflexivity]).
  assert (HD : 0 <= encode_block 0xFFFF 0x1B4 < 2 ^ 26 /\
               OffsetForSyndrome
                 (to_u16 (CalculateSyndrome (encode_block 0xFFFF 0x1B4))) = D)
    by (clear; split; [Zrange|vm_compute; reflexivity]).
  split; [exact (conj H4 (conj H1 (conj H2 (conj H3 (conj H5 H7)))))|].
  destruct (PopGroups_version_B locked_state _ _ _ _ true
              H4 H1 H2 H3 H5 H7 HA HB HC HD) as (s' & Hpush & Hpop).
  exists s'. split; [exact Hpush|].
  rewrite Hpop. vm_compute. reflexivity.
Defined.
